(** * FHETetris: the game engine of [FHETetris.tsx] and the score contract
    of [FHETetris.sol], embedded and verified.

    The engine lives in one React effect: a board [arena], the falling
    [player] piece, and the closures [collide], [merge], [sweep],
    [playerReset], [playerDrop], [movePlayer], [rotate], [playerRotate].
    Arrays are lists, indices are [Z] (JavaScript indexes with any number),
    and a read outside an array is the JavaScript value [undefined]. The
    score is React state: the engine only queues updates to it. [draw] and
    the canvas are left out; they read the state and change nothing.

    The hook [useFHETetris] and the Submit button of the page are embedded
    as far as their own control flow goes; the SDK, the wallet and the
    chain they call are parameters. *)

From Stdlib Require Import ZArith Lia.
From stdpp Require Import base option list strings gmap.

Local Open Scope Z_scope.

(** ** JavaScript values stored in the matrices *)

(** A matrix cell is a number or, after a read outside an array,
    [undefined]. *)
Inductive cell : Type :=
  | Num (n : Z)
  | Undef.

#[global] Instance cell_eq_dec : EqDecision cell.
Proof. solve_decision. Defined.

(** Truthiness, as in [if (m[y][x] && ...)]: [0] and [undefined] are falsy. *)
Definition truthy (v : cell) : bool :=
  match v with
  | Num n => negb (n =? 0)
  | Undef => false
  end.

(** [v !== 0]: strict inequality with the number zero; [undefined !== 0]
    is true. *)
Definition neq0 (v : cell) : bool :=
  match v with
  | Num n => negb (n =? 0)
  | Undef => true
  end.

(** [a[i]] on an array: [None] stands for [undefined] (negative index or
    index at or beyond the length). *)
Definition idx {A : Type} (l : list A) (i : Z) : option A :=
  if decide (0 ≤ i) then l !! Z.to_nat i else None.

Abbreviation matrix_t := (list (list cell)).

(** [arena[r] && arena[r][c]]: a missing row short-circuits to [undefined];
    an existing row is an object, hence truthy, and the value is the
    column read. *)
Definition cellAt (arena : matrix_t) (r c : Z) : cell :=
  match idx arena r with
  | None => Undef
  | Some row => default Undef (idx row c)
  end.

(** ** Board constants and the shape catalogue *)

Definition COLS : Z := 10.
Definition ROWS : Z := 20.

Definition nums (l : list Z) : list cell := Num <$> l.

Definition shapes : list matrix_t :=
  [ [];
    [nums [1; 1; 1; 1]];
    [nums [2; 0; 0]; nums [2; 2; 2]];
    [nums [0; 0; 3]; nums [3; 3; 3]];
    [nums [4; 4]; nums [4; 4]];
    [nums [0; 5; 5]; nums [5; 5; 0]];
    [nums [0; 6; 0]; nums [6; 6; 6]];
    [nums [7; 7; 0]; nums [0; 7; 7]] ].

(** [Array.from({ length: ROWS }, () => Array(COLS).fill(0))] *)
Definition emptyArena : matrix_t :=
  replicate (Z.to_nat ROWS) (replicate (Z.to_nat COLS) (Num 0)).

(** ** The falling piece *)

Record position : Type := Pos { pos_x : Z; pos_y : Z }.

Record piece : Type := Piece { pos : position; matrix : matrix_t }.

(** ** collide *)

(** Inner loop of [collide] over one shape row, from column [x] on. The
    early [return true] is the left operand of [||]. *)
Fixpoint collide_row (arena : matrix_t) (o : position) (y x : Z)
    (row : list cell) : bool :=
  match row with
  | [] => false
  | v :: row' =>
      (truthy v && neq0 (cellAt arena (y + pos_y o) (x + pos_x o)))
      || collide_row arena o y (x + 1) row'
  end.

(** Outer loop of [collide], from shape row [y] on. *)
Fixpoint collide_rows (arena : matrix_t) (o : position) (y : Z)
    (m : matrix_t) : bool :=
  match m with
  | [] => false
  | row :: m' => collide_row arena o y 0 row || collide_rows arena o (y + 1) m'
  end.

Definition collide (arena : matrix_t) (player : piece) : bool :=
  collide_rows arena (pos player) 0 (matrix player).

(** ** Exceptions and mutable state *)

(** How a call can fail to complete. [TypeError] is the JavaScript
    exception of a property access on [undefined]. [OutOfFuel] marks a loop
    cut off by the model's step bound. [NotModelled] marks what the model
    leaves out because the program cannot come to it: a random index that
    [Math.random() < 1] excludes, and an address the heap does not hold. *)
Inductive error : Type :=
  | TypeError
  | OutOfFuel
  | NotModelled.

(** A computation over mutable state [St]: the state is returned in every
    case, since writes made before an exception stay made. *)
Definition js (St A : Type) : Type := St → St * (error + A).

#[global] Instance js_ret {St} : MRet (js St) := λ A a s, (s, inr a).

#[global] Instance js_bind {St} : MBind (js St) := λ A B f m s,
  match m s with
  | (s', inl e) => (s', inl e)
  | (s', inr a) => f a s'
  end.

Definition throw {St A} (e : error) : js St A := λ s, (s, inl e).
Definition gets {St A} (f : St → A) : js St A := λ s, (s, inr (f s)).
Definition modify {St} (f : St → St) : js St unit := λ s, (f s, inr tt).
Definition when {St} (b : bool) (m : js St unit) : js St unit :=
  if b then m else mret tt.

(** ** merge *)

(** [row[c] = v] for [0 ≤ c]: inside the row it overwrites; at or beyond the
    length JavaScript extends the array, the skipped indices reading as
    [undefined]. *)
Definition writeAt (row : list cell) (c : nat) (v : cell) : list cell :=
  if decide (c < length row)%nat then <[c := v]> row
  else row ++ replicate (c - length row) Undef ++ [v].

(** [arena[r][c] = v]. A missing row throws. At a negative column
    JavaScript stores the value as a named property of the row, beside its
    elements: no element and no length changes and nothing is thrown, so
    the lists are left as they are. [every], [fill], [splice], [unshift]
    and [forEach] work on the elements only; the one read that can meet
    such a property is the one of [collide] at a negative column, which
    only tests the value read against zero, and both the stored value
    (written because it was [!== 0]) and the [undefined] read here give
    the same answer. *)
Definition assign (r c : Z) (v : cell) : js matrix_t unit := λ arena,
  match idx arena r with
  | None => (arena, inl TypeError)
  | Some row =>
      if decide (c < 0) then (arena, inr tt)
      else (<[Z.to_nat r := writeAt row (Z.to_nat c) v]> arena, inr tt)
  end.

(** [row.forEach((val, x) => { if (val !== 0) arena[y + pos.y][x + pos.x] = val })],
    from column [x] on. *)
Fixpoint merge_row (o : position) (y x : Z) (row : list cell)
    : js matrix_t unit :=
  match row with
  | [] => mret tt
  | v :: row' =>
      when (neq0 v) (assign (y + pos_y o) (x + pos_x o) v) ;;
      merge_row o y (x + 1) row'
  end.

(** [player.matrix.forEach((row, y) => ...)], from shape row [y] on. *)
Fixpoint merge_rows (o : position) (y : Z) (m : matrix_t) : js matrix_t unit :=
  match m with
  | [] => mret tt
  | row :: m' => merge_row o y 0 row ;; merge_rows o (y + 1) m'
  end.

Definition merge (player : piece) : js matrix_t unit :=
  merge_rows (pos player) 0 (matrix player).

(** ** sweep *)

(** [row.every(x => x !== 0)] *)
Definition isFull (row : list cell) : bool := forallb neq0 row.

(** [row.fill(0)] *)
Definition zeroed (row : list cell) : list cell :=
  replicate (length row) (Num 0).

(** [arena.splice(y, 1)[0].fill(0)] followed by [arena.unshift(row)]: the
    removed row, zeroed at its own length, becomes row 0. *)
Definition clearRow (arena : matrix_t) (y : nat) (row : list cell) : matrix_t :=
  zeroed row :: delete y arena.

(** The [for] loop of [sweep], entered at its test [y > 0] with the locals
    [y] and [rowCount]. It yields the final board, the values [rowCount] had
    at the calls of [setScore], in the order of the calls, and the value
    [rowCount] has when the loop ends. After a clear, [y++] and the loop's
    [--y] cancel, so the same index is tested again. *)
Fixpoint sweep_loop (fuel : nat) (arena : matrix_t) (y rowCount : Z)
    : error + (matrix_t * list Z * Z) :=
  match fuel with
  | O => inl OutOfFuel
  | S fuel' =>
      if decide (y > 0) then
        match idx arena y with
        | None => inl TypeError
        | Some row =>
            if isFull row then
              match sweep_loop fuel' (clearRow arena (Z.to_nat y) row)
                      (y + 1 - 1) (rowCount * 2) with
              | inl e => inl e
              | inr (arena', calls, final) =>
                  inr (arena', rowCount :: calls, final)
              end
            else sweep_loop fuel' arena (y - 1) rowCount
        end
      else inr (arena, [], rowCount)
  end.

(** [sweep] on the board alone: [rowCount = 1], [y = arena.length - 1]. *)
Definition sweepRows (fuel : nat) (arena : matrix_t)
    : error + (matrix_t * list Z * Z) :=
  sweep_loop fuel arena (Z.of_nat (length arena) - 1) 1.

(** The updater [s => s + rowCount * 15]. It is a closure over the variable
    [rowCount] of the call of [sweep] that made it: it reads the value the
    variable has when the updater runs. *)
Definition updater (rowCount s : Z) : Z := s + rowCount * 15.

(** The score after React has run the updaters that one call of [sweep]
    queued. React runs queued updaters, in order, when it next renders the
    component; the file is a client component of the App Router, so that is
    after the callback that queued them has returned, and [rowCount] then
    has its final value [atRender]. There is one exception: when no update
    is pending on the component ([idle]), React runs the first updater at
    the call itself, to see whether the state changes at all, and keeps that
    result; [rowCount] then still has the value it had at that call. *)
Definition runQueue (idle : bool) (atCall : list Z) (atRender : Z) (s : Z) : Z :=
  match atCall with
  | [] => s
  | rc :: rest =>
      foldl (λ s _, updater atRender s)
        (updater (if idle then rc else atRender) s) rest
  end.

(** ** rotate *)

(** [matrix[0].map((_, i) => matrix.map(row => row[i])).reverse()]. All the
    arrays are built by [map]; [reverse] works on the new outer array. *)
Definition rotate (m : matrix_t) : error + matrix_t :=
  match m with
  | [] => inl TypeError
  | row0 :: _ =>
      inr (reverse (imap (λ i _, (λ row, default Undef (row !! i)) <$> m) row0))
  end.

(** [matrix[0].length] *)
Definition width0 (m : matrix_t) : error + Z :=
  match m with
  | [] => inl TypeError
  | row0 :: _ => inr (Z.of_nat (length row0))
  end.

(** ** rotate with its arrays on the heap *)

(** [rotate] above works on values. Whether it mutates its argument is a
    question about objects, so here is the same function over a heap of
    arrays. An array element is a cell or a reference to another array; the
    heap only grows, and a new array gets the next free address. *)
Inductive val : Type :=
  | VCell (c : cell)
  | VRef (l : nat).

Abbreviation heap := (list (list val)).

Definition alloc (h : heap) (arr : list val) : heap * nat :=
  (h ++ [arr], length h).

(** [e[i]]: an array yields its element or [undefined], a number has no
    such property, and reading a property of [undefined] throws. *)
Definition readProp (h : heap) (e : val) (i : nat) : error + val :=
  match e with
  | VRef l =>
      match h !! l with
      | Some arr => inr (default (VCell Undef) (arr !! i))
      | None => inl NotModelled
      end
  | VCell (Num _) => inr (VCell Undef)
  | VCell Undef => inl TypeError
  end.

(** The elements of [matrix.map(row => row[i])]. *)
Fixpoint readColumn (h : heap) (outer : list val) (i : nat)
    : error + list val :=
  match outer with
  | [] => inr []
  | e :: outer' =>
      match readProp h e i with
      | inl err => inl err
      | inr v =>
          match readColumn h outer' i with
          | inl err => inl err
          | inr vs => inr (v :: vs)
          end
      end
  end.

(** The callbacks of [matrix[0].map((_, i) => ...)] for the indices
    [i, i+1, ..., i+n-1]: each allocates the array its inner [map] builds. *)
Fixpoint mapColumns (h : heap) (outer : list val) (i n : nat)
    : error + (heap * list val) :=
  match n with
  | O => inr (h, [])
  | S n' =>
      match readColumn h outer i with
      | inl err => inl err
      | inr col =>
          let '(h1, l) := alloc h col in
          match mapColumns h1 outer (S i) n' with
          | inl err => inl err
          | inr (h2, refs) => inr (h2, VRef l :: refs)
          end
      end
  end.

(** [rotate(matrix)] for the array at address [m]: the outer [map] builds a
    new array of the new rows, and [reverse()] reverses that new array in
    place. The new array is allocated here after its elements are known. *)
Definition rotateH (h : heap) (m : nat) : error + (heap * nat) :=
  match h !! m with
  | None => inl NotModelled
  | Some outer =>
      match outer !! 0%nat with
      | Some (VRef r0) =>
          match h !! r0 with
          | None => inl NotModelled
          | Some row0 =>
              match mapColumns h outer 0 (length row0) with
              | inl err => inl err
              | inr (h1, refs) =>
                  let '(h2, res) := alloc h1 refs in
                  inr (<[res := reverse refs]> h2, res)
              end
          end
      | _ => inl TypeError
      end
  end.

(** The array element [e] is a reference to an array holding the cells
    [row]. *)
Definition repRow (h : heap) (e : val) (row : list cell) : Prop :=
  ∃ l, e = VRef l ∧ h !! l = Some (VCell <$> row).

(** The array at address [m] is the matrix [mat]. *)
Definition repMatrix (h : heap) (m : nat) (mat : matrix_t) : Prop :=
  ∃ outer, h !! m = Some outer ∧ Forall2 (repRow h) outer mat.

(** Build a matrix on the heap: one array per row, then the outer array. *)
Fixpoint storeRows (h : heap) (mat : matrix_t) : heap * list val :=
  match mat with
  | [] => (h, [])
  | row :: mat' =>
      let '(h1, l) := alloc h (VCell <$> row) in
      let '(h2, refs) := storeRows h1 mat' in
      (h2, VRef l :: refs)
  end.

Definition store (h : heap) (mat : matrix_t) : heap * nat :=
  let '(h1, refs) := storeRows h mat in alloc h1 refs.

(** ** The game state and its commands *)

Record world : Type := World {
  arena : matrix_t;
  player : piece;
  score : Z;
  gameOver : bool;
  started : bool
}.

Definition set_arena (a : matrix_t) (w : world) : world :=
  World a (player w) (score w) (gameOver w) (started w).
Definition set_player (p : piece) (w : world) : world :=
  World (arena w) p (score w) (gameOver w) (started w).
Definition set_matrix (m : matrix_t) (w : world) : world :=
  set_player (Piece (pos (player w)) m) w.
Definition set_x (x : Z) (w : world) : world :=
  set_player (Piece (Pos x (pos_y (pos (player w)))) (matrix (player w))) w.
Definition set_y (y : Z) (w : world) : world :=
  set_player (Piece (Pos (pos_x (pos (player w))) y) (matrix (player w))) w.
Definition setScore (f : Z → Z) (w : world) : world :=
  World (arena w) (player w) (f (score w)) (gameOver w) (started w).
Definition setGameOver (b : bool) (w : world) : world :=
  World (arena w) (player w) (score w) b (started w).
Definition setStarted (b : bool) (w : world) : world :=
  World (arena w) (player w) (score w) (gameOver w) b.

Definition cur_x (w : world) : Z := pos_x (pos (player w)).
Definition cur_y (w : world) : Z := pos_y (pos (player w)).

(** Lift a failure or value into a computation. *)
Definition liftE {St A} (r : error + A) : js St A :=
  match r with
  | inl e => throw e
  | inr a => mret a
  end.

(** Run a computation on the board inside the game state. *)
Definition onArena {A} (m : js matrix_t A) : js world A := λ w,
  let '(a, r) := m (arena w) in (set_arena a w, r).

(** [shapes[Math.floor(Math.random() * (shapes.length - 1)) + 1]], where
    [rnd] is the value of the [Math.floor] call, an index below 7. *)
Definition pickShape {St} (rnd : nat) : js St matrix_t :=
  match shapes !! S rnd with
  | Some m => mret m
  | None => throw NotModelled
  end.

(** [{ pos: { x: 0, y: 0 }, matrix: ... }], the [player] object as the
    effect creates it. *)
Definition initialPlayer (m : matrix_t) : piece := Piece (Pos 0 0) m.

(** The state built when the effect runs after Start was pressed: Start sets
    [gameOver = false], [started = true], [score = 0]; the effect creates the
    empty board and the first player object. [playerReset] is not called
    here. *)
Definition startGame (rnd : nat) : error + world :=
  match shapes !! S rnd with
  | Some m => inr (World emptyArena (initialPlayer m) 0 false true)
  | None => inl NotModelled
  end.

(** [resetGame]: [setFeedbackMsg("")] is display only. *)
Definition resetGame : js world unit := modify (setStarted false).

(** [playerReset]; [clearInterval] acts on the timer, which is outside the
    state. *)
Definition playerReset (rnd : nat) : js world unit :=
  m ← pickShape rnd;
  modify (set_matrix m) ;;
  modify (set_y 0) ;;
  w0 ← liftE (width0 m);
  modify (set_x (COLS / 2 - w0 / 2)) ;;
  c ← gets (λ w, collide (arena w) (player w));
  when c (modify (setGameOver true) ;; resetGame).

(** [sweep] as a command: the board is swept and the score updates are
    queued. Nothing in the engine reads the score, so the field [score]
    holds the value React gives it at the render that follows. *)
Definition sweep (idle : bool) (fuel : nat) : js world unit := λ w,
  match sweepRows fuel (arena w) with
  | inl e => (w, inl e)
  | inr (a, calls, final) =>
      (setScore (runQueue idle calls final) (set_arena a w), inr tt)
  end.

(** [playerDrop]; [draw] only paints. In the page the [gameOver] of the
    test is the value the effect captured at its render, and no effect is
    mounted with it true: the flag is raised together with the clearing of
    [started], and the render that follows removes the timer and the
    listener. The model reads the flag of the state instead. The two
    differ only once the game is over, where the page calls no callback any
    more and the model's callbacks return at this test. *)
Definition playerDrop (fuel rnd : nat) (idle : bool) : js world unit :=
  g ← gets gameOver;
  if g : bool then mret tt
  else
    y ← gets cur_y;
    modify (set_y (y + 1)) ;;
    c ← gets (λ w, collide (arena w) (player w));
    when c (
      y1 ← gets cur_y;
      modify (set_y (y1 - 1)) ;;
      p ← gets player;
      onArena (merge p) ;;
      sweep idle fuel ;;
      playerReset rnd).

(** [movePlayer] *)
Definition movePlayer (dir : Z) : js world unit :=
  x ← gets cur_x;
  modify (set_x (x + dir)) ;;
  c ← gets (λ w, collide (arena w) (player w));
  when c (x1 ← gets cur_x; modify (set_x (x1 - dir))).

(** How [playerRotate] ended: at [draw()] after the loop, or at the
    [return] inside it. *)
Inductive rotateEnd : Type :=
  | Drawn
  | Abandoned.

(** The [while] loop of [playerRotate], entered at its test with the local
    [offset]. *)
Fixpoint kick (fuel : nat) (offset : Z) : js world rotateEnd :=
  match fuel with
  | O => throw OutOfFuel
  | S fuel' =>
      c ← gets (λ w, collide (arena w) (player w));
      if c : bool then
        x ← gets cur_x;
        modify (set_x (x + offset)) ;;
        let offset' := - (offset + (if decide (offset > 0) then 1 else -1)) in
        m ← gets (λ w, matrix (player w));
        w0 ← liftE (width0 m);
        if decide (offset' > w0) then mret Abandoned
        else kick fuel' offset'
      else mret Drawn
  end.

(** [playerRotate]. The local [const pos = player.pos.x] is never read
    again, so it has no counterpart here. *)
Definition playerRotate (fuel : nat) : js world rotateEnd :=
  m ← gets (λ w, matrix (player w));
  m' ← liftE (rotate m);
  modify (set_matrix m') ;;
  kick fuel 1.

(** The keys of a [keydown] event; [OtherKey] is any key the listener has
    no branch for. *)
Inductive key : Type :=
  | ArrowLeft
  | ArrowRight
  | ArrowDown
  | ArrowUp
  | OtherKey.

(** [keyListener]; [rnd] is the index [Math.random] yields and [idle]
    tells whether React has no update pending, should the key come to lock
    the piece. The test of [gameOver] is modelled as in [playerDrop]. *)
Definition keyListener (fuel rnd : nat) (idle : bool) (k : key)
    : js world unit :=
  g ← gets gameOver;
  if g : bool then mret tt
  else
    match k with
    | ArrowLeft => movePlayer (-1)
    | ArrowRight => movePlayer 1
    | ArrowDown => playerDrop fuel rnd idle
    | ArrowUp => playerRotate fuel ;; mret tt
    | OtherKey => mret tt
    end.

(** What the page reacts to while the effect is mounted: a key, or the
    interval [setInterval(playerDrop, 200)] firing. *)
Inductive event : Type :=
  | Key (k : key) (rnd : nat) (idle : bool)
  | Tick (rnd : nat) (idle : bool).

Definition handle (fuel : nat) (e : event) : js world unit :=
  match e with
  | Key k rnd idle => keyListener fuel rnd idle k
  | Tick rnd idle => playerDrop fuel rnd idle
  end.

(** Events handled one after the other; an exception ends only the callback
    it was thrown in, the next event finds the state as that one left it.
    A callback that the step bound cuts off, or one given a draw outside
    the seven shapes, is not one of the program's: a run is the program's
    where it has none of these, which [followed] states below. *)
Fixpoint play (fuel : nat) (es : list event) (w : world) : world :=
  match es with
  | [] => w
  | e :: es' => play fuel es' (fst (handle fuel e w))
  end.

(** ** The score contract, [FHETetris.sol] *)

(** Addresses and ciphertext handles ([euint32] and [externalEuint32] are
    [bytes32] values) are numbers; [bytes] is a byte list. *)
Abbreviation address := N.
Abbreviation euint32 := N.
Abbreviation externalEuint32 := N.

(** The imported library's [FHE.fromExternal], which checks the proof for
    the sender and reverts when it is invalid. *)
Class FHE : Type := {
  fromExternal : address → externalEuint32 → list Byte.byte → option euint32
}.

(** The contract's storage [_playerScores] and the access list kept by the
    library ([FHE.allowThis], [FHE.allow]). *)
Record chain : Type := Chain {
  playerScores : gmap N (list N);
  allowed : gset (N * N)
}.

(** Reading [_playerScores[a]]: an unset key is the empty array. *)
Definition scoresOf (st : chain) (a : address) : list euint32 :=
  default [] (playerScores st !! a).

Definition allow (h : euint32) (a : address) (st : chain) : chain :=
  Chain (playerScores st) ({[ (h, a) ]} ∪ allowed st).

(** [_playerScores[a].push(h)] *)
Definition push (a : address) (h : euint32) (st : chain) : chain :=
  Chain (<[a := scoresOf st a ++ [h]]> (playerScores st)) (allowed st).

(** [uploadScore], called by [sender] on the contract at address [this];
    [None] is a reverted transaction, which leaves the storage as it was. *)
Definition uploadScore `{FHE} (this sender : address)
    (encryptedScore : externalEuint32) (proof : list Byte.byte)
    (st : chain) : option chain :=
  internalScore ← fromExternal sender encryptedScore proof;
  let st := allow internalScore this st in
  let st := push sender internalScore st in
  Some (allow internalScore sender st).

Definition fetchScores (st : chain) (player : address) : list euint32 :=
  scoresOf st player.

(** One [uploadScore] transaction. *)
Record call : Type := Call {
  call_sender : address;
  call_score : externalEuint32;
  call_proof : list Byte.byte
}.

(** The storage after a transaction, reverted or not. *)
Definition exec `{FHE} (this : address) (st : chain) (c : call) : chain :=
  default st (uploadScore this (call_sender c) (call_score c) (call_proof c) st).

(** The storage after a sequence of transactions. *)
Definition execAll `{FHE} (this : address) (st : chain) (cs : list call) : chain :=
  foldl (exec this) st cs.

(** The handle a transaction stores for [player], if it is theirs and its
    proof is accepted. *)
Definition stored `{FHE} (player : address) (c : call) : option euint32 :=
  if decide (call_sender c = player)
  then fromExternal (call_sender c) (call_score c) (call_proof c)
  else None.

(** ** The hook [useFHETetris] and the Submit button *)

Module Hook.

(** What a call does, or what the promise it returns settles to: a value,
    or an exception with its message. *)
Inductive outcome (A : Type) : Type :=
  | Returns (a : A)
  | Throws (message : string).
Arguments Returns {A} a.
Arguments Throws {A} message.

(** A callback over state [St] that can throw; the state is returned in
    both cases. An [await] is a call whose outcome is that of the promise;
    what other callbacks do to the state while one is pending is not part
    of a run. *)
Definition act (St A : Type) : Type := St → St * outcome A.

#[local] Instance act_ret {St} : MRet (act St) := λ A a s, (s, Returns a).

#[local] Instance act_bind {St} : MBind (act St) := λ A B f m s,
  match m s with
  | (s', Throws e) => (s', Throws e)
  | (s', Returns a) => f a s'
  end.

(** [try { body } catch (err) { handler }] *)
Definition tryCatch {St A} (body : act St A) (handler : string → act St A)
    : act St A := λ s,
  match body s with
  | (s', Throws e) => handler e s'
  | (s', Returns a) => (s', Returns a)
  end.

(** [try { body } finally { finalizer }]: the finalizer runs on every way
    out of the body, a [return] included. *)
Definition tryFinally {St A} (body : act St A) (finalizer : act St unit)
    : act St A := λ s,
  let '(s1, r) := body s in
  match finalizer s1 with
  | (s2, Throws e) => (s2, Throws e)
  | (s2, Returns _) => (s2, r)
  end.

(** An entry of the contract ABI as [getEncryptionType] reads it: [type],
    [name], and the [internalType] of each input when [inputs] is there. *)
Record abiItem : Type := AbiItem {
  abi_type : string;
  abi_name : string;
  abi_inputs : option (list string)
}.

(** The calls that leave the page, in the order they are made. *)
Inductive effect : Type :=
  | EncryptWith (method : string) (points : Z)
  | BuildParams
  | SendUploadScore
  | WaitTx
  | ReloadScores.

(** The SDK, the wallet and the chain. [encryptWith] resolves to a
    ciphertext or to [undefined]; [sendUploadScore] is
    [contractWrite.uploadScore(...params, { gasLimit: 300_000 })] and
    [waitTx] is [tx.wait()]; [reloadScores], the [refetch] of the contract
    read, may answer differently each time and is given the calls made
    before it. *)
Record services : Type := Services {
  getEncryptionMethod : string → outcome (option string);
  encryptWith : string → Z → outcome (option N);
  buildParamsFromAbi : N → outcome N;
  sendUploadScore : N → outcome N;
  waitTx : N → outcome unit;
  reloadScores : list effect → outcome unit
}.

(** The two [error] texts of [getEncryptionType]. *)
Inductive abiError : Type :=
  | MissingAbi (fnName : string)
  | NoInputs (fnName : string).

(** The texts [setStatus] is called with; [Blank] is the empty string. *)
Inductive statusText : Type :=
  | Blank
  | Encrypting (points : Z)
  | AbiProblem (e : abiError)
  | TypeNotFound
  | EncryptionFailed
  | NoSignerOrContract
  | Waiting
  | Submitted (points : Z)
  | Failed (message : string).

(** What a render of the hook sees: the deployed contract with its ABI if
    it is known ([tetrisContract] with [address] and [abi]), whether the
    FHE instance, the signer and the read-only provider are defined, and
    the state [isWorking] and [status]. [log] records the calls made. *)
Record hook : Type := HookState {
  tetrisContract : option (list abiItem);
  instance : bool;
  ethersSigner : bool;
  ethersReadonlyProvider : bool;
  isWorking : bool;
  status : statusText;
  log : list effect
}.

Definition setStatus (t : statusText) : act hook unit := λ h,
  (HookState (tetrisContract h) (instance h) (ethersSigner h)
     (ethersReadonlyProvider h) (isWorking h) t (log h), Returns tt).

Definition setIsWorking (b : bool) : act hook unit := λ h,
  (HookState (tetrisContract h) (instance h) (ethersSigner h)
     (ethersReadonlyProvider h) b (status h) (log h), Returns tt).

(** A call of a service: it is recorded, then it returns or throws. *)
Definition call {A} (e : effect) (o : list effect → outcome A) : act hook A :=
  λ h,
  (HookState (tetrisContract h) (instance h) (ethersSigner h)
     (ethersReadonlyProvider h) (isWorking h) (status h) (log h ++ [e]),
   o (log h)).

Definition contractReady (h : hook) : bool :=
  match tetrisContract h with
  | Some _ => true
  | None => false
  end.
Definition signerReady (h : hook) : bool := ethersSigner h.
Definition providerReady (h : hook) : bool := ethersReadonlyProvider h.

Inductive mode : Type :=
  | Read
  | Write.

(** [getContract]: [undefined], or the contract object bound to the
    provider or the signer. *)
Definition getContract (m : mode) (h : hook) : option (list abiItem) :=
  if negb (contractReady h) then None
  else
    let source :=
      match m with
      | Read => ethersReadonlyProvider h
      | Write => ethersSigner h
      end in
    if negb source then None else tetrisContract h.

Definition canUpload (h : hook) : bool :=
  contractReady h && instance h && signerReady h && negb (isWorking h).

(** [getEncryptionType]: the pair [{ method, error }]. *)
Definition getEncryptionType (io : services) (h : hook) (fnName : string)
    : outcome (option string * option abiError) :=
  match tetrisContract h ≫=
        List.find (λ f, String.eqb (abi_type f) "function"
                        && String.eqb (abi_name f) fnName) with
  | None => Returns (None, Some (MissingAbi fnName))
  | Some fnAbi =>
      match abi_inputs fnAbi with
      | None | Some [] => Returns (None, Some (NoInputs fnName))
      | Some (input0 :: _) =>
          match getEncryptionMethod io input0 with
          | Returns method => Returns (method, None)
          | Throws e => Throws e
          end
      end
  end.

(** [!method] for a method name: [undefined] and the empty string are
    falsy. *)
Definition named (method : option string) : option string :=
  match method with
  | Some m => if String.eqb m "" then None else Some m
  | None => None
  end.

(** [uploadScore] of the hook. *)
Definition uploadScore (io : services) (points : Z) : act hook unit := λ h,
  if isWorking h || negb (canUpload h) then (h, Returns tt)
  else
    (setIsWorking true ;;
     setStatus (Encrypting points) ;;
     tryFinally
       (tryCatch
          ('(method, error) ← (λ s, (s, getEncryptionType io h "uploadScore"));
           match named method with
           | None =>
               setStatus (match error with
                          | Some e => AbiProblem e
                          | None => TypeNotFound
                          end)
           | Some method =>
               encrypted ← call (EncryptWith method points)
                                (λ _, encryptWith io method points);
               match encrypted with
               | None => setStatus EncryptionFailed
               | Some encrypted =>
                   match getContract Write h with
                   | None => setStatus NoSignerOrContract
                   | Some _ =>
                       params ← call BuildParams
                                     (λ _, buildParamsFromAbi io encrypted);
                       tx ← call SendUploadScore
                                 (λ _, sendUploadScore io params);
                       setStatus Waiting ;;
                       call WaitTx (λ _, waitTx io tx) ;;
                       setStatus (Submitted points) ;;
                       call ReloadScores (reloadScores io)
                   end
               end
           end)
          (λ err, setStatus (Failed err)))
       (setIsWorking false)) h.

(** The texts [setFeedbackMsg] is called with; [NoFeedback] is the empty
    string. *)
Inductive feedbackText : Type :=
  | NoFeedback
  | NotReady
  | Submitting
  | Uploaded
  | FailedToSubmit.

(** The page: the hook it renders with, its [feedbackMsg] and [score]. *)
Record page : Type := Page {
  hookState : hook;
  feedbackMsg : feedbackText;
  score : Z
}.

Definition setFeedbackMsg (t : feedbackText) : act page unit := λ p,
  (Page (hookState p) t (score p), Returns tt).

(** A call into the hook from the page. *)
Definition onHook {A} (m : act hook A) : act page A := λ p,
  let '(h, r) := m (hookState p) in (Page h (feedbackMsg p) (score p), r).

(** [handleSubmitScore]; [console.error] only prints. *)
Definition handleSubmitScore (io : services) : act page unit := λ p,
  if negb (canUpload (hookState p)) then setFeedbackMsg NotReady p
  else
    tryCatch
      (setFeedbackMsg Submitting ;;
       onHook (uploadScore io (score p)) ;;
       onHook (call ReloadScores (reloadScores io)) ;;
       setFeedbackMsg Uploaded)
      (λ _, setFeedbackMsg FailedToSubmit) p.

(** The line under the board, [feedbackMsg || message]. *)
Definition shown (p : page) : feedbackText + statusText :=
  match feedbackMsg p with
  | NoFeedback => inr (status (hookState p))
  | t => inl t
  end.

End Hook.

(** ** Vocabulary of the statements *)

(** The shape of [p] holds value [v] at shape row [y], shape column [x]. *)
Definition shapeCell (p : piece) (y x : nat) (v : cell) : Prop :=
  ∃ row, matrix p !! y = Some row ∧ row !! x = Some v.

(** Absolute board coordinates of a shape cell. *)
Definition boardRow (p : piece) (y : nat) : Z := Z.of_nat y + pos_y (pos p).
Definition boardCol (p : piece) (x : nat) : Z := Z.of_nat x + pos_x (pos p).

(** Every row of the matrix has [w] cells. *)
Definition rectangular (w : nat) (m : matrix_t) : Prop :=
  Forall (λ row, length row = w) m.

(** Every cell of the matrix is a number. *)
Definition numeric (m : matrix_t) : Prop :=
  Forall (Forall (λ v, v ≠ Undef)) m.

(** The board has a cell at row [r], column [c]. *)
Definition inside (a : matrix_t) (r c : Z) : Prop :=
  ∃ row, idx a r = Some row ∧ 0 ≤ c < Z.of_nat (length row).

(** The height of a board and the width of each of its rows. *)
Definition dims (a : matrix_t) : list nat := length <$> a.

(** The awards of a pass that clears [k] rows, in the specification's words:
    [15 * 2^(i-1)] for the [i]-th row cleared, [i = 1..k]. *)
Definition cascade (k : nat) : list Z :=
  (λ i : nat, 15 * 2 ^ Z.of_nat i) <$> seq 0 k.

(** Their sum. *)
Definition cascadeTotal (k : nat) : Z := foldr Z.add 0 (cascade k).

(** The values of [rowCount] at the [k] calls of [setScore] of a pass that
    starts with the given value. *)
Fixpoint callsFrom (rowCount : Z) (k : nat) : list Z :=
  match k with
  | O => []
  | S k' => rowCount :: callsFrom (rowCount * 2) k'
  end.

(** What a pass that clears [k] rows adds to the score: every updater run at
    the render adds [2^k * 15]; the first one adds 15 when it is run at its
    call. *)
Definition passScore (idle : bool) (k : nat) : Z :=
  match k with
  | O => 0
  | S k' =>
      (if idle then 15 else 2 ^ Z.of_nat k * 15)
      + Z.of_nat k' * (2 ^ Z.of_nat k * 15)
  end.

(** Row 0 is full and no row below it is. *)
Definition topOnly (a : matrix_t) : bool :=
  match a with
  | [] => false
  | row0 :: below => isFull row0 && forallb (λ row, negb (isFull row)) below
  end.

(** The rows a pass clears, top to bottom: every full row, except that a
    full row 0 with no full row below it stays. *)
Definition clearedRows (a : matrix_t) : list (list cell) :=
  if topOnly a then [] else List.filter isFull a.

(** The rows a pass keeps, top to bottom. *)
Definition keptRows (a : matrix_t) : list (list cell) :=
  if topOnly a then a else List.filter (λ row, negb (isFull row)) a.

(** Inside the loop, with the zero rows [zs] already on top: whether the
    pass leaves the pending rows [u] alone. *)
Definition skipTop (zs u : matrix_t) : bool :=
  match zs with
  | [] => topOnly u
  | _ => false
  end.

(** A key pressed while the piece is in the air. *)
Definition press (k : key) : event := Key k 0 true.

(** [n] timer ticks; the last one locks the piece and draws [next]. *)
Definition ticks (n next : nat) : list event :=
  replicate (n - 1) (Tick 0 true) ++ [Tick next true].

(** A game from the draw 3: four squares lie side by side on the floor, in
    columns 0 to 7, and the fifth hangs over columns 8 and 9, one tick from
    being locked there. *)
Definition twoRowGame : list event :=
  ticks 19 3 ++
  (replicate 2 (press ArrowLeft) ++ ticks 19 3) ++
  ticks 19 3 ++
  (replicate 2 (press ArrowRight) ++ ticks 19 3) ++
  (replicate 4 (press ArrowRight) ++ replicate 18 (Tick 0 true)).

(** A bar set upright, brought to its column by [moves] and dropped. *)
Definition upright (moves : list event) (n next : nat) : list event :=
  press ArrowUp :: moves ++ ticks n next.

(** A game from the draw 0, seventeen pieces locked: towers in columns 0
    and 9 topped by a square each, an L and a J turned upside down and hung
    on them in row 0, and a tower in column 3 up to row 1. The eighteenth
    piece, a bar, has just spawned over the gap left in row 0. *)
Definition topRowGame : list event :=
  upright [] 17 0 ++
  upright (replicate 3 (press ArrowLeft)) 13 0 ++
  upright (replicate 3 (press ArrowLeft)) 9 0 ++
  upright (replicate 3 (press ArrowLeft)) 5 3 ++
  (replicate 4 (press ArrowLeft) ++ ticks 3 0) ++
  upright (replicate 6 (press ArrowRight)) 17 0 ++
  upright (replicate 6 (press ArrowRight)) 13 0 ++
  upright (replicate 6 (press ArrowRight)) 9 0 ++
  upright (replicate 6 (press ArrowRight)) 5 3 ++
  (replicate 4 (press ArrowRight) ++ ticks 3 2) ++
  ([press ArrowUp; press ArrowUp] ++ replicate 4 (press ArrowLeft) ++ ticks 1 1) ++
  ([press ArrowUp; press ArrowUp] ++ replicate 3 (press ArrowRight) ++ ticks 1 0) ++
  upright [] 17 0 ++ upright [] 13 0 ++ upright [] 9 1 ++
  ([press ArrowUp] ++ replicate 2 (press ArrowLeft) ++ ticks 6 0) ++
  upright [] 2 0.

(** The board once that bar is merged where it spawned. *)
Definition topRowBoard : matrix_t :=
  [ nums [3; 3; 3; 1; 1; 1; 1; 2; 2; 2];
    nums [3; 0; 0; 1; 0; 0; 0; 0; 0; 2];
    nums [4; 4; 0; 1; 0; 0; 0; 0; 4; 4];
    nums [4; 4; 0; 1; 0; 0; 0; 0; 4; 4];
    nums [1; 0; 0; 1; 0; 0; 0; 0; 0; 1];
    nums [1; 0; 0; 2; 0; 0; 0; 0; 0; 1];
    nums [1; 0; 0; 2; 0; 0; 0; 0; 0; 1];
    nums [1; 0; 2; 2; 0; 0; 0; 0; 0; 1] ] ++
  replicate 12 (nums [1; 0; 0; 1; 0; 0; 0; 0; 0; 1]).

(** The number of columns of a shape. *)
Definition shapeWidth (m : matrix_t) : Z :=
  match m with
  | [] => 0
  | row0 :: _ => Z.of_nat (length row0)
  end.

(** The centred spawn column, [floor(width/2) - floor(shapeWidth/2)]. *)
Definition centredX (m : matrix_t) : Z := COLS / 2 - shapeWidth m / 2.

(** The cell of a matrix at row [i], column [j], if there is one. *)
Definition look (m : matrix_t) (i j : nat) : option cell :=
  row ← m !! i; row !! j.

(** The first piece of a game started with the draw 0, after nineteen
    timer ticks: the bar lies on the bottom row of the empty board. *)
Definition barOnFloor : world :=
  World emptyArena (Piece (Pos 0 19) [nums [1; 1; 1; 1]]) 0 false true.

(** A matrix a piece can carry: rectangular, with at least one row and one
    column, all cells numbers. *)
Definition wellShaped (m : matrix_t) : Prop :=
  ∃ w : nat, (0 < w)%nat ∧ m ≠ [] ∧ rectangular w m ∧ numeric m.

(** A matrix no larger than four by four, as the shapes and their rotations
    are. *)
Definition gamePiece (m : matrix_t) : Prop :=
  wellShaped m ∧ (length m ≤ 4)%nat ∧ shapeWidth m ≤ 4.

(** The second board has the rows of the first, each as long or longer. *)
Definition widened (a a' : matrix_t) : Prop :=
  Forall2 (λ row row' : list cell, (length row ≤ length row')%nat) a a'.

(** An event whose draw is one [Math.random] can give. *)
Definition drawn (e : event) : Prop :=
  match e with
  | Key _ rnd _ | Tick rnd _ => (rnd < 7)%nat
  end.

(** The model follows the program along the run: every callback returns or
    throws a [TypeError], which the program throws too; none is cut off by
    the step bound and none leaves the model. *)
Fixpoint followed (fuel : nat) (es : list event) (w : world) : Prop :=
  match es with
  | [] => True
  | e :: es' =>
      (snd (handle fuel e w) = inr tt ∨ snd (handle fuel e w) = inl TypeError)
      ∧ followed fuel es' (fst (handle fuel e w))
  end.

(** What a game keeps whatever is pressed: twenty rows, none of width
    zero, a piece no larger than four by four, and [started] set exactly
    while [gameOver] is not. *)
Definition gameShaped (w : world) : Prop :=
  length (arena w) = 20%nat ∧
  Forall (λ row : list cell, row ≠ []) (arena w) ∧
  gamePiece (matrix (player w)) ∧
  started w = negb (gameOver w).

(** An event other than the up key, with a draw [Math.random] can give. *)
Definition noTurn (e : event) : Prop :=
  match e with
  | Key ArrowUp _ _ => False
  | Key _ rnd _ | Tick rnd _ => (rnd < 7)%nat
  end.

(** A game in order: the board is twenty rows of ten cells, the piece is
    made of numbers and, while the game runs, collides with nothing. *)
Definition inOrder (w : world) : Prop :=
  length (arena w) = 20%nat ∧ rectangular 10 (arena w) ∧
  numeric (matrix (player w)) ∧
  (gameOver w = false → collide (arena w) (player w) = false).

(** The events that call [playerDrop]: the timer and the down key. *)
Definition drops (e : event) : Prop :=
  match e with
  | Tick _ _ | Key ArrowDown _ _ => True
  | _ => False
  end.

(** A bar turned upright on the top row, moved to the right wall and turned
    again, then one tick of the timer. *)
Definition wallTurn : list event :=
  press ArrowUp :: replicate 9 (press ArrowRight) ++
  [press ArrowUp; Tick 0 true].

(** The bar on the floor moved three columns right and turned upright. *)
Definition floorTurn : list event :=
  replicate 3 (press ArrowRight) ++ [press ArrowUp].

(** * Proofs *)

(** ** Array reads *)

Lemma idx_nat {A} (l : list A) (n : nat) : idx l (Z.of_nat n) = l !! n.
Proof.
  unfold idx. case_decide; [by rewrite Nat2Z.id | lia].
Qed.

Lemma idx_neg {A} (l : list A) (i : Z) : i < 0 → idx l i = None.
Proof. intros. unfold idx. case_decide; [lia | done]. Qed.

Lemma idx_ge {A} (l : list A) (i : Z) : Z.of_nat (length l) ≤ i → idx l i = None.
Proof.
  intros. unfold idx. case_decide; [|done].
  apply lookup_ge_None. lia.
Qed.

Lemma idx_Some {A} (l : list A) (i : Z) (a : A) :
  idx l i = Some a ↔ 0 ≤ i ∧ l !! Z.to_nat i = Some a.
Proof.
  unfold idx. case_decide; [tauto|].
  split; [done | intros [? _]; lia].
Qed.

Lemma idx_Some_lt {A} (l : list A) (i : Z) (a : A) :
  idx l i = Some a → 0 ≤ i < Z.of_nat (length l).
Proof.
  intros [? Hl%lookup_lt_Some]%idx_Some. lia.
Qed.

Lemma cellAt_row_outside arena r c :
  r < 0 ∨ Z.of_nat (length arena) ≤ r → cellAt arena r c = Undef.
Proof.
  intros [?|?]; unfold cellAt; [rewrite idx_neg | rewrite idx_ge]; done.
Qed.

Lemma cellAt_col_outside w arena r c :
  rectangular w arena → c < 0 ∨ Z.of_nat w ≤ c → cellAt arena r c = Undef.
Proof.
  intros Hrect Hc. unfold cellAt.
  destruct (idx arena r) as [row|] eqn:Hrow; [|done].
  apply idx_Some in Hrow as [_ Hrow].
  assert (length row = w) as Hlen.
  { eapply (Forall_lookup_1 _ _ _ _ Hrect Hrow). }
  destruct Hc; [rewrite idx_neg | rewrite idx_ge]; simpl; try done; lia.
Qed.

Lemma truthy_Num n : truthy (Num n) = true ↔ n ≠ 0.
Proof. simpl. rewrite negb_true_iff, Z.eqb_neq. done. Qed.

Lemma neq0_false v : neq0 v = false ↔ v = Num 0.
Proof.
  destruct v as [n|]; simpl; [|done].
  rewrite negb_false_iff, Z.eqb_eq. naive_solver.
Qed.

(** ** collide: which cells make it answer [true] *)

Lemma collide_row_true arena o y x0 row :
  collide_row arena o y x0 row = true ↔
  ∃ (i : nat) v, row !! i = Some v ∧ truthy v = true ∧
    neq0 (cellAt arena (y + pos_y o) (x0 + Z.of_nat i + pos_x o)) = true.
Proof.
  revert x0. induction row as [|v row IH]; intros x0; simpl.
  - split; [done | by intros (i & ? & ? & _)].
  - rewrite orb_true_iff, andb_true_iff, IH. split.
    + intros [[Ht Hn] | (i & v' & Hi & Ht & Hn)].
      * exists 0%nat, v. by rewrite Z.add_0_r.
      * exists (S i), v'. split; [done|]. split; [done|].
        by replace (x0 + Z.of_nat (S i)) with (x0 + 1 + Z.of_nat i) by lia.
    + intros ([|i] & v' & Hi & Ht & Hn); simpl in Hi.
      * left. simplify_eq. by rewrite Z.add_0_r in Hn.
      * right. exists i, v'. split; [done|]. split; [done|].
        by replace (x0 + 1 + Z.of_nat i) with (x0 + Z.of_nat (S i)) by lia.
Qed.

Lemma collide_rows_true arena o y0 m :
  collide_rows arena o y0 m = true ↔
  ∃ (j i : nat) row v, m !! j = Some row ∧ row !! i = Some v ∧
    truthy v = true ∧
    neq0 (cellAt arena (y0 + Z.of_nat j + pos_y o) (Z.of_nat i + pos_x o)) = true.
Proof.
  revert y0. induction m as [|row m IH]; intros y0; simpl.
  - split; [done | by intros (j & ? & ? & ? & ? & _)].
  - rewrite orb_true_iff, collide_row_true, IH. split.
    + intros [(i & v & Hi & Ht & Hn) | (j & i & row' & v & Hj & Hi & Ht & Hn)].
      * exists 0%nat, i, row, v. by rewrite Z.add_0_r.
      * exists (S j), i, row', v. repeat (split; [done|]).
        by replace (y0 + Z.of_nat (S j)) with (y0 + 1 + Z.of_nat j) by lia.
    + intros ([|j] & i & row' & v & Hj & Hi & Ht & Hn); simpl in Hj.
      * left. simplify_eq. exists i, v. by rewrite Z.add_0_r in Hn.
      * right. exists j, i, row', v. repeat (split; [done|]).
        by replace (y0 + 1 + Z.of_nat j) with (y0 + Z.of_nat (S j)) by lia.
Qed.

(** [collide] answers [true] exactly when some truthy shape cell lies over a
    board read that is not the number zero. *)
Lemma collide_true arena p :
  collide arena p = true ↔
  ∃ (y x : nat) v, shapeCell p y x v ∧ truthy v = true ∧
    neq0 (cellAt arena (boardRow p y) (boardCol p x)) = true.
Proof.
  unfold collide. rewrite collide_rows_true. unfold shapeCell, boardRow, boardCol.
  split.
  - intros (j & i & row & v & ? & ? & ? & ?). exists j, i, v. eauto.
  - intros (j & i & v & (row & ? & ?) & ? & ?). exists j, i, row, v. eauto.
Qed.

Lemma collide_false arena p :
  collide arena p = false ↔
  ∀ (y x : nat) v, shapeCell p y x v → truthy v = true →
    cellAt arena (boardRow p y) (boardCol p x) = Num 0.
Proof.
  rewrite <- not_true_iff_false, collide_true. split.
  - intros Hno y x v Hc Ht. apply neq0_false, not_true_iff_false.
    intros Hn. apply Hno. eauto 6.
  - intros Hall (y & x & v & Hc & Ht & Hn).
    rewrite (Hall y x v Hc Ht) in Hn. done.
Qed.

(** ** C1 and C9: shape cells that map outside the board *)

(** A non-zero shape cell over a board read of [undefined] collides. *)
Lemma collide_over_undefined arena p (y x : nat) (n : Z) :
  shapeCell p y x (Num n) → n ≠ 0 →
  cellAt arena (boardRow p y) (boardCol p x) = Undef →
  collide arena p = true.
Proof.
  intros Hc Hn Hu. apply collide_true.
  exists y, x, (Num n). rewrite Hu. by rewrite truthy_Num.
Qed.

(** C1, as the code has it, for every board, rectangular or not: there is
    no asymmetry between the top edge and the side edges. A non-zero shape
    cell that maps to a negative row makes [collide] answer [true], exactly
    as one does whose column is negative, or at or beyond the end of the
    board row it maps to. On a board of [w] columns these columns are the
    ones outside [0, w). *)
Theorem collide_off_top_or_off_side arena p (y x : nat) (n : Z) :
  shapeCell p y x (Num n) → n ≠ 0 →
  boardRow p y < 0 ∨ boardCol p x < 0 ∨
  (∀ row, idx arena (boardRow p y) = Some row →
     Z.of_nat (length row) ≤ boardCol p x) →
  collide arena p = true.
Proof.
  intros Hc Hn Hout. apply (collide_over_undefined arena p y x n Hc Hn).
  destruct Hout as [Hr | Hcol].
  - apply cellAt_row_outside. by left.
  - unfold cellAt.
    destruct (idx arena (boardRow p y)) as [row|] eqn:Hrow; [|done].
    destruct Hcol as [Hneg | Hwide].
    + by rewrite idx_neg.
    + rewrite idx_ge; [done|]. by apply Hwide.
Qed.

Lemma emptyArena_rectangular : rectangular 10 emptyArena.
Proof. unfold rectangular. by repeat constructor. Qed.

Lemma collide_off_top_or_off_side_witness :
  collide emptyArena (Piece (Pos 4 (-1)) [[Num 1]]) = true.
Proof.
  apply (collide_off_top_or_off_side emptyArena
           (Piece (Pos 4 (-1)) [[Num 1]]) 0 0 1).
  - exists [Num 1]. split; reflexivity.
  - lia.
  - left. unfold boardRow. simpl. lia.
Defined.

(** C1 as the specification words it fails: here the only non-zero shape
    cell maps to row [-1], column [4] of an empty 10-column board, so every
    non-zero cell is above the top and within the width, and [collide] still
    answers [true]. *)
Lemma collide_off_top_not_ignored :
  ¬ (∀ arena p,
       (∀ (y x : nat) n, shapeCell p y x (Num n) → n ≠ 0 →
          boardRow p y < 0 ∧ 0 ≤ boardCol p x < COLS) →
       collide arena p = false).
Proof.
  intros Hclaim.
  specialize (Hclaim emptyArena (Piece (Pos 4 (-1)) [[Num 1]])).
  assert (true = false) as Habs; [|discriminate Habs].
  transitivity (collide emptyArena (Piece (Pos 4 (-1)) [[Num 1]])); [done|].
  apply Hclaim. intros y x n (row & Hy & Hx) _.
  destruct y as [|y]; [|done]. simpl in Hy. simplify_eq.
  destruct x as [|x]; [|done].
  unfold boardRow, boardCol, COLS. simpl. lia.
Qed.

(** C9 as the specification words it fails on its contrast: off-top rows
    are not unlike off-bottom rows. The same one-cell piece in column 4 of
    the empty board collides one row above the top and one row below the
    bottom alike, and no board and piece exist where a non-zero cell above
    the top goes with an answer [false]. *)
Lemma collide_off_top_like_off_bottom :
  collide emptyArena (Piece (Pos 4 (-1)) [[Num 1]]) = true ∧
  collide emptyArena (Piece (Pos 4 20) [[Num 1]]) = true ∧
  ¬ ∃ arena p (y x : nat) n,
      shapeCell p y x (Num n) ∧ n ≠ 0 ∧ boardRow p y < 0 ∧
      collide arena p = false.
Proof.
  split; [done|]. split; [done|].
  intros (arena & p & y & x & n & Hc & Hn & Htop & Hfree).
  rewrite (collide_over_undefined arena p y x n Hc Hn) in Hfree; [done|].
  apply cellAt_row_outside. by left.
Qed.

(** C9, as the code has it: a non-zero shape cell that maps to a row at or
    below the board's height makes [collide] answer [true], which is what
    brings a piece to rest on the floor; and so does one that maps to a row
    above the top. *)
Theorem collide_below_bottom arena p (y x : nat) (n : Z) :
  shapeCell p y x (Num n) → n ≠ 0 →
  (Z.of_nat (length arena) ≤ boardRow p y → collide arena p = true) ∧
  (boardRow p y < 0 → collide arena p = true).
Proof.
  intros Hc Hn.
  split; intros Hout; apply (collide_over_undefined arena p y x n Hc Hn);
    apply cellAt_row_outside; [by right | by left].
Qed.

Lemma collide_below_bottom_witness :
  collide emptyArena (Piece (Pos 4 19) [nums [4; 4]; nums [4; 4]]) = true.
Proof.
  refine (proj1 (collide_below_bottom emptyArena
                   (Piece (Pos 4 19) [nums [4; 4]; nums [4; 4]]) 1 0 4 _ _) _).
  - exists (nums [4; 4]). split; reflexivity.
  - lia.
  - unfold boardRow. simpl. lia.
Defined.

(** ** merge: what it writes and what it leaves *)

Lemma inside_dims a a' r c : dims a' = dims a → inside a r c → inside a' r c.
Proof.
  unfold dims. intros Hd (row & [Hr Hrow]%idx_Some & Hc).
  assert ((length <$> a') !! Z.to_nat r = Some (length row)) as Hl.
  { rewrite Hd, list_lookup_fmap, Hrow. done. }
  rewrite list_lookup_fmap in Hl.
  apply fmap_Some in Hl as (row' & Hrow' & Hlen).
  exists row'. rewrite idx_Some. split; [done | lia].
Qed.

Lemma cellAt_insert a (n : nat) row (k : nat) v r c :
  a !! n = Some row → (k < length row)%nat →
  cellAt (<[n := <[k := v]> row]> a) r c =
  if decide (r = Z.of_nat n ∧ c = Z.of_nat k) then v else cellAt a r c.
Proof.
  intros Hn Hk. pose proof (lookup_lt_Some _ _ _ Hn) as Hlt.
  unfold cellAt.
  destruct (decide (0 ≤ r)) as [Hr|Hr];
    [|by rewrite !idx_neg, decide_False by lia].
  destruct (decide (0 ≤ c)) as [Hc|Hc].
  - rewrite <- (Z2Nat.id r Hr), <- (Z2Nat.id c Hc), !idx_nat.
    destruct (decide (Z.to_nat r = n)) as [->|Hne].
    + rewrite list_lookup_insert_eq, Hn by done. rewrite !idx_nat.
      destruct (decide (Z.to_nat c = k)) as [->|Hnek].
      * rewrite list_lookup_insert_eq by done. by rewrite decide_True.
      * rewrite list_lookup_insert_ne by done. by rewrite decide_False by lia.
    + rewrite list_lookup_insert_ne by done. by rewrite decide_False by lia.
  - rewrite decide_False by lia.
    destruct (idx (<[n:=<[k:=v]> row]> a) r), (idx a r);
      by rewrite ?idx_neg by lia.
Qed.

(** An in-board assignment succeeds, keeps the dimensions and changes the
    one cell. *)
Lemma assign_inside a r c v :
  inside a r c →
  ∃ a', assign r c v a = (a', inr tt) ∧ dims a' = dims a ∧
    ∀ r' c', cellAt a' r' c' =
      if decide (r' = r ∧ c' = c) then v else cellAt a r' c'.
Proof.
  intros (row & Hrow & Hc). unfold assign. rewrite Hrow.
  rewrite decide_False by lia.
  apply idx_Some in Hrow as [Hr Hrow].
  unfold writeAt. rewrite decide_True by lia.
  eexists. split; [done|]. split.
  - unfold dims. rewrite list_fmap_insert, length_insert.
    apply list_insert_id. by rewrite list_lookup_fmap, Hrow.
  - intros r' c'. rewrite cellAt_insert by (done || lia).
    repeat case_decide; (done || lia).
Qed.

Lemma merge_row_inside o y x0 row a :
  (∀ (i : nat) v, row !! i = Some v → neq0 v = true →
     inside a (y + pos_y o) (x0 + Z.of_nat i + pos_x o)) →
  ∃ a', merge_row o y x0 row a = (a', inr tt) ∧ dims a' = dims a ∧
    (∀ (i : nat) v, row !! i = Some v → neq0 v = true →
       cellAt a' (y + pos_y o) (x0 + Z.of_nat i + pos_x o) = v) ∧
    (∀ r c,
       (∀ (i : nat) v, row !! i = Some v → neq0 v = true →
          ¬ (r = y + pos_y o ∧ c = x0 + Z.of_nat i + pos_x o)) →
       cellAt a' r c = cellAt a r c).
Proof.
  revert x0 a. induction row as [|v row IH]; intros x0 a Hin.
  - exists a. by repeat split.
  - assert (∃ a1, when (neq0 v) (assign (y + pos_y o) (x0 + pos_x o) v) a
                    = (a1, inr tt) ∧ dims a1 = dims a ∧
              ∀ r' c', cellAt a1 r' c' =
                if decide (neq0 v = true ∧ r' = y + pos_y o ∧ c' = x0 + pos_x o)
                then v else cellAt a r' c') as (a1 & Hrun1 & Hd1 & Hc1).
    { destruct (neq0 v) eqn:Hv; simpl.
      - destruct (assign_inside a (y + pos_y o) (x0 + pos_x o) v)
          as (a1 & ? & ? & Hc1).
        { specialize (Hin 0%nat v eq_refl Hv). by rewrite Z.add_0_r in Hin. }
        exists a1. repeat (split; [done|]). intros r' c'. rewrite Hc1.
        repeat case_decide; (done || tauto).
      - exists a. repeat (split; [done|]). intros r' c'.
        repeat case_decide; (done || naive_solver). }
    destruct (IH (x0 + 1) a1) as (a' & Hrun & Hd & Hset & Hframe).
    { intros i v' Hi Hv'. apply (inside_dims a); [done|].
      specialize (Hin (S i) v' Hi Hv').
      by replace (x0 + 1 + Z.of_nat i) with (x0 + Z.of_nat (S i)) by lia. }
    exists a'. split; [|split; [congruence|split]].
    + simpl. unfold mbind, js_bind. by rewrite Hrun1.
    + intros [|i] v' Hi Hv'; simpl in Hi.
      * simplify_eq. rewrite Z.add_0_r, Hframe, Hc1.
        -- by rewrite decide_True.
        -- intros i w _ _ [_ ?]. lia.
      * replace (x0 + Z.of_nat (S i)) with (x0 + 1 + Z.of_nat i) by lia.
        by apply Hset.
    + intros r c Hfree. rewrite Hframe, Hc1.
      * rewrite decide_False; [done|]. intros (Hv & -> & ->).
        apply (Hfree 0%nat v eq_refl Hv). split; [done | lia].
      * intros i v' Hi Hv' [-> ->]. apply (Hfree (S i) v' Hi Hv').
        split; [done | lia].
Qed.

Lemma merge_rows_inside o y0 m a :
  (∀ (j i : nat) row v, m !! j = Some row → row !! i = Some v →
     neq0 v = true →
     inside a (y0 + Z.of_nat j + pos_y o) (Z.of_nat i + pos_x o)) →
  ∃ a', merge_rows o y0 m a = (a', inr tt) ∧ dims a' = dims a ∧
    (∀ (j i : nat) row v, m !! j = Some row → row !! i = Some v →
       neq0 v = true →
       cellAt a' (y0 + Z.of_nat j + pos_y o) (Z.of_nat i + pos_x o) = v) ∧
    (∀ r c,
       (∀ (j i : nat) row v, m !! j = Some row → row !! i = Some v →
          neq0 v = true →
          ¬ (r = y0 + Z.of_nat j + pos_y o ∧ c = Z.of_nat i + pos_x o)) →
       cellAt a' r c = cellAt a r c).
Proof.
  revert y0 a. induction m as [|row m IH]; intros y0 a Hin.
  - exists a. by repeat split.
  - destruct (merge_row_inside o y0 0 row a)
      as (a1 & Hrun1 & Hd1 & Hset1 & Hframe1).
    { intros i v Hi Hv. specialize (Hin 0%nat i row v eq_refl Hi Hv).
      by rewrite Z.add_0_r in Hin. }
    destruct (IH (y0 + 1) a1) as (a' & Hrun & Hd & Hset & Hframe).
    { intros j i row' v Hj Hi Hv. apply (inside_dims a); [done|].
      specialize (Hin (S j) i row' v Hj Hi Hv).
      by replace (y0 + 1 + Z.of_nat j) with (y0 + Z.of_nat (S j)) by lia. }
    exists a'. split; [|split; [congruence|split]].
    + simpl. unfold mbind, js_bind. by rewrite Hrun1.
    + intros [|j] i row' v Hj Hi Hv; simpl in Hj.
      * simplify_eq. rewrite Z.add_0_r, Hframe.
        -- by apply (Hset1 i v).
        -- intros j i' rw w _ _ _ [? _]. lia.
      * replace (y0 + Z.of_nat (S j)) with (y0 + 1 + Z.of_nat j) by lia.
        by apply (Hset j i row').
    + intros r c Hfree. rewrite Hframe, Hframe1; [done| |].
      * intros i v Hi Hv [-> ->]. apply (Hfree 0%nat i row v eq_refl Hi Hv).
        split; lia.
      * intros j i row' v Hj Hi Hv [-> ->].
        apply (Hfree (S j) i row' v Hj Hi Hv). split; lia.
Qed.

(** The two loops together, in the coordinates of the piece. *)
Lemma merge_inside a p :
  (∀ (y x : nat) v, shapeCell p y x v → neq0 v = true →
     inside a (boardRow p y) (boardCol p x)) →
  ∃ a', merge p a = (a', inr tt) ∧
    dims a' = dims a ∧
    (∀ (y x : nat) v, shapeCell p y x v → neq0 v = true →
       cellAt a' (boardRow p y) (boardCol p x) = v) ∧
    (∀ r c,
       (∀ (y x : nat) v, shapeCell p y x v → neq0 v = true →
          ¬ (r = boardRow p y ∧ c = boardCol p x)) →
       cellAt a' r c = cellAt a r c).
Proof.
  intros Hin. unfold merge.
  destruct (merge_rows_inside (pos p) 0 (matrix p) a)
    as (a' & Hrun & Hd & Hset & Hframe).
  { intros j i row v Hj Hi Hv. apply (Hin j i v); [by exists row | done]. }
  exists a'. repeat (split; [done|]). split.
  - intros y x v (row & Hy & Hx) Hv. by apply (Hset y x row v).
  - intros r c Hfree. apply Hframe. intros j i row v Hj Hi Hv.
    apply (Hfree j i v); [by exists row | done].
Qed.

(** C10: when every shape cell that [merge] writes (those with
    [val !== 0]) maps inside the board, [merge] completes, the board keeps
    its height and row widths, each such cell's board position holds that
    cell's value afterwards, and every other board cell reads as before. *)
Theorem merge_frame a p :
  (∀ (y x : nat) v, shapeCell p y x v → neq0 v = true →
     inside a (boardRow p y) (boardCol p x)) →
  ∃ a', merge p a = (a', inr tt) ∧
    dims a' = dims a ∧
    (∀ (y x : nat) v, shapeCell p y x v → neq0 v = true →
       cellAt a' (boardRow p y) (boardCol p x) = v) ∧
    (∀ r c,
       (∀ (y x : nat) v, shapeCell p y x v → neq0 v = true →
          ¬ (r = boardRow p y ∧ c = boardCol p x)) →
       cellAt a' r c = cellAt a r c).
Proof.
  intros Hin. unfold merge.
  destruct (merge_rows_inside (pos p) 0 (matrix p) a)
    as (a' & Hrun & Hd & Hset & Hframe).
  { intros j i row v Hj Hi Hv. apply (Hin j i v); [by exists row | done]. }
  exists a'. repeat (split; [done|]). split.
  - intros y x v (row & Hy & Hx) Hv. by apply (Hset y x row v).
  - intros r c Hfree. apply Hframe. intros j i row v Hj Hi Hv.
    apply (Hfree j i v); [by exists row | done].
Qed.

(** ** sweep: the cascade of the specification and the score of a pass *)

Lemma cascade_sum_from k : ∀ j : nat,
  foldr Z.add 0 ((λ i : nat, 15 * 2 ^ Z.of_nat i) <$> seq j k) =
  15 * 2 ^ Z.of_nat j * (2 ^ Z.of_nat k - 1).
Proof.
  induction k as [|k IH]; intros j; simpl foldr; [simpl; lia|].
  rewrite IH. rewrite !Nat2Z.inj_succ, !Z.pow_succ_r by lia. lia.
Qed.

Lemma cascadeTotal_closed k : cascadeTotal k = 15 * (2 ^ Z.of_nat k - 1).
Proof. unfold cascadeTotal, cascade. rewrite cascade_sum_from. simpl. lia. Qed.

Lemma length_callsFrom rc k : length (callsFrom rc k) = k.
Proof. revert rc. induction k; intros; simpl; congruence. Qed.

Lemma run_at_render final (calls : list Z) : ∀ s,
  foldl (λ s _, updater final s) s calls =
  s + Z.of_nat (length calls) * (final * 15).
Proof.
  induction calls as [|c calls IH]; intros s; simpl foldl; [simpl; lia|].
  rewrite IH. unfold updater. simpl length. lia.
Qed.

(** The score after the updaters of a pass that cleared [k] rows. *)
Lemma runQueue_pass idle k s :
  runQueue idle (callsFrom 1 k) (2 ^ Z.of_nat k) s = s + passScore idle k.
Proof.
  destruct k as [|k]; [simpl; lia|].
  unfold runQueue, passScore. simpl callsFrom. cbv iota.
  rewrite run_at_render, length_callsFrom. unfold updater.
  destruct idle; lia.
Qed.

(** From two rows on, a pass adds more than the cascade of the
    specification. *)
Lemma passScore_above_cascade idle k :
  (2 ≤ k)%nat → cascadeTotal k < passScore idle k.
Proof.
  intros Hk. rewrite cascadeTotal_closed.
  destruct k as [|k]; [lia|]. unfold passScore.
  assert (0 < 2 ^ Z.of_nat (S k)) by (apply Z.pow_pos_nonneg; lia).
  assert (1 ≤ Z.of_nat k) by lia.
  destruct idle; nia.
Qed.

(** ** sweep: the loop over the pending rows *)

Lemma isFull_zeroed row : row ≠ [] → isFull (zeroed row) = false.
Proof. by destruct row. Qed.

Lemma idx_middle {A} (l1 l2 : list A) x :
  idx (l1 ++ x :: l2) (Z.of_nat (length l1)) = Some x.
Proof. rewrite idx_nat. by apply list_lookup_middle. Qed.

Lemma sweep_loop_S fuel a y rc :
  sweep_loop (S fuel) a y rc =
  if decide (y > 0) then
    match idx a y with
    | None => inl TypeError
    | Some row =>
        if isFull row then
          match sweep_loop fuel (clearRow a (Z.to_nat y) row)
                  (y + 1 - 1) (rc * 2) with
          | inl e => inl e
          | inr (a', calls, final) => inr (a', rc :: calls, final)
          end
        else sweep_loop fuel a (y - 1) rc
    end
  else inr (a, [], rc).
Proof. reflexivity. Qed.

(** Rows that are not full are walked over without a change. *)
Lemma sweep_loop_walk zs k rc fuel :
  Forall (λ row, isFull row = false) zs →
  (length zs + 1 ≤ fuel)%nat →
  sweep_loop fuel (zs ++ k) (Z.of_nat (length zs) - 1) rc =
  inr (zs ++ k, [], rc).
Proof.
  revert k fuel. induction zs as [|z zs IH] using rev_ind; intros k fuel Hz Hf.
  - destruct fuel; [simpl in Hf; lia|].
    rewrite sweep_loop_S. by rewrite decide_False by (simpl; lia).
  - rewrite Forall_app, Forall_singleton in Hz. destruct Hz as [Hzs Hz].
    rewrite length_app in *. simpl in Hf.
    destruct fuel as [|fuel]; [lia|]. rewrite sweep_loop_S.
    destruct (decide (zs = [])) as [->|Hnil].
    + by rewrite decide_False by (simpl; lia).
    + assert (length zs ≠ 0)%nat by (by destruct zs).
      rewrite decide_True by (simpl; lia). rewrite <- app_assoc. simpl app.
      replace (Z.of_nat (length zs + length [z]) - 1)
        with (Z.of_nat (length zs)) by (simpl; lia).
      rewrite idx_middle, Hz.
      apply IH; [done | lia].
Qed.

(** The loop at index [length (zs ++ u) - 1], where [zs] are zero rows
    already put on top, [u] are the rows not yet tested and [k] are the rows
    below, already passed. *)
Lemma sweep_loop_pending u : ∀ zs k rc fuel,
  Forall (λ row, row ≠ []) u →
  Forall (λ row, isFull row = false) zs →
  (length zs + 2 * length u + 1 ≤ fuel)%nat →
  sweep_loop fuel (zs ++ u ++ k) (Z.of_nat (length zs + length u) - 1) rc =
  inr (if skipTop zs u then zs ++ u ++ k
       else (zeroed <$> List.filter isFull u) ++ zs ++
            List.filter (λ row, negb (isFull row)) u ++ k,
       callsFrom rc (if skipTop zs u then 0 else length (List.filter isFull u)),
       rc * 2 ^ Z.of_nat
                  (if skipTop zs u then 0 else length (List.filter isFull u))).
Proof.
  induction u as [|r u IH] using rev_ind; intros zs k rc fuel Hne Hz Hf.
  - replace (skipTop zs []) with false by (by destruct zs).
    simpl. rewrite Nat.add_0_r, Z.mul_1_r.
    apply sweep_loop_walk; [done | simpl in Hf; lia].
  - rewrite Forall_app, Forall_singleton in Hne. destruct Hne as [Hne Hr].
    rewrite length_app in Hf. simpl in Hf.
    destruct fuel as [|fuel]; [lia|].
    rewrite !List.filter_app, fmap_app, !length_app. simpl List.filter.
    rewrite sweep_loop_S.
    destruct (decide (zs ++ u = [])) as [Hnil|Hnil].
    + (* the loop is at row 0: it stops *)
      apply app_eq_nil in Hnil as [-> ->].
      rewrite decide_False by (simpl; lia). simpl.
      rewrite andb_true_r.
      destruct (isFull r); simpl; by rewrite Z.mul_1_r.
    + assert (length (zs ++ u) ≠ 0)%nat as Hlen by (by destruct (zs ++ u)).
      rewrite length_app in Hlen.
      assert (zs ++ (u ++ [r]) ++ k = (zs ++ u) ++ r :: k) as Ha
        by (by rewrite <- !app_assoc).
      rewrite decide_True by (simpl; lia). rewrite Ha.
      replace (Z.of_nat (length zs + (length u + length [r])) - 1)
        with (Z.of_nat (length (zs ++ u))) by (rewrite length_app; simpl; lia).
      rewrite idx_middle.
      assert (skipTop zs (u ++ [r]) = skipTop zs u && negb (isFull r)) as Hskip.
      { destruct zs as [|z zs]; [|done]. simpl.
        destruct u as [|u0 u]; [done|]. simpl.
        rewrite forallb_app. simpl. by rewrite andb_true_r, andb_assoc. }
      rewrite Hskip.
      destruct (isFull r) eqn:Hfull.
      * (* a full row: cleared, the same index is tested again *)
        unfold clearRow. rewrite Nat2Z.id, delete_middle.
        rewrite andb_false_r.
        specialize (IH (zeroed r :: zs) k (rc * 2) fuel Hne).
        simpl length in IH.
        replace (Z.of_nat (length (zs ++ u)) + 1 - 1)
          with (Z.of_nat (S (length zs) + length u) - 1)
          by (rewrite length_app; lia).
        rewrite <- app_assoc.
        change (zeroed r :: zs ++ u ++ k) with ((zeroed r :: zs) ++ u ++ k).
        rewrite IH.
        -- simpl skipTop. cbv iota. simpl length. rewrite Nat.add_1_r.
           simpl callsFrom. f_equal. f_equal; [f_equal|].
           ++ by rewrite <- !app_assoc.
           ++ rewrite Nat2Z.inj_succ, Z.pow_succ_r by lia. lia.
        -- constructor; [by apply isFull_zeroed | done].
        -- lia.
      * (* not full: one row up *)
        rewrite andb_true_r.
        specialize (IH zs (r :: k) rc fuel Hne Hz).
        replace (Z.of_nat (length (zs ++ u)) - 1)
          with (Z.of_nat (length zs + length u) - 1)
          by (rewrite length_app; lia).
        rewrite <- app_assoc. rewrite IH by lia.
        destruct (skipTop zs u).
        -- done.
        -- simpl. rewrite Nat.add_0_r, app_nil_r. by rewrite <- !app_assoc.
Qed.

(** One pass over a board without empty rows: the cleared rows come back
    zeroed on top, in their order, above the kept rows, in their order;
    [setScore] is called once per cleared row, with [rowCount] at 1, 2, 4
    and so on, and [rowCount] ends at [2^k]. *)
Lemma sweepRows_spec a fuel :
  Forall (λ row, row ≠ []) a →
  (2 * length a + 1 ≤ fuel)%nat →
  sweepRows fuel a =
  inr ((zeroed <$> clearedRows a) ++ keptRows a,
       callsFrom 1 (length (clearedRows a)),
       2 ^ Z.of_nat (length (clearedRows a))).
Proof.
  intros Hne Hf. unfold sweepRows.
  pose proof (sweep_loop_pending a [] [] 1 fuel Hne (Forall_nil_2 _)) as H.
  simpl in H. rewrite app_nil_r in H. rewrite H by lia.
  unfold clearedRows, keptRows.
  destruct (topOnly a); simpl; rewrite ?app_nil_r; repeat f_equal; lia.
Qed.

Lemma sweep_spec idle w fuel :
  Forall (λ row, row ≠ []) (arena w) →
  (2 * length (arena w) + 1 ≤ fuel)%nat →
  sweep idle fuel w =
  (World ((zeroed <$> clearedRows (arena w)) ++ keptRows (arena w))
     (player w)
     (score w + passScore idle (length (clearedRows (arena w))))
     (gameOver w) (started w), inr tt).
Proof.
  intros Hne Hf. unfold sweep. rewrite sweepRows_spec by done.
  unfold setScore, set_arena. simpl. by rewrite runQueue_pass.
Qed.

(** The cleared rows are full rows of the board and the kept rows are the
    others: nothing is lost and the order within each group is the
    board's. *)
Lemma cleared_kept_partition a :
  Forall (λ row, isFull row = true) (clearedRows a) ∧
  (topOnly a = false →
     clearedRows a = List.filter isFull a ∧
     keptRows a = List.filter (λ row, negb (isFull row)) a).
Proof.
  unfold clearedRows, keptRows. destruct (topOnly a); split; try done.
  apply Forall_forall. intros row Hin%list_elem_of_In.
  by apply List.filter_In in Hin as [_ ?].
Qed.

(** Rows 2 and 5 full, the others partly filled: both are cleared, two zero
    rows come on top, the other rows keep their order, and [setScore] is
    called twice. *)
Lemma sweep_rows_2_and_5 :
  sweepRows 17
    [nums [0; 1]; nums [2; 0]; nums [3; 3]; nums [0; 4];
     nums [5; 0]; nums [6; 6]; nums [0; 7]; nums [1; 0]] =
  inr ([nums [0; 0]; nums [0; 0]; nums [0; 1]; nums [2; 0]; nums [0; 4];
        nums [5; 0]; nums [0; 7]; nums [1; 0]], [1; 2], 4).
Proof. reflexivity. Qed.

(** A row of width zero is vacuously full, and so is the row that replaces
    it: on such a board the loop never ends. *)
Lemma sweep_loop_empty_rows fuel : ∀ rc,
  sweep_loop fuel [[]; []] 1 rc = inl OutOfFuel.
Proof.
  induction fuel as [|fuel IH]; intros rc; [done|].
  rewrite sweep_loop_S. simpl. by rewrite IH.
Qed.

(** C3 on a board that a game reaches: the fifth square of [twoRowGame]
    completes rows 18 and 19. The pass clears both and calls [setScore] with
    [rowCount] at 1 and at 2, and [rowCount] ends at 4. The cascade of the
    specification for two rows is [15 + 30 = 45]; the score after the tick
    is 75 when React ran the first updater at its call and 120 when it ran
    both at the render. A pass over three full rows adds 255 or 360, where
    the specification has 105. *)
Theorem sweep_score_not_cascade :
  (cascadeTotal 3 = 105 ∧
   ∀ idle,
     score (fst (sweep idle 9
                   (World [nums [0; 1]; nums [1; 1]; nums [2; 2]; nums [3; 3]]
                      (Piece (Pos 0 0) []) 0 false true)))
     = if idle then 255 else 360) ∧
  ∃ w0 w locked,
    startGame 3 = inr w0 ∧
    play 41 twoRowGame w0 = w ∧
    gameOver w = false ∧ score w = 0 ∧
    merge (player w) (arena w) = (locked, inr tt) ∧
    clearedRows locked = [nums [4; 4; 4; 4; 4; 4; 4; 4; 4; 4];
                          nums [4; 4; 4; 4; 4; 4; 4; 4; 4; 4]] ∧
    sweepRows 41 locked = inr (emptyArena, [1; 2], 4) ∧
    cascade 2 = [15; 30] ∧ cascadeTotal 2 = 45 ∧
    ∀ idle, ∃ w',
      playerDrop 41 0 idle w = (w', inr tt) ∧
      arena w' = emptyArena ∧
      score w' = (if idle then 75 else 120) ∧
      score w' ≠ cascadeTotal 2.
Proof.
  split; [split; [done | by intros []]|].
  eexists _, _, _. split; [reflexivity|]. split; [reflexivity|].
  split; [by vm_compute|]. split; [by vm_compute|].
  split; [by vm_compute|]. split; [by vm_compute|].
  split; [by vm_compute|]. split; [done|]. split; [done|].
  intros idle. destruct idle; eexists; (split; [by vm_compute|]);
    by vm_compute.
Qed.

(** C4 on a board that a game reaches: after [topRowGame] the bar cannot go
    down, and the next tick merges it in row 0, which it completes. The sweep
    of that tick, run on the merged board, clears nothing and issues no
    award: row 0 stays full, the score stays 0 and the next spawn ends the
    game. *)
Theorem sweep_leaves_full_top_row :
  (∃ w0 w, startGame 0 = inr w0 ∧
     play 41 topRowGame w0 = w ∧
     gameOver w = false ∧
     merge (player w) (arena w) = (topRowBoard, inr tt) ∧
     ∃ w', playerDrop 41 0 true w = (w', inr tt) ∧
       arena w' = topRowBoard ∧ score w' = 0 ∧ gameOver w' = true) ∧
  (∃ row0, topRowBoard !! 0%nat = Some row0 ∧ isFull row0 = true) ∧
  (∀ extra : nat,
     sweepRows (41 + extra) topRowBoard = inr (topRowBoard, [], 1)).
Proof.
  split.
  { eexists _, _. split; [reflexivity|]. split; [reflexivity|].
    split; [by vm_compute|]. split; [by vm_compute|].
    eexists. split; [by vm_compute|]. by vm_compute. }
  split; [by eexists|].
  intros extra. rewrite sweepRows_spec; [done | | simpl; lia].
  unfold topRowBoard. repeat constructor; discriminate.
Qed.

(** ** Spawning *)

Lemma shapes_selectable rnd m :
  shapes !! S rnd = Some m → ∃ row0 rest, m = row0 :: rest.
Proof.
  intros H. destruct rnd as [|[|[|[|[|[|[|?]]]]]]]; cbv in H; simplify_eq; eauto.
Qed.

(** Unfold the state operations of a command and run it on its state. *)
Ltac js_run :=
  unfold mbind, js_bind, mret, js_ret, gets, modify, throw, when, liftE,
    resetGame;
  cbn -[collide COLS Z.div Z.add Z.sub merge sweep sweepRows].

(** [playerReset] picks the shape, centres it on row 0 and raises
    [gameOver] when it collides there. *)
Lemma playerReset_spec w rnd m :
  shapes !! S rnd = Some m →
  playerReset rnd w =
  (let fresh := Piece (Pos (centredX m) 0) m in
   World (arena w) fresh (score w)
     (if collide (arena w) fresh then true else gameOver w)
     (if collide (arena w) fresh then false else started w), inr tt).
Proof.
  intros Hm. destruct (shapes_selectable rnd m Hm) as (row0 & rest & ->).
  unfold playerReset, pickShape. rewrite Hm. js_run.
  unfold centredX, shapeWidth.
  by destruct (collide _ _).
Qed.

(** C5 at the start of a game: whichever of the seven shapes is drawn, the
    first piece sits at column 0, which is not the centred column of its
    shape; [playerReset] with the same draw does centre it. *)
Theorem first_piece_not_centred :
  Forall (λ rnd : nat,
    ∃ w, startGame rnd = inr w ∧
      pos (player w) = Pos 0 0 ∧
      centredX (matrix (player w)) ≠ 0 ∧
      pos (player (fst (playerReset rnd w))) =
        Pos (centredX (matrix (player w))) 0)
    (seq 0 7).
Proof.
  repeat (apply Forall_cons; split;
    [eexists; split; [reflexivity|]; split; [reflexivity|];
     split; [by vm_compute | reflexivity] |]).
  apply Forall_nil_2.
Qed.

(** ** C6: one gravity tick or soft drop *)

Lemma cellAt_Num_inside a r c n : cellAt a r c = Num n → inside a r c.
Proof.
  unfold cellAt, inside. intros H.
  destruct (idx a r) as [row|]; [|done].
  destruct (idx row c) as [v|] eqn:Hc; [|done].
  exists row. split; [done|]. by apply idx_Some_lt in Hc.
Qed.

Lemma numeric_shapeCell p y x v :
  numeric (matrix p) → shapeCell p y x v → v ≠ Undef.
Proof.
  intros Hnum (row & Hy & Hx).
  pose proof (Forall_lookup_1 _ _ _ _ Hnum Hy) as Hrow.
  apply (Forall_lookup_1 _ _ _ _ Hrow Hx).
Qed.

(** A piece of numbers that does not collide lies, with every cell [merge]
    writes, on the board. *)
Lemma valid_piece_inside a p :
  collide a p = false → numeric (matrix p) →
  ∀ (y x : nat) v, shapeCell p y x v → neq0 v = true →
    inside a (boardRow p y) (boardCol p x).
Proof.
  intros Hfree Hnum y x v Hc Hv.
  assert (truthy v = true) as Ht.
  { destruct v; [done|]. by apply numeric_shapeCell in Hc. }
  eapply cellAt_Num_inside. by eapply collide_false.
Qed.

Lemma dims_nonempty a a' :
  dims a' = dims a →
  Forall (λ row, row ≠ []) a → Forall (λ row : list cell, row ≠ []) a'.
Proof.
  unfold dims. intros Hd Hne.
  apply Forall_lookup. intros i row Hi.
  assert ((length <$> a) !! i = Some (length row)) as H
    by (by rewrite <- Hd, list_lookup_fmap, Hi).
  rewrite list_lookup_fmap in H.
  apply fmap_Some in H as (row0 & Hrow0 & Hlen).
  pose proof (Forall_lookup_1 _ _ _ _ Hne Hrow0).
  by destruct row, row0.
Qed.

Lemma dims_length a a' : dims a' = dims a → length a' = length a.
Proof.
  unfold dims. intros Hd. by rewrite <- (length_fmap length a'), Hd, length_fmap.
Qed.

(** While the game runs, with the piece at a position that does not
    collide, [playerDrop] moves the piece one row down when that position is
    free. Otherwise it merges the piece at the position it had, sweeps, which
    adds the score of the pass, and spawns the drawn shape, centred on row 0;
    [gameOver] is raised exactly when that fresh piece collides. The timer
    and the down key both come here. *)
Lemma playerDrop_spec w fuel rnd idle m :
  gameOver w = false →
  collide (arena w) (player w) = false →
  numeric (matrix (player w)) →
  Forall (λ row, row ≠ []) (arena w) →
  (2 * length (arena w) + 1 ≤ fuel)%nat →
  shapes !! S rnd = Some m →
  handle fuel (Tick rnd idle) w = playerDrop fuel rnd idle w ∧
  handle fuel (Key ArrowDown rnd idle) w = playerDrop fuel rnd idle w ∧
  let moved := Piece (Pos (cur_x w) (cur_y w + 1)) (matrix (player w)) in
  if collide (arena w) moved then
    ∃ locked w1,
      merge (player w) (arena w) = (locked, inr tt) ∧
      sweep idle fuel (set_arena locked w) = (w1, inr tt) ∧
      let swept := (zeroed <$> clearedRows locked) ++ keptRows locked in
      let fresh := Piece (Pos (centredX m) 0) m in
      arena w1 = swept ∧
      score w1 = score w + passScore idle (length (clearedRows locked)) ∧
      playerDrop fuel rnd idle w =
      (World swept fresh (score w1)
         (collide swept fresh)
         (if collide swept fresh then false else started w), inr tt)
  else playerDrop fuel rnd idle w = (set_player moved w, inr tt).
Proof.
  intros Hrun Hfree Hnum Hne Hfuel Hm.
  split; [done|].
  split; [unfold handle, keyListener; js_run; by rewrite Hrun|].
  intros moved.
  destruct w as [a [[x y] mat] s g st]. simpl in *. subst g.
  unfold playerDrop. js_run. unfold cur_x, cur_y in *. simpl in *.
  fold moved.
  destruct (collide a moved) eqn:Hhit.
  - destruct (merge_inside a (Piece (Pos x y) mat)) as (locked & Hmerge & Hd & _).
    { by apply valid_piece_inside. }
    pose proof (sweep_spec idle (set_arena locked (World a (Piece (Pos x y) mat)
                                                   s false st)) fuel) as Hsweep.
    simpl in Hsweep. rewrite (dims_length a) in Hsweep by done.
    specialize (Hsweep (dims_nonempty a locked Hd Hne) ltac:(lia)).
    eexists locked, _. split; [done|]. split; [exact Hsweep|].
    split; [done|]. split; [done|]. js_run.
    replace (y + 1 - 1) with y by lia.
    unfold onArena. simpl. rewrite Hmerge. simpl.
    unfold set_arena, set_y, set_player in *. simpl in *.
    rewrite Hsweep. simpl.
    rewrite playerReset_spec with (m := m) by done. simpl.
    by destruct (collide (_ ++ _) _).
  - done.
Qed.

(** C6 at the tick that locks the fifth square of [twoRowGame]: the square
    cannot go down, so it is merged where it is, the pass clears rows 18 and
    19, and the drawn bar spawns centred on row 0 with the game still
    running, all as the specification has it. The score the tick adds is 75
    or 120, not the cascade score of two rows, 45. *)
Theorem playerDrop_adds_other_score :
  ∃ w0 w locked,
    startGame 3 = inr w0 ∧
    play 41 twoRowGame w0 = w ∧
    gameOver w = false ∧ score w = 0 ∧
    collide (arena w) (player w) = false ∧
    collide (arena w)
      (Piece (Pos (cur_x w) (cur_y w + 1)) (matrix (player w))) = true ∧
    merge (player w) (arena w) = (locked, inr tt) ∧
    length (clearedRows locked) = 2%nat ∧
    ∀ idle, ∃ w',
      handle 41 (Tick 0 idle) w = (w', inr tt) ∧
      arena w' = (zeroed <$> clearedRows locked) ++ keptRows locked ∧
      player w' = Piece (Pos 3 0) [nums [1; 1; 1; 1]] ∧
      gameOver w' = false ∧
      score w' = (if idle then 75 else 120) ∧
      score w' ≠ score w + cascadeTotal (length (clearedRows locked)).
Proof.
  eexists _, _, _. split; [reflexivity|]. split; [reflexivity|].
  do 6 (split; [by vm_compute|]).
  intros idle. destruct idle; eexists; (split; [by vm_compute|]);
    by vm_compute.
Qed.

(** ** C2: a rotation that no kick resolves *)

(** C2 at the bar lying on the floor, a state the game reaches by itself: no
    offset of the search frees the upright bar, and [playerRotate] returns
    with the rotated shape, one column left of where the piece was, in
    collision. Nothing is restored. *)
Theorem playerRotate_leaves_collision :
  (∃ w0, startGame 0 = inr w0 ∧
     play 41 (replicate 19 (Tick 0 true)) w0 = barOnFloor) ∧
  collide (arena barOnFloor) (player barOnFloor) = false ∧
  ∃ w', playerRotate 41 barOnFloor = (w', inr Abandoned) ∧
    player w' = Piece (Pos (-1) 19) [[Num 1]; [Num 1]; [Num 1]; [Num 1]] ∧
    player w' ≠ player barOnFloor ∧
    collide (arena w') (player w') = true.
Proof.
  split; [eexists; split; [reflexivity | by vm_compute]|].
  split; [by vm_compute|].
  eexists. split; [by vm_compute|]. simpl.
  split; [done|]. split; [done | by vm_compute].
Qed.

(** ** C7: rotate *)

Lemma look_rectangular m w i j :
  rectangular w m → (i < length m)%nat → (j < w)%nat →
  ∃ v, look m i j = Some v.
Proof.
  intros Hrect Hi Hj. unfold look.
  destruct (lookup_lt_is_Some_2 m i Hi) as [row Hrow]. rewrite Hrow. simpl.
  pose proof (Forall_lookup_1 _ _ _ _ Hrect Hrow) as Hlen. simpl in Hlen.
  apply lookup_lt_is_Some_2. lia.
Qed.

(** Two matrices of the same dimensions with the same cells are equal. *)
Lemma matrix_ext m1 m2 w :
  length m1 = length m2 → rectangular w m1 → rectangular w m2 →
  (∀ i j, (i < length m1)%nat → (j < w)%nat → look m1 i j = look m2 i j) →
  m1 = m2.
Proof.
  intros Hlen H1 H2 Hcells. apply list_eq. intros i.
  destruct (decide (i < length m1)%nat) as [Hi|Hi].
  - destruct (lookup_lt_is_Some_2 m1 i Hi) as [r1 Hr1].
    destruct (lookup_lt_is_Some_2 m2 i ltac:(lia)) as [r2 Hr2].
    rewrite Hr1, Hr2. f_equal.
    pose proof (Forall_lookup_1 _ _ _ _ H1 Hr1) as Hl1.
    pose proof (Forall_lookup_1 _ _ _ _ H2 Hr2) as Hl2. simpl in *.
    apply list_eq. intros j.
    destruct (decide (j < w)%nat) as [Hj|Hj].
    + specialize (Hcells i j Hi Hj). unfold look in Hcells.
      by rewrite Hr1, Hr2 in Hcells.
    + rewrite !lookup_ge_None_2 by lia. done.
  - rewrite !lookup_ge_None_2 by lia. done.
Qed.

(** One rotation of an h-by-w matrix gives a w-by-h matrix whose cell
    [(i, j)] is the cell [(j, w - 1 - i)] of the input. *)
Lemma rotate_rectangular m w :
  m ≠ [] → rectangular w m →
  ∃ m', rotate m = inr m' ∧ length m' = w ∧ rectangular (length m) m' ∧
    ∀ i j, (i < w)%nat → (j < length m)%nat →
      look m' i j = look m j (w - 1 - i).
Proof.
  intros Hne Hrect. destruct m as [|row0 rest] eqn:Hm; [done|].
  rewrite <- Hm in *. clear Hne.
  assert (length row0 = w) as Hw.
  { subst m. by apply Forall_cons in Hrect as [? _]. }
  assert (rotate m = inr (reverse (imap
            (λ i _, (λ row, default Undef (row !! i)) <$> m) row0))) as ->
    by (by subst m).
  eexists. split; [done|].
  split; [by rewrite length_reverse, length_imap|]. split.
  - unfold rectangular. apply Forall_lookup. intros i row Hi.
    apply reverse_lookup_Some in Hi as [Hi _].
    rewrite list_lookup_imap in Hi.
    apply fmap_Some in Hi as (? & _ & ->). by rewrite length_fmap.
  - intros i j Hi Hj. unfold look.
    rewrite reverse_lookup by (rewrite length_imap; lia).
    rewrite length_imap, list_lookup_imap, Hw.
    destruct (lookup_lt_is_Some_2 row0 (w - S i)) as [v0 Hv0]; [lia|].
    rewrite Hv0. simpl. rewrite list_lookup_fmap.
    destruct (lookup_lt_is_Some_2 m j Hj) as [row Hrow]. rewrite Hrow. simpl.
    pose proof (Forall_lookup_1 _ _ _ _ Hrect Hrow) as Hlen. simpl in Hlen.
    destruct (lookup_lt_is_Some_2 row (w - S i)) as [v Hv]; [lia|].
    replace (w - 1 - i)%nat with (w - S i)%nat by lia.
    by rewrite Hv.
Qed.

(** Four rotations of a matrix with at least one row and one column all
    succeed and give the matrix back. *)
Lemma rotate_four_times m w :
  m ≠ [] → (0 < w)%nat → rectangular w m →
  ∃ m1 m2 m3,
    rotate m = inr m1 ∧ rotate m1 = inr m2 ∧
    rotate m2 = inr m3 ∧ rotate m3 = inr m.
Proof.
  intros Hne Hw Hrect.
  assert (0 < length m)%nat as Hh by (destruct m; [done | simpl; lia]).
  destruct (rotate_rectangular m w Hne Hrect) as (m1 & E1 & L1 & R1 & C1).
  assert (m1 ≠ []) as N1 by (intros ->; simpl in L1; lia).
  destruct (rotate_rectangular m1 _ N1 R1) as (m2 & E2 & L2 & R2 & C2).
  assert (m2 ≠ []) as N2 by (intros ->; simpl in L2; lia).
  destruct (rotate_rectangular m2 _ N2 R2) as (m3 & E3 & L3 & R3 & C3).
  assert (m3 ≠ []) as N3 by (intros ->; simpl in L3; lia).
  destruct (rotate_rectangular m3 _ N3 R3) as (m4 & E4 & L4 & R4 & C4).
  exists m1, m2, m3. repeat (split; [done|]).
  rewrite E4. f_equal. rewrite L1 in *. rewrite L2 in *. rewrite L3 in *.
  apply (matrix_ext m4 m w); [done | done | done |].
  intros i j Hi Hj. rewrite L4 in Hi.
  rewrite C4, C3, C2, C1 by lia. f_equal; lia.
Qed.

(** ** C7: rotate on the heap allocates; it writes to no existing array *)

Lemma repRow_mono h ext e row : repRow h e row → repRow (h ++ ext) e row.
Proof.
  intros (l & -> & Hl). exists l. split; [done|]. by apply lookup_app_l_Some.
Qed.

Lemma repRows_mono h ext outer mat :
  Forall2 (repRow h) outer mat → Forall2 (repRow (h ++ ext)) outer mat.
Proof.
  intros H. eapply Forall2_impl; [exact H|].
  intros e row. apply repRow_mono.
Qed.

Lemma repMatrix_mono h ext m mat :
  repMatrix h m mat → repMatrix (h ++ ext) m mat.
Proof.
  intros (outer & Hm & Hrows). exists outer.
  split; [by apply lookup_app_l_Some | by apply repRows_mono].
Qed.

Lemma Forall2_reverse_2 {A B} (P : A → B → Prop) l k :
  Forall2 P l k → Forall2 P (reverse l) (reverse k).
Proof.
  induction 1 as [|x y l k Hxy _ IH]; [constructor|].
  rewrite !reverse_cons. apply Forall2_app; [done | by constructor].
Qed.

Lemma readColumn_rep h outer mat i :
  Forall2 (repRow h) outer mat →
  readColumn h outer i =
  inr (VCell <$> ((λ row, default Undef (row !! i)) <$> mat)).
Proof.
  induction 1 as [|e row outer mat (l & -> & Hl) _ IH]; [done|].
  simpl. rewrite Hl, IH, list_lookup_fmap. by destruct (row !! i).
Qed.

Lemma mapColumns_rep n : ∀ h outer mat i,
  Forall2 (repRow h) outer mat →
  ∃ ext refs,
    mapColumns h outer i n = inr (h ++ ext, refs) ∧
    Forall2 (repRow (h ++ ext)) refs
      ((λ k, (λ row, default Undef (row !! k)) <$> mat) <$> seq i n).
Proof.
  induction n as [|n IH]; intros h outer mat i Hrep.
  - exists [], []. simpl. rewrite app_nil_r. split; [done | constructor].
  - simpl. rewrite (readColumn_rep h outer mat i Hrep).
    destruct (IH (h ++ [VCell <$> ((λ row, default Undef (row !! i)) <$> mat)])
                outer mat (S i)) as (ext & refs & Hrun & Hrefs).
    { by apply repRows_mono. }
    rewrite Hrun. rewrite <- app_assoc in *.
    eexists _, _. split; [done|]. constructor; [|done].
    exists (length h). split; [done|]. by apply list_lookup_middle.
Qed.

(** [rotateH] computes what [rotate] does, in arrays allocated beyond the
    addresses in use; the heap it returns extends the given one. *)
Lemma rotateH_rep h m mat :
  repMatrix h m mat →
  match rotate mat with
  | inl err => rotateH h m = inl err
  | inr mat' =>
      ∃ ext res, rotateH h m = inr (h ++ ext, res) ∧
        (length h ≤ res)%nat ∧ repMatrix (h ++ ext) res mat'
  end.
Proof.
  intros (outer & Hm & Hrows). unfold rotateH. rewrite Hm.
  destruct Hrows as [|e row0 outer mat (l & -> & Hl) Hrest]; [done|].
  assert (rotate (row0 :: mat) =
          inr (reverse ((λ k, (λ row, default Undef (row !! k)) <$> row0 :: mat)
                          <$> seq 0 (length row0)))) as ->
    by (unfold rotate; by rewrite imap_seq_0).
  simpl. rewrite Hl, length_fmap.
  destruct (mapColumns_rep (length row0) h (VRef l :: outer) (row0 :: mat) 0)
    as (ext & refs & Hrun & Hrefs).
  { constructor; [by exists l | done]. }
  rewrite Hrun. simpl.
  exists (ext ++ [reverse refs]), (length (h ++ ext)).
  split; [|split].
  - f_equal. f_equal. rewrite <- (Nat.add_0_r (length (h ++ ext))).
    rewrite insert_app_r. simpl. by rewrite <- app_assoc.
  - rewrite length_app. lia.
  - exists (reverse refs). split.
    + rewrite app_assoc. by apply list_lookup_middle.
    + rewrite app_assoc. apply repRows_mono.
      by apply Forall2_reverse_2.
Qed.

(** C7: four applications of [rotate] to a rectangular matrix with at least
    one row and one column give back the matrix, cell for cell. On the heap
    one application returns a newly allocated array that holds the rotated
    matrix, and every array that existed before, the argument and its rows
    among them, is as it was. *)
Theorem rotate_round_trip m w :
  m ≠ [] → (0 < w)%nat → rectangular w m →
  (∃ m1 m2 m3,
     rotate m = inr m1 ∧ rotate m1 = inr m2 ∧
     rotate m2 = inr m3 ∧ rotate m3 = inr m) ∧
  (∀ h l, repMatrix h l m →
     ∃ m1 h' l',
       rotate m = inr m1 ∧ rotateH h l = inr (h', l') ∧
       repMatrix h' l' m1 ∧
       (∀ k arr, h !! k = Some arr → h' !! k = Some arr) ∧
       repMatrix h' l m).
Proof.
  intros Hne Hw Hrect. split; [by apply (rotate_four_times m w)|].
  intros h l Hrep.
  destruct (rotate_four_times m w Hne Hw Hrect) as (m1 & _ & _ & E1 & _).
  pose proof (rotateH_rep h l m Hrep) as H. rewrite E1 in H.
  destruct H as (ext & res & Hrun & _ & Hres).
  exists m1, (h ++ ext), res. repeat (split; [done|]). split.
  - intros k arr. apply lookup_app_l_Some.
  - by apply repMatrix_mono.
Qed.

(** Every matrix can be put on the heap. *)
Lemma storeRows_rep mat : ∀ h,
  ∃ ext refs, storeRows h mat = (h ++ ext, refs) ∧
    Forall2 (repRow (h ++ ext)) refs mat.
Proof.
  induction mat as [|row mat IH]; intros h.
  - exists [], []. simpl. rewrite app_nil_r. split; [done | constructor].
  - simpl. destruct (IH (h ++ [VCell <$> row])) as (ext & refs & Hrun & Hrefs).
    rewrite Hrun. rewrite <- app_assoc in *.
    eexists _, _. split; [done|]. constructor; [|done].
    exists (length h). split; [done|]. by apply list_lookup_middle.
Qed.

Lemma store_rep h mat :
  ∃ ext l, store h mat = (h ++ ext, l) ∧ repMatrix (h ++ ext) l mat.
Proof.
  unfold store. destruct (storeRows_rep mat h) as (ext & refs & -> & Hrefs).
  exists (ext ++ [refs]), (length (h ++ ext)).
  split; [unfold alloc; by rewrite <- app_assoc|]. exists refs. split.
  - rewrite app_assoc. by apply list_lookup_middle.
  - rewrite app_assoc. by apply repRows_mono.
Qed.

(** ** C8: the score lists of the contract *)

Section contract.
Context `{FHE}.
Variable this : address.

Lemma scoresOf_allow h a st p : scoresOf (allow h a st) p = scoresOf st p.
Proof. done. Qed.

Lemma scoresOf_push a h st p :
  scoresOf (push a h st) p =
  if decide (a = p) then scoresOf st p ++ [h] else scoresOf st p.
Proof.
  unfold scoresOf at 1, push. simpl. case_decide as Hap.
  - subst. by rewrite lookup_insert_eq.
  - by rewrite lookup_insert_ne.
Qed.

(** A call that is not reverted appends the converted handle to the
    sender's list and to no other. *)
Lemma uploadScore_fetch sender enc proof st st' p :
  uploadScore this sender enc proof st = Some st' →
  ∃ h, fromExternal sender enc proof = Some h ∧
    fetchScores st' p =
    if decide (sender = p) then fetchScores st p ++ [h] else fetchScores st p.
Proof.
  unfold uploadScore, fetchScores. intros Hup.
  destruct (fromExternal sender enc proof) as [h|]; [|done].
  simpl in Hup. injection Hup as <-. exists h. split; [done|].
  by rewrite scoresOf_allow, scoresOf_push, scoresOf_allow.
Qed.

Lemma exec_fetch st c p :
  fetchScores (exec this st c) p =
  fetchScores st p ++ option_list (stored p c).
Proof.
  unfold exec, stored.
  destruct (uploadScore this (call_sender c) (call_score c) (call_proof c) st)
    as [st'|] eqn:Hup; simpl.
  - destruct (uploadScore_fetch _ _ _ _ _ p Hup) as (h & -> & ->).
    case_decide; simpl; by rewrite ?app_nil_r.
  - unfold uploadScore in Hup.
    destruct (fromExternal _ _ _); [done|].
    case_decide; simpl; by rewrite app_nil_r.
Qed.

Lemma execAll_fetch cs : ∀ st p,
  fetchScores (execAll this st cs) p =
  fetchScores st p ++ omap (stored p) cs.
Proof.
  induction cs as [|c cs IH]; intros st p; simpl.
  - by rewrite app_nil_r.
  - unfold execAll in *. simpl. rewrite IH, exec_fetch, <- app_assoc.
    f_equal. by destruct (stored p c).
Qed.

(** C8: a call of [uploadScore] that is not reverted appends exactly one
    handle to the caller's list and leaves every other player's list as
    it was; after any sequence of calls, [fetchScores] of a player is the
    list held before followed by the handles of that player's accepted
    uploads, in the order of the calls. *)
Theorem uploadScore_appends_in_order :
  (∀ sender enc proof st st',
     uploadScore this sender enc proof st = Some st' →
     ∃ h, fromExternal sender enc proof = Some h ∧
       fetchScores st' sender = fetchScores st sender ++ [h] ∧
       ∀ other, other ≠ sender → fetchScores st' other = fetchScores st other) ∧
  (∀ cs st player,
     fetchScores (execAll this st cs) player =
     fetchScores st player ++ omap (stored player) cs).
Proof.
  split; [|intros; apply execAll_fetch].
  intros sender enc proof st st' Hup.
  destruct (uploadScore_fetch _ _ _ _ _ sender Hup) as (h & Hh & Hs).
  exists h. split; [done|]. split.
  - by rewrite decide_True in Hs.
  - intros other Hne.
    destruct (uploadScore_fetch _ _ _ _ _ other Hup) as (h' & _ & Ho).
    by rewrite decide_False in Ho.
Qed.
End contract.

(** ** The kick search of playerRotate ends *)

(** The offsets grow in magnitude and alternate in sign, so a positive one
    exceeds the width after a number of steps that the width bounds. *)
Lemma kick_ends fuel : ∀ offset w,
  offset ≠ 0 →
  (2 * Z.to_nat (shapeWidth (matrix (player w)) + 2 - Z.abs offset)%Z
     + (if decide (offset > 0)%Z then 2 else 1) ≤ fuel)%nat →
  snd (kick fuel offset w) ≠ inl OutOfFuel.
Proof.
  induction fuel as [|fuel IH]; intros offset w Hne Hfuel.
  - case_decide; lia.
  - destruct w as [a [[x y] m] s g st]. simpl in Hfuel.
    simpl kick. js_run. destruct (collide a _); [|done].
    destruct m as [|row0 rest]; [done|]. simpl.
    destruct (decide (- (offset + _) > _)) as [Hout|Hout]; [done|].
    apply IH.
    + case_decide; lia.
    + unfold set_x. simpl. unfold shapeWidth in Hfuel.
      repeat case_decide; lia.
Qed.

Lemma rotate_width m m' :
  rotate m = inr m' → 0 ≤ shapeWidth m' ≤ Z.of_nat (length m).
Proof.
  intros Hrot.
  assert (Forall (λ r, length r = length m) m') as Hall.
  { destruct m as [|row0 rest]; [done|]. injection Hrot as <-.
    apply Forall_lookup. intros i r Hi.
    apply reverse_lookup_Some in Hi as [Hi _].
    rewrite list_lookup_imap in Hi.
    apply fmap_Some in Hi as (? & _ & ->).
    apply (length_fmap _ (row0 :: rest)). }
  destruct Hall as [|r0 rs Hr0 _]; simpl; lia.
Qed.

(** [playerRotate] never runs out of steps when given twice the number of
    rows of the piece, plus four. *)
Lemma playerRotate_ends fuel w :
  (2 * length (matrix (player w)) + 4 ≤ fuel)%nat →
  snd (playerRotate fuel w) ≠ inl OutOfFuel.
Proof.
  intros Hfuel. unfold playerRotate. js_run.
  destruct (rotate (matrix (player w))) as [e|m'] eqn:Hrot.
  - js_run. intros [= ->]. by destruct (matrix (player w)).
  - js_run. apply kick_ends; [done|]. simpl.
    pose proof (rotate_width _ _ Hrot). lia.
Qed.

(** ** The theorems at concrete inputs *)

Lemma inside_emptyArena r c :
  0 ≤ r < 20 → 0 ≤ c < 10 → inside emptyArena r c.
Proof.
  intros Hr Hc. exists (replicate 10 (Num 0)).
  split; [|rewrite length_replicate; lia].
  apply idx_Some. split; [lia|].
  apply lookup_replicate_2. unfold ROWS. lia.
Qed.

Lemma emptyArena_rows : Forall (λ row : list cell, row ≠ []) emptyArena.
Proof. by repeat constructor. Qed.

Lemma rotate_round_trip_witness :
  (∃ m1 m2 m3,
     rotate [nums [2; 0; 0]; nums [2; 2; 2]] = inr m1 ∧ rotate m1 = inr m2 ∧
     rotate m2 = inr m3 ∧ rotate m3 = inr [nums [2; 0; 0]; nums [2; 2; 2]]) ∧
  (∀ h l, repMatrix h l [nums [2; 0; 0]; nums [2; 2; 2]] →
     ∃ m1 h' l',
       rotate [nums [2; 0; 0]; nums [2; 2; 2]] = inr m1 ∧
       rotateH h l = inr (h', l') ∧
       repMatrix h' l' m1 ∧
       (∀ k arr, h !! k = Some arr → h' !! k = Some arr) ∧
       repMatrix h' l [nums [2; 0; 0]; nums [2; 2; 2]]).
Proof.
  apply (rotate_round_trip [nums [2; 0; 0]; nums [2; 2; 2]] 3).
  - discriminate.
  - lia.
  - repeat constructor.
Defined.

(** The square two rows above the floor of the empty board. *)
Lemma merge_frame_witness :
  ∃ a', merge (Piece (Pos 4 18) [nums [4; 4]; nums [4; 4]]) emptyArena
          = (a', inr tt) ∧
    dims a' = dims emptyArena ∧
    (∀ (y x : nat) v,
       shapeCell (Piece (Pos 4 18) [nums [4; 4]; nums [4; 4]]) y x v →
       neq0 v = true →
       cellAt a' (boardRow (Piece (Pos 4 18) [nums [4; 4]; nums [4; 4]]) y)
                 (boardCol (Piece (Pos 4 18) [nums [4; 4]; nums [4; 4]]) x) = v) ∧
    (∀ r c,
       (∀ (y x : nat) v,
          shapeCell (Piece (Pos 4 18) [nums [4; 4]; nums [4; 4]]) y x v →
          neq0 v = true →
          ¬ (r = boardRow (Piece (Pos 4 18) [nums [4; 4]; nums [4; 4]]) y ∧
             c = boardCol (Piece (Pos 4 18) [nums [4; 4]; nums [4; 4]]) x)) →
       cellAt a' r c = cellAt emptyArena r c).
Proof.
  apply (merge_frame emptyArena (Piece (Pos 4 18) [nums [4; 4]; nums [4; 4]])).
  intros y x v (row & Hy & Hx) _.
  assert (y < 2)%nat as Hylt by (apply lookup_lt_Some in Hy; simpl in Hy; lia).
  assert (x < 2)%nat as Hxlt.
  { destruct y as [|[|y]]; simpl in Hy; [| |lia]; simplify_eq;
      apply lookup_lt_Some in Hx; simpl in Hx; lia. }
  apply inside_emptyArena; unfold boardRow, boardCol; simpl; lia.
Defined.

(** A library that accepts every proof and keeps the handle. *)
Lemma uploadScore_appends_in_order_witness :
  ∃ st', @uploadScore (Build_FHE (λ _ e _, Some e)) 1%N 7%N 100%N []
           (Chain ∅ ∅) = Some st' ∧
    fetchScores st' 7%N = [100%N] ∧
    fetchScores st' 8%N = [].
Proof.
  eexists. split; [reflexivity|].
  destruct (proj1 (@uploadScore_appends_in_order
                     (Build_FHE (λ _ e _, Some e)) 1%N)
              7%N 100%N [] (Chain ∅ ∅) _ eq_refl) as (h & Hh & Hown & Hother).
  injection Hh as <-. split; [exact Hown|].
  apply (Hother 8%N). discriminate.
Defined.


(** * Further properties of the engine and the contract *)

(** ** collide and merge together *)

(** [collide] answers [false] exactly when every non-zero shape cell lies
    over a board cell that holds the number zero. *)
Theorem collide_free_iff arena p :
  collide arena p = false ↔
  ∀ (y x : nat) v, shapeCell p y x v → truthy v = true →
    inside arena (boardRow p y) (boardCol p x) ∧
    cellAt arena (boardRow p y) (boardCol p x) = Num 0.
Proof.
  rewrite collide_false. split.
  - intros H y x v Hc Ht. split; [|by eapply H].
    eapply cellAt_Num_inside. by eapply H.
  - intros H y x v Hc Ht. by eapply H.
Qed.

Lemma assign_length r c v a : length (fst (assign r c v a)) = length a.
Proof.
  unfold assign. destruct (idx a r); [|done].
  case_decide; [done|]. simpl. by rewrite length_insert.
Qed.

Lemma merge_row_length o y row : ∀ x a,
  length (fst (merge_row o y x row a)) = length a.
Proof.
  induction row as [|v row IH]; intros x a; [done|].
  simpl. unfold mbind, js_bind.
  destruct (when (neq0 v) (assign (y + pos_y o) (x + pos_x o) v) a)
    as [a1 [e|[]]] eqn:Hrun.
  - simpl. replace a1 with (fst (when (neq0 v)
      (assign (y + pos_y o) (x + pos_x o) v) a)) by (by rewrite Hrun).
    destruct (neq0 v); [apply assign_length | done].
  - rewrite IH.
    replace a1 with (fst (when (neq0 v)
      (assign (y + pos_y o) (x + pos_x o) v) a)) by (by rewrite Hrun).
    destruct (neq0 v); [apply assign_length | done].
Qed.

Lemma merge_rows_length o m : ∀ y a,
  length (fst (merge_rows o y m a)) = length a.
Proof.
  induction m as [|row m IH]; intros y a; [done|].
  simpl. unfold mbind, js_bind.
  pose proof (merge_row_length o y row 0 a) as Hrow.
  destruct (merge_row o y 0 row a) as [a1 [e|[]]]; simpl in *; [done|].
  by rewrite IH.
Qed.

Lemma merge_rows_length_at p a : length (fst (merge p a)) = length a.
Proof. apply merge_rows_length. Qed.

(** [merge] never adds or removes a row, whether it completes or throws
    part of the way. *)
Theorem merge_keeps_height p a : length (fst (merge p a)) = length a.
Proof. apply merge_rows_length. Qed.

(** A piece of numbers that does not collide is merged without an
    exception and without touching an occupied cell: every board cell that
    held a non-zero number holds it afterwards. The cells under the piece
    now hold its values, so the same piece collides with the board it was
    merged into. *)
Theorem merge_free_piece a p :
  collide a p = false → numeric (matrix p) →
  ∃ a', merge p a = (a', inr tt) ∧
    dims a' = dims a ∧
    (∀ r c n, cellAt a r c = Num n → n ≠ 0 → cellAt a' r c = Num n) ∧
    (∀ (y x : nat) v, shapeCell p y x v → truthy v = true →
       cellAt a' (boardRow p y) (boardCol p x) = v) ∧
    ((∃ (y x : nat) v, shapeCell p y x v ∧ truthy v = true) →
     collide a' p = true).
Proof.
  intros Hfree Hnum.
  destruct (merge_inside a p (valid_piece_inside a p Hfree Hnum))
    as (a' & Hrun & Hd & Hset & Hframe).
  assert (∀ (y x : nat) v, shapeCell p y x v → neq0 v = true →
            truthy v = true) as Htr.
  { intros y x v Hc Hv. destruct v; [done|].
    by apply numeric_shapeCell in Hc. }
  exists a'. repeat (split; [done|]). split; [|split].
  - intros r c n Hold Hn. rewrite Hframe; [done|].
    intros y x v Hc Hv [-> ->].
    rewrite (proj1 (collide_false a p) Hfree y x v Hc (Htr y x v Hc Hv)) in Hold.
    congruence.
  - intros y x v Hc Ht. apply Hset; [done|]. by destruct v.
  - intros (y & x & v & Hc & Ht). apply collide_true.
    exists y, x, v. split; [done|]. split; [done|].
    rewrite (Hset y x v Hc) by (by destruct v). by destruct v.
Qed.

Lemma merge_free_piece_witness :
  ∃ a', merge (Piece (Pos 4 18) [nums [4; 4]; nums [4; 4]]) emptyArena
          = (a', inr tt) ∧
    collide a' (Piece (Pos 4 18) [nums [4; 4]; nums [4; 4]]) = true.
Proof.
  destruct (merge_free_piece emptyArena
              (Piece (Pos 4 18) [nums [4; 4]; nums [4; 4]]))
    as (a' & Hrun & _ & _ & _ & Hhit).
  - reflexivity.
  - repeat constructor; discriminate.
  - exists a'. split; [exact Hrun|]. apply Hhit.
    exists 0%nat, 0%nat, (Num 4). split; [|reflexivity].
    exists (nums [4; 4]). split; reflexivity.
Defined.

(** ** merge does not check the width *)

Lemma widened_lookup a a' :
  widened a a' ↔
  length a = length a' ∧
  ∀ (i : nat) row row', a !! i = Some row → a' !! i = Some row' →
    (length row ≤ length row')%nat.
Proof. apply Forall2_same_length_lookup. Qed.

Lemma widened_refl a : widened a a.
Proof. apply widened_lookup. split; [done|]. intros i row row' H1 H2. by simplify_eq. Qed.

Lemma widened_trans a b c : widened a b → widened b c → widened a c.
Proof.
  intros [Hl1 H1]%widened_lookup [Hl2 H2]%widened_lookup.
  apply widened_lookup. split; [congruence|].
  intros i row row'' Ha Hc.
  destruct (lookup_lt_is_Some_2 b i) as [row' Hb].
  { apply lookup_lt_Some in Ha. lia. }
  specialize (H1 i row row' Ha Hb). specialize (H2 i row' row'' Hb Hc). lia.
Qed.

Lemma widened_idx a a' r row (c : Z) :
  widened a a' → idx a r = Some row → c < Z.of_nat (length row) →
  ∃ row', idx a' r = Some row' ∧ c < Z.of_nat (length row').
Proof.
  intros [Hl H]%widened_lookup [Hr Hrow]%idx_Some Hc.
  destruct (lookup_lt_is_Some_2 a' (Z.to_nat r)) as [row' Hrow'].
  { apply lookup_lt_Some in Hrow. lia. }
  exists row'. split; [by apply idx_Some|].
  specialize (H _ _ _ Hrow Hrow'). lia.
Qed.

Lemma widened_nonempty a a' :
  widened a a' →
  Forall (λ row : list cell, row ≠ []) a →
  Forall (λ row : list cell, row ≠ []) a'.
Proof.
  intros [Hl H]%widened_lookup Hne.
  apply Forall_lookup. intros i row' Hrow'.
  destruct (lookup_lt_is_Some_2 a i) as [row Hrow].
  { apply lookup_lt_Some in Hrow'. lia. }
  pose proof (Forall_lookup_1 _ _ _ _ Hne Hrow) as Hn. simpl in Hn.
  specialize (H _ _ _ Hrow Hrow'). destruct row, row'; simpl in *; try done; lia.
Qed.

Lemma length_writeAt row c v :
  (length row ≤ length (writeAt row c v))%nat ∧
  (c < length (writeAt row c v))%nat.
Proof.
  unfold writeAt. case_decide.
  - rewrite length_insert. lia.
  - rewrite !length_app, length_replicate. simpl. lia.
Qed.

Lemma assign_widened r c v a : widened a (fst (assign r c v a)).
Proof.
  unfold assign. destruct (idx a r) as [row|] eqn:Hrow; [|apply widened_refl].
  case_decide; [apply widened_refl|]. simpl.
  apply idx_Some in Hrow as [Hr Hrow].
  apply widened_lookup. split; [by rewrite length_insert|].
  intros i r0 r1 H0 H1.
  destruct (decide (i = Z.to_nat r)) as [->|Hne].
  - rewrite list_lookup_insert_eq in H1 by (by eapply lookup_lt_Some).
    simplify_eq. apply length_writeAt.
  - rewrite list_lookup_insert_ne in H1 by done. by simplify_eq.
Qed.

Lemma assign_outcome r c v a :
  snd (assign r c v a) = inr tt ∨ snd (assign r c v a) = inl TypeError.
Proof.
  unfold assign. destruct (idx a r); [|by right]. left. by case_decide.
Qed.

Lemma assign_on_row r c v a row :
  idx a r = Some row → snd (assign r c v a) = inr tt.
Proof. unfold assign. intros ->. by case_decide. Qed.

Lemma assign_reaches r c v a row :
  idx a r = Some row → 0 ≤ c →
  ∃ row', idx (fst (assign r c v a)) r = Some row' ∧
    c < Z.of_nat (length row').
Proof.
  intros Hrow Hc. unfold assign. rewrite Hrow.
  rewrite decide_False by lia. simpl.
  apply idx_Some in Hrow as [Hr Hrow].
  exists (writeAt row (Z.to_nat c) v). split.
  - apply idx_Some. split; [done|].
    apply list_lookup_insert_eq. by eapply lookup_lt_Some.
  - pose proof (length_writeAt row (Z.to_nat c) v). lia.
Qed.

(** One step of the inner loop: the write, if the value calls for one. *)
Lemma merge_cell_widened r c v a :
  widened a (fst (when (neq0 v) (assign r c v) a)).
Proof. destruct (neq0 v); [apply assign_widened | apply widened_refl]. Qed.

Lemma merge_cell_outcome r c v a :
  snd (when (neq0 v) (assign r c v) a) = inr tt ∨
  snd (when (neq0 v) (assign r c v) a) = inl TypeError.
Proof. destruct (neq0 v); [apply assign_outcome | by left]. Qed.

Lemma merge_row_widened o y row : ∀ x a,
  widened a (fst (merge_row o y x row a)) ∧
  (snd (merge_row o y x row a) = inr tt ∨
   snd (merge_row o y x row a) = inl TypeError).
Proof.
  induction row as [|v row IH]; intros x a;
    [split; [apply widened_refl | by left]|].
  simpl. unfold mbind, js_bind.
  pose proof (merge_cell_widened (y + pos_y o) (x + pos_x o) v a) as Hw.
  pose proof (merge_cell_outcome (y + pos_y o) (x + pos_x o) v a) as Ho.
  destruct (when (neq0 v) (assign (y + pos_y o) (x + pos_x o) v) a)
    as [a1 [e|[]]]; simpl in *.
  - by split.
  - destruct (IH (x + 1) a1) as [Hw' Ho']. split; [|done].
    by eapply widened_trans.
Qed.

Lemma merge_rows_widened o m : ∀ y a,
  widened a (fst (merge_rows o y m a)) ∧
  (snd (merge_rows o y m a) = inr tt ∨
   snd (merge_rows o y m a) = inl TypeError).
Proof.
  induction m as [|row m IH]; intros y a;
    [split; [apply widened_refl | by left]|].
  simpl. unfold mbind, js_bind.
  destruct (merge_row_widened o y row 0 a) as [Hw Ho].
  destruct (merge_row o y 0 row a) as [a1 [e|[]]]; simpl in *.
  - by split.
  - destruct (IH (y + 1) a1) as [Hw' Ho']. split; [|done].
    by eapply widened_trans.
Qed.

Lemma widened_is_Some a a' (r : Z) :
  widened a a' → is_Some (idx a r) → is_Some (idx a' r).
Proof.
  intros Hw [row Hrow].
  destruct (widened_idx a a' r row (-1) Hw Hrow) as (row' & Hrow' & _); [lia|].
  by exists row'.
Qed.

Lemma merge_row_completes o y row : ∀ x a,
  (∀ (i : nat) v, row !! i = Some v → neq0 v = true →
     is_Some (idx a (y + pos_y o))) →
  snd (merge_row o y x row a) = inr tt.
Proof.
  induction row as [|v row IH]; intros x a Hrow; [done|].
  simpl. unfold mbind, js_bind.
  pose proof (merge_cell_widened (y + pos_y o) (x + pos_x o) v a) as Hw.
  assert (snd (when (neq0 v) (assign (y + pos_y o) (x + pos_x o) v) a)
          = inr tt) as Ho.
  { destruct (neq0 v) eqn:Hv; [|done]. simpl.
    destruct (Hrow 0%nat v eq_refl Hv) as [r Hr]. by eapply assign_on_row. }
  destruct (when (neq0 v) (assign (y + pos_y o) (x + pos_x o) v) a)
    as [a1 [e|[]]]; simpl in *; [done|].
  apply IH. intros i v' Hi Hv'.
  eapply widened_is_Some; [done|]. by apply (Hrow (S i) v').
Qed.

Lemma merge_row_reaches o y row : ∀ x a (i : nat) v r,
  row !! i = Some v → neq0 v = true →
  0 ≤ x + Z.of_nat i + pos_x o →
  idx a (y + pos_y o) = Some r →
  ∃ row', idx (fst (merge_row o y x row a)) (y + pos_y o) = Some row' ∧
    x + Z.of_nat i + pos_x o < Z.of_nat (length row').
Proof.
  induction row as [|v0 row IH]; intros x a i v r Hi Hv Hc Hr; [done|].
  simpl. unfold mbind, js_bind.
  pose proof (merge_cell_widened (y + pos_y o) (x + pos_x o) v0 a) as Hw.
  assert (snd (when (neq0 v0) (assign (y + pos_y o) (x + pos_x o) v0) a)
          = inr tt) as Ho.
  { destruct (neq0 v0); [by eapply assign_on_row | done]. }
  destruct i as [|i]; simpl in Hi.
  - simplify_eq. rewrite Hv in *. simpl in *.
    destruct (assign_reaches (y + pos_y o) (x + pos_x o) v a r Hr)
      as (r1 & Hr1 & Hlen); [lia|].
    destruct (assign (y + pos_y o) (x + pos_x o) v a) as [a1 [e|[]]];
      simpl in *; [done|].
    destruct (merge_row_widened o y row (x + 1) a1) as [Hw' _].
    destruct (widened_idx a1 _ _ r1 (x + pos_x o) Hw' Hr1 Hlen)
      as (r2 & Hr2 & Hlen2).
    exists r2. split; [done | lia].
  - destruct (when (neq0 v0) (assign (y + pos_y o) (x + pos_x o) v0) a)
      as [a1 [e|[]]]; simpl in *; [done|].
    destruct (widened_idx a a1 _ r (-1) Hw Hr) as (r1 & Hr1 & _); [lia|].
    destruct (IH (x + 1) a1 i v r1 Hi Hv) as (row' & Hrow' & Hlen);
      [lia | done |].
    exists row'. split; [done | lia].
Qed.

Lemma merge_rows_reaches o m : ∀ y a (j i : nat) row v r,
  (∀ (j' i' : nat) row' v', m !! j' = Some row' → row' !! i' = Some v' →
     neq0 v' = true → is_Some (idx a (y + Z.of_nat j' + pos_y o))) →
  m !! j = Some row → row !! i = Some v → neq0 v = true →
  0 ≤ Z.of_nat i + pos_x o →
  idx a (y + Z.of_nat j + pos_y o) = Some r →
  snd (merge_rows o y m a) = inr tt ∧
  ∃ row', idx (fst (merge_rows o y m a)) (y + Z.of_nat j + pos_y o)
            = Some row' ∧
    Z.of_nat i + pos_x o < Z.of_nat (length row').
Proof.
  assert (∀ m y a,
    (∀ (j' i' : nat) row' v', m !! j' = Some row' → row' !! i' = Some v' →
       neq0 v' = true → is_Some (idx a (y + Z.of_nat j' + pos_y o))) →
    snd (merge_rows o y m a) = inr tt) as Hdone.
  { clear. induction m as [|row m IH]; intros y a Hrows; [done|].
    simpl. unfold mbind, js_bind.
    destruct (merge_row_widened o y row 0 a) as [Hw _].
    assert (snd (merge_row o y 0 row a) = inr tt) as Ho.
    { apply merge_row_completes. intros i v Hi Hv.
      replace (y + pos_y o) with (y + Z.of_nat 0 + pos_y o) by lia.
      by apply (Hrows 0%nat i row v). }
    destruct (merge_row o y 0 row a) as [a1 [e|[]]]; simpl in *; [done|].
    apply IH. intros j' i' row' v' Hj' Hi' Hv'.
    destruct (Hrows (S j') i' row' v' Hj' Hi' Hv') as [r Hr].
    destruct (widened_idx a a1 _ r (-1) Hw Hr) as (r1 & Hr1 & _); [lia|].
    exists r1. by replace (y + 1 + Z.of_nat j' + pos_y o)
      with (y + Z.of_nat (S j') + pos_y o) by lia. }
  induction m as [|row0 m IH];
    intros y a j i row v r Hrows Hj Hi Hv Hc Hr; [done|].
  split; [by apply Hdone|].
  simpl. unfold mbind, js_bind.
  destruct (merge_row_widened o y row0 0 a) as [Hw _].
  destruct j as [|j]; simpl in Hj.
  - simplify_eq.
    replace (y + Z.of_nat 0 + pos_y o) with (y + pos_y o) in * by lia.
    destruct (merge_row_reaches o y row 0 a i v r Hi Hv ltac:(lia) Hr)
      as (r1 & Hr1 & Hlen).
    destruct (merge_row o y 0 row a) as [a1 [e|[]]]; simpl in *.
    + exists r1. split; [done | lia].
    + destruct (merge_rows_widened o m (y + 1) a1) as [Hw' _].
      destruct (widened_idx a1 _ _ r1 (Z.of_nat i + pos_x o) Hw' Hr1)
        as (r2 & Hr2 & Hlen2); [lia|].
      by exists r2.
  - assert (snd (merge_row o y 0 row0 a) = inr tt) as Ho.
    { specialize (Hdone [row0] y a). simpl in Hdone.
      unfold mbind, js_bind in Hdone.
      destruct (merge_row o y 0 row0 a) as [a1 [e|[]]] eqn:Hrun; [|done].
      simpl. apply Hdone. intros j' i' row' v' Hj' Hi' Hv'.
      destruct j' as [|j']; [|done]. simpl in Hj'. simplify_eq.
      by apply (Hrows 0%nat i' row' v'). }
    destruct (merge_row o y 0 row0 a) as [a1 [e|[]]]; simpl in *; [done|].
    destruct (widened_idx a a1 _ r (-1) Hw Hr) as (r1 & Hr1 & _); [lia|].
    destruct (IH (y + 1) a1 j i row v r1) as (_ & row' & Hrow' & Hlen);
      try done.
    + intros j' i' row' v' Hj' Hi' Hv'.
      destruct (Hrows (S j') i' row' v' Hj' Hi' Hv') as [r' Hr'].
      destruct (widened_idx a a1 _ r' (-1) Hw Hr') as (r2 & Hr2 & _); [lia|].
      exists r2. by replace (y + 1 + Z.of_nat j + pos_y o) with
        (y + Z.of_nat (S j) + pos_y o) in * by lia;
        replace (y + 1 + Z.of_nat j' + pos_y o) with
        (y + Z.of_nat (S j') + pos_y o) by lia.
    + by replace (y + 1 + Z.of_nat j + pos_y o) with
        (y + Z.of_nat (S j) + pos_y o) by lia.
    + exists row'. split; [|done].
      by replace (y + Z.of_nat (S j) + pos_y o) with
        (y + 1 + Z.of_nat j + pos_y o) by lia.
Qed.

(** [merge] tests no column against the width. When every cell it writes
    maps to a row of the board and one of them maps to a column at or
    beyond the end of its row, [merge] completes without an exception and
    that row comes out longer, long enough to hold the column; no row gets
    shorter and the number of rows stays. *)
Theorem merge_widens_row a p (y x : nat) v row :
  (∀ (j i : nat) u, shapeCell p j i u → neq0 u = true →
     is_Some (idx a (boardRow p j))) →
  shapeCell p y x v → neq0 v = true →
  idx a (boardRow p y) = Some row →
  Z.of_nat (length row) ≤ boardCol p x →
  ∃ a' row', merge p a = (a', inr tt) ∧
    widened a a' ∧
    idx a' (boardRow p y) = Some row' ∧
    (length row < length row')%nat ∧
    boardCol p x < Z.of_nat (length row').
Proof.
  intros Hrows (r0 & Hy & Hx) Hv Hrow Hwide. unfold boardRow, boardCol in *.
  destruct (merge_rows_reaches (pos p) (matrix p) 0 a y x r0 v row)
    as (Hdone & row' & Hrow' & Hlen); try done.
  - intros j' i' row'' v' Hj' Hi' Hv'.
    apply (Hrows j' i' v'); [by exists row'' | done].
  - lia.
  - destruct (merge_rows_widened (pos p) (matrix p) 0 a) as [Hw _].
    rewrite Z.add_0_l in Hrow'.
    unfold merge. destruct (merge_rows (pos p) 0 (matrix p) a) as [a' res].
    simpl in *. subst res. exists a', row'. repeat (split; [done|]).
    split; lia.
Qed.

Lemma merge_widens_row_witness :
  ∃ a' row', merge (Piece (Pos 7 0) [nums [1; 1; 1; 1]]) emptyArena
               = (a', inr tt) ∧
    widened emptyArena a' ∧
    idx a' 0 = Some row' ∧
    (10 < length row')%nat ∧
    10 < Z.of_nat (length row').
Proof.
  apply (merge_widens_row emptyArena (Piece (Pos 7 0) [nums [1; 1; 1; 1]])
           0 3 (Num 1) (replicate 10 (Num 0))).
  - intros j i u (r & Hj & _) _. destruct j as [|j]; [|done].
    by exists (replicate 10 (Num 0)).
  - exists (nums [1; 1; 1; 1]). split; reflexivity.
  - reflexivity.
  - reflexivity.
  - unfold boardCol. simpl. lia.
Defined.

(** ** merge outside the board *)

Lemma assign_row_outside r c v a :
  r < 0 ∨ Z.of_nat (length a) ≤ r → assign r c v a = (a, inl TypeError).
Proof.
  intros Hr. unfold assign.
  by destruct Hr; [rewrite idx_neg | rewrite idx_ge].
Qed.

Lemma assign_no_other_error r c v a :
  0 ≤ c → snd (assign r c v a) = inr tt ∨ snd (assign r c v a) = inl TypeError.
Proof.
  intros Hc. unfold assign. destruct (idx a r); [|by right].
  rewrite decide_False by lia. by left.
Qed.

Lemma merge_row_no_other_error o y row : ∀ x a,
  (∀ (i : nat) v, row !! i = Some v → neq0 v = true →
     0 ≤ x + Z.of_nat i + pos_x o) →
  snd (merge_row o y x row a) = inr tt ∨
  snd (merge_row o y x row a) = inl TypeError.
Proof.
  induction row as [|v row IH]; intros x a Hcol; [by left|].
  simpl. unfold mbind, js_bind.
  destruct (when (neq0 v) (assign (y + pos_y o) (x + pos_x o) v) a)
    as [a1 [e|[]]] eqn:Hrun.
  - right. simpl. destruct (neq0 v) eqn:Hv; [|done]. simpl in Hrun.
    destruct (assign_no_other_error (y + pos_y o) (x + pos_x o) v a) as [H|H].
    + specialize (Hcol 0%nat v eq_refl Hv). lia.
    + by rewrite Hrun in H.
    + by rewrite Hrun in H.
  - apply IH. intros i v' Hi Hv'. specialize (Hcol (S i) v' Hi Hv'). lia.
Qed.

Lemma merge_row_throws o y row : ∀ x a,
  (∀ (i : nat) v, row !! i = Some v → neq0 v = true →
     0 ≤ x + Z.of_nat i + pos_x o) →
  y + pos_y o < 0 ∨ Z.of_nat (length a) ≤ y + pos_y o →
  (∃ (i : nat) v, row !! i = Some v ∧ neq0 v = true) →
  snd (merge_row o y x row a) = inl TypeError.
Proof.
  induction row as [|v row IH]; intros x a Hcol Hout (i & v' & Hi & Hv');
    [done|].
  simpl. unfold mbind, js_bind.
  destruct (neq0 v) eqn:Hv.
  - simpl. by rewrite assign_row_outside.
  - simpl. destruct i as [|i]; simpl in Hi; [congruence|].
    apply IH; [|done|by exists i, v'].
    intros k w Hk Hw. specialize (Hcol (S k) w Hk Hw). lia.
Qed.

Lemma merge_rows_throws o m : ∀ y a,
  (∀ (j i : nat) row v, m !! j = Some row → row !! i = Some v →
     neq0 v = true → 0 ≤ Z.of_nat i + pos_x o) →
  (∃ (j i : nat) row v, m !! j = Some row ∧ row !! i = Some v ∧
     neq0 v = true ∧
     (y + Z.of_nat j + pos_y o < 0 ∨
      Z.of_nat (length a) ≤ y + Z.of_nat j + pos_y o)) →
  snd (merge_rows o y m a) = inl TypeError.
Proof.
  induction m as [|row m IH]; intros y a Hcol (j & i & row' & v & Hj & Hi & Hv & Hout);
    [done|].
  simpl. unfold mbind, js_bind.
  pose proof (merge_row_length o y row 0 a) as Hlen.
  pose proof (merge_row_no_other_error o y row 0 a) as Hkind.
  destruct (merge_row o y 0 row a) as [a1 [e|[]]] eqn:Hrun; simpl in *.
  - destruct Hkind as [?|?]; [|done|done].
    intros k w Hk Hw. specialize (Hcol 0%nat k row w eq_refl Hk Hw). lia.
  - destruct j as [|j]; simpl in Hj.
    + simplify_eq.
      pose proof (merge_row_throws o y row' 0 a) as Hthrow.
      rewrite Hrun in Hthrow. simpl in Hthrow.
      assert (@inr error unit tt = inl TypeError) as Habs; [|done].
      apply Hthrow.
      * intros k w Hk Hw. specialize (Hcol 0%nat k row' w eq_refl Hk Hw). lia.
      * lia.
      * by exists i, v.
    + apply IH.
      * intros j' k r w Hj' Hk Hw. by apply (Hcol (S j') k r w).
      * exists j, i, row', v. repeat (split; [done|]). rewrite Hlen. lia.
Qed.

(** When a cell that [merge] writes maps to a row above or below the board
    (and no written cell maps to a negative column), [merge] throws a
    [TypeError]; it does not skip the cell. *)
Theorem merge_outside_row_throws a p :
  (∀ (y x : nat) v, shapeCell p y x v → neq0 v = true → 0 ≤ boardCol p x) →
  (∃ (y x : nat) v, shapeCell p y x v ∧ neq0 v = true ∧
     (boardRow p y < 0 ∨ Z.of_nat (length a) ≤ boardRow p y)) →
  snd (merge p a) = inl TypeError.
Proof.
  intros Hcol (y & x & v & (row & Hy & Hx) & Hv & Hout).
  apply merge_rows_throws.
  - intros j i r w Hj Hi Hw. apply (Hcol j i w); [by exists r | done].
  - exists y, x, row, v. repeat (split; [done|]).
    unfold boardRow in Hout. lia.
Qed.

Lemma merge_outside_row_throws_witness :
  snd (merge (Piece (Pos 2 19) [[Num 1]; [Num 1]; [Num 1]; [Num 1]]) emptyArena)
  = inl TypeError.
Proof.
  apply merge_outside_row_throws.
  - intros y x v (row & Hy & Hx) _. unfold boardCol. simpl. lia.
  - exists 1%nat, 0%nat, (Num 1). split; [|split; [reflexivity|]].
    + exists [Num 1]. split; reflexivity.
    + right. unfold boardRow. simpl. lia.
Defined.

(** ** movePlayer *)

Lemma movePlayer_run w dir :
  movePlayer dir w =
  (if collide (arena w)
        (Piece (Pos (cur_x w + dir) (cur_y w)) (matrix (player w)))
   then w else set_x (cur_x w + dir) w, inr tt).
Proof.
  destruct w as [a [[x y] m] s g st]. unfold movePlayer. js_run.
  unfold cur_x, cur_y, set_x, set_player. simpl.
  destruct (collide a _); [|done].
  simpl. by replace (x + dir - dir) with x by lia.
Qed.

Lemma movePlayer_safe_lemma w dir :
  ∃ w', movePlayer dir w = (w', inr tt) ∧
    arena w' = arena w ∧ score w' = score w.
Proof.
  rewrite movePlayer_run. eexists. split; [done|].
  destruct (collide (arena w) _); [done|]. by destruct w.
Qed.

(** [movePlayer] changes nothing but the column of the piece, and a piece
    that does not collide before the move does not collide after it: the
    piece is either one step further or exactly where it was. *)
Theorem movePlayer_safe w dir :
  ∃ w', movePlayer dir w = (w', inr tt) ∧
    arena w' = arena w ∧ score w' = score w ∧
    gameOver w' = gameOver w ∧ started w' = started w ∧
    matrix (player w') = matrix (player w) ∧ cur_y w' = cur_y w ∧
    (cur_x w' = cur_x w + dir ∨ w' = w) ∧
    (collide (arena w) (player w) = false →
     collide (arena w') (player w') = false).
Proof.
  rewrite movePlayer_run. eexists. split; [done|].
  destruct (collide (arena w) _) eqn:Hhit.
  - repeat (split; [done|]). split; [by right | done].
  - destruct w as [a [[x y] m] s g st]. simpl in *.
    repeat (split; [done|]). split; [by left | done].
Qed.

Lemma cellAt_col_negative a r c : c < 0 → cellAt a r c = Undef.
Proof.
  intros Hc. unfold cellAt. destruct (idx a r); [|done].
  by rewrite idx_neg.
Qed.

(** A piece with a non-zero cell in board column 0 cannot move left, and on
    a board of width [w] a piece with a non-zero cell in column [w - 1]
    cannot move right: the state is left as it is. *)
Theorem movePlayer_at_wall (wd : nat) w (y x : nat) (n : Z) :
  rectangular wd (arena w) →
  shapeCell (player w) y x (Num n) → n ≠ 0 →
  (boardCol (player w) x = 0 → movePlayer (-1) w = (w, inr tt)) ∧
  (boardCol (player w) x = Z.of_nat wd - 1 → movePlayer 1 w = (w, inr tt)).
Proof.
  intros Hrect Hc Hn.
  assert (∀ dir, cellAt (arena w) (boardRow (player w) y)
                   (boardCol (player w) x + dir) = Undef →
                 movePlayer dir w = (w, inr tt)) as Hblocked.
  { intros dir Hu. rewrite movePlayer_run.
    rewrite (collide_over_undefined (arena w)
               (Piece (Pos (cur_x w + dir) (cur_y w)) (matrix (player w)))
               y x n); [done | exact Hc | done |].
    unfold boardRow, boardCol, cur_x, cur_y in *. simpl.
    by replace (Z.of_nat x + (pos_x (pos (player w)) + dir))
      with (Z.of_nat x + pos_x (pos (player w)) + dir) by lia. }
  split; intros Hcol; apply Hblocked.
  - apply cellAt_col_negative. lia.
  - apply (cellAt_col_outside wd); [done | lia].
Qed.

Lemma movePlayer_at_wall_witness :
  movePlayer (-1) barOnFloor = (barOnFloor, inr tt).
Proof.
  apply (movePlayer_at_wall 10 barOnFloor 0 0 1).
  - exact emptyArena_rectangular.
  - exists (nums [1; 1; 1; 1]). split; reflexivity.
  - lia.
  - reflexivity.
Defined.

(** ** What holds along every game *)

Lemma playerDrop_over fuel rnd idle w :
  gameOver w = true → playerDrop fuel rnd idle w = (w, inr tt).
Proof. intros H. unfold playerDrop. js_run. by rewrite H. Qed.

Lemma handle_over fuel e w :
  gameOver w = true → handle fuel e w = (w, inr tt).
Proof.
  intros H. destruct e as [k rnd idle|rnd idle]; simpl.
  - unfold keyListener. js_run. by rewrite H.
  - by apply playerDrop_over.
Qed.

(** ** sweep: what every pass keeps *)

Lemma clearRow_shape a (y : nat) row :
  a !! y = Some row →
  length (clearRow a y row) = length a ∧
  ∀ w, rectangular w a → rectangular w (clearRow a y row).
Proof.
  intros Hy. pose proof (lookup_lt_Some _ _ _ Hy) as Hlt.
  unfold clearRow. split.
  - simpl. rewrite length_delete; [lia | by eexists].
  - intros w Hrect. constructor.
    + unfold zeroed. rewrite length_replicate.
      apply (Forall_lookup_1 _ _ _ _ Hrect Hy).
    + by apply Forall_delete.
Qed.

Lemma sweep_loop_shape fuel : ∀ a y rc a' calls final,
  sweep_loop fuel a y rc = inr (a', calls, final) →
  length a' = length a ∧
  (∀ w, rectangular w a → rectangular w a') ∧
  (0 < rc → Forall (λ c, 0 < c) calls ∧ 0 < final).
Proof.
  induction fuel as [|fuel IH]; intros a y rc a' calls final Hrun; [done|].
  rewrite sweep_loop_S in Hrun. case_decide as Hy.
  - destruct (idx a y) as [row|] eqn:Hrow; [|done].
    apply idx_Some in Hrow as [_ Hrow].
    destruct (isFull row).
    + destruct (sweep_loop fuel _ _ _) as [e|[[a1 calls1] final1]] eqn:Hrec;
        [done|]. simplify_eq.
      apply IH in Hrec as (Hlen & Hrect & Hpos).
      destruct (clearRow_shape a (Z.to_nat y) row Hrow) as [Hl Hr].
      split; [congruence|]. split; [by intros w Hw; apply Hrect, Hr|].
      intros Hrc. destruct Hpos as [? ?]; [lia|].
      split; [by constructor | done].
    + by apply IH in Hrun.
  - simplify_eq. split; [done|]. split; [done|]. intros ?. by split.
Qed.

(** Whatever board it is given, a pass that ends returns a board of the
    same height, and of the same width if the board was rectangular. *)
Theorem sweep_keeps_shape fuel a a' calls final :
  sweepRows fuel a = inr (a', calls, final) →
  length a' = length a ∧ ∀ w, rectangular w a → rectangular w a'.
Proof.
  intros Hrun. apply sweep_loop_shape in Hrun as (? & ? & _). by split.
Qed.

Lemma sweep_keeps_shape_witness :
  length [nums [0; 0]; nums [0; 0]; nums [0; 1]] = 3%nat ∧
  ∀ w, rectangular w [nums [0; 1]; nums [1; 1]; nums [2; 2]] →
       rectangular w [nums [0; 0]; nums [0; 0]; nums [0; 1]].
Proof.
  apply (sweep_keeps_shape 7 [nums [0; 1]; nums [1; 1]; nums [2; 2]]
           [nums [0; 0]; nums [0; 0]; nums [0; 1]] [1; 2] 4).
  reflexivity.
Defined.

Lemma runQueue_grows idle calls final s :
  Forall (λ c, 0 < c) calls → 0 < final → s ≤ runQueue idle calls final s.
Proof.
  intros Hcalls Hfinal. destruct calls as [|c calls]; [done|].
  apply Forall_cons in Hcalls as [Hc _].
  unfold runQueue. rewrite run_at_render. unfold updater.
  assert (0 ≤ Z.of_nat (length calls) * (final * 15)) by nia.
  destruct idle; lia.
Qed.

Lemma sweep_steady idle fuel w :
  length (arena (fst (sweep idle fuel w))) = length (arena w) ∧
  score w ≤ score (fst (sweep idle fuel w)) ∧
  player (fst (sweep idle fuel w)) = player w ∧
  gameOver (fst (sweep idle fuel w)) = gameOver w.
Proof.
  unfold sweep.
  destruct (sweepRows fuel (arena w)) as [e|[[a' calls] final]] eqn:Hrun.
  - simpl. by split; [|split].
  - apply sweep_loop_shape in Hrun as (Hlen & _ & Hpos).
    destruct Hpos as [Hcalls Hfinal]; [lia|]. simpl.
    split; [done|]. split; [by apply runQueue_grows | done].
Qed.

Lemma playerReset_steady rnd w :
  arena (fst (playerReset rnd w)) = arena w ∧
  score (fst (playerReset rnd w)) = score w.
Proof.
  unfold playerReset, pickShape.
  destruct (shapes !! S rnd) as [m|]; [|done].
  js_run. destruct m as [|row0 rest]; [done|]. js_run.
  by destruct (collide _ _).
Qed.

Lemma kick_frame fuel : ∀ offset w,
  arena (fst (kick fuel offset w)) = arena w ∧
  score (fst (kick fuel offset w)) = score w ∧
  gameOver (fst (kick fuel offset w)) = gameOver w ∧
  started (fst (kick fuel offset w)) = started w ∧
  matrix (player (fst (kick fuel offset w))) = matrix (player w) ∧
  cur_y (fst (kick fuel offset w)) = cur_y w ∧
  (snd (kick fuel offset w) = inr Drawn →
   collide (arena (fst (kick fuel offset w)))
     (player (fst (kick fuel offset w))) = false).
Proof.
  induction fuel as [|fuel IH]; intros offset w; [by repeat split|].
  destruct w as [a [[x y] m] s g st].
  simpl kick. js_run. destruct (collide a _) eqn:Hhit; [|by repeat split].
  destruct m as [|row0 rest]; [by repeat split|]. simpl.
  destruct (decide (- (offset + _) > _)); [by repeat split|].
  apply IH.
Qed.

Lemma playerRotate_frame fuel w :
  arena (fst (playerRotate fuel w)) = arena w ∧
  score (fst (playerRotate fuel w)) = score w ∧
  gameOver (fst (playerRotate fuel w)) = gameOver w ∧
  started (fst (playerRotate fuel w)) = started w ∧
  cur_y (fst (playerRotate fuel w)) = cur_y w.
Proof.
  unfold playerRotate. js_run.
  destruct (rotate (matrix (player w))) as [e|m']; js_run; [done|].
  destruct (kick_frame fuel 1 (set_matrix m' w)) as (? & ? & ? & ? & _ & ? & _).
  by repeat split.
Qed.

Lemma playerDrop_steady fuel rnd idle w :
  length (arena (fst (playerDrop fuel rnd idle w))) = length (arena w) ∧
  score w ≤ score (fst (playerDrop fuel rnd idle w)).
Proof.
  destruct w as [a [[x y] m] s g st]. unfold playerDrop. js_run.
  destruct g; js_run; [done|].
  unfold cur_y, set_y, set_player. simpl.
  destruct (collide a _); js_run; [|done].
  unfold onArena, cur_y, set_y, set_player, set_arena. simpl.
  pose proof (merge_rows_length_at (Piece (Pos x (y + 1 - 1)) m) a) as Hm.
  destruct (merge _ a) as [a1 [e|[]]]; simpl in *; [by split|].
  set (w1 := World a1 (Piece (Pos x (y + 1 - 1)) m) s false st).
  destruct (sweep_steady idle fuel w1) as (Hl & Hs & _).
  destruct (sweep idle fuel w1) as [w2 [e|[]]]; simpl in *;
    [split; [congruence|done]|].
  destruct (playerReset_steady rnd w2) as [Ha Hsc].
  rewrite Ha, Hsc. split; [congruence | done].
Qed.

Lemma handle_steady fuel e w :
  length (arena (fst (handle fuel e w))) = length (arena w) ∧
  score w ≤ score (fst (handle fuel e w)).
Proof.
  destruct e as [k rnd idle|rnd idle]; simpl; [|apply playerDrop_steady].
  unfold keyListener. js_run. destruct (gameOver w); [done|].
  destruct k.
  - destruct (movePlayer_safe_lemma w (-1)) as (w' & Hrun & Ha & Hs).
    rewrite Hrun. simpl. by rewrite Ha, Hs.
  - destruct (movePlayer_safe_lemma w 1) as (w' & Hrun & Ha & Hs).
    rewrite Hrun. simpl. by rewrite Ha, Hs.
  - apply playerDrop_steady.
  - js_run.
    destruct (playerRotate_frame fuel w) as (Ha & Hs & _).
    destruct (playerRotate fuel w) as [w' [e|r]]; simpl in *; by rewrite Ha, Hs.
  - done.
Qed.

Lemma play_score_grows fuel es : ∀ w,
  length (arena (play fuel es w)) = length (arena w) ∧
  score w ≤ score (play fuel es w).
Proof.
  induction es as [|e es IH]; intros w; [done|].
  simpl. destruct (IH (fst (handle fuel e w))) as [Hl Hs].
  destruct (handle_steady fuel e w) as [Hl1 Hs1].
  split; [congruence | lia].
Qed.

(** ** sweep: one pass, two passes, and boards of width zero *)

(** On a board without zero-width rows a pass ends within twice the height
    plus one steps. It removes every full row, except a full row 0 with no
    full row below it; the removed rows come back zeroed on top, the other
    rows follow in their order, and [setScore] is called once per removed
    row with [rowCount] at 1, 2, 4 and so on. *)
Theorem sweep_pass a fuel :
  Forall (λ row, row ≠ []) a →
  (2 * length a + 1 ≤ fuel)%nat →
  sweepRows fuel a =
  inr ((zeroed <$> clearedRows a) ++ keptRows a,
       callsFrom 1 (length (clearedRows a)),
       2 ^ Z.of_nat (length (clearedRows a))).
Proof. apply sweepRows_spec. Qed.

Lemma sweep_pass_witness :
  sweepRows 9 [nums [0; 1]; nums [1; 1]; nums [2; 0]; nums [3; 3]] =
  inr ([nums [0; 0]; nums [0; 0]; nums [0; 1]; nums [2; 0]], [1; 2], 4).
Proof.
  apply (sweep_pass [nums [0; 1]; nums [1; 1]; nums [2; 0]; nums [3; 3]] 9).
  - repeat constructor; discriminate.
  - simpl. lia.
Defined.

Lemma nothing_full a :
  Forall (λ row, isFull row = false) a →
  clearedRows a = [] ∧ keptRows a = a.
Proof.
  intros Hnone. unfold clearedRows, keptRows.
  destruct (topOnly a) eqn:Htop; [done|]. clear Htop.
  induction Hnone as [|row a Hrow _ [IH1 IH2]]; [done|].
  simpl. rewrite Hrow. simpl. by rewrite IH1, IH2.
Qed.

Lemma swept_rows a :
  Forall (λ row, row ≠ []) a →
  Forall (λ row, row ≠ []) ((zeroed <$> clearedRows a) ++ keptRows a) ∧
  (topOnly a = false →
   Forall (λ row, isFull row = false) ((zeroed <$> clearedRows a) ++ keptRows a)).
Proof.
  intros Hne. unfold clearedRows, keptRows.
  destruct (topOnly a); [by split|].
  assert (∀ f, Forall (λ row : list cell, row ≠ []) (List.filter f a)) as Hf.
  { intros f. apply Forall_forall. intros row Hin%list_elem_of_In.
    apply List.filter_In in Hin as [Hin%list_elem_of_In _].
    by apply (proj1 (Forall_forall _ _) Hne). }
  split.
  - apply Forall_app. split; [|apply Hf].
    apply Forall_fmap. eapply Forall_impl; [apply (Hf isFull)|].
    by intros [|??].
  - intros _. apply Forall_app. split.
    + apply Forall_fmap. eapply Forall_impl; [apply (Hf isFull)|].
      intros row ?. by apply isFull_zeroed.
    + apply Forall_forall. intros row Hin%list_elem_of_In.
      apply List.filter_In in Hin as [_ Hin]. by apply negb_true_iff.
Qed.

(** A second pass right after a pass finds nothing to clear: it returns the
    board as it is and calls [setScore] not at all. *)
Theorem sweep_twice a fuel a' calls final :
  Forall (λ row, row ≠ []) a →
  (2 * length a + 1 ≤ fuel)%nat →
  sweepRows fuel a = inr (a', calls, final) →
  sweepRows fuel a' = inr (a', [], 1).
Proof.
  intros Hne Hfuel Hrun.
  pose proof Hrun as Hshape. apply sweep_loop_shape in Hshape as (Hlen & _ & _).
  rewrite sweepRows_spec in Hrun by done. simplify_eq.
  destruct (swept_rows a Hne) as [Hne' Hnone].
  rewrite sweepRows_spec; [|done | lia].
  destruct (topOnly a) eqn:Htop.
  - unfold clearedRows, keptRows in *. rewrite Htop in *. simpl in *.
    by rewrite Htop.
  - destruct (nothing_full _ (Hnone eq_refl)) as [-> ->]. done.
Qed.

Lemma sweep_twice_witness :
  sweepRows 9 [nums [0; 0]; nums [0; 0]; nums [0; 1]; nums [2; 0]] =
  inr ([nums [0; 0]; nums [0; 0]; nums [0; 1]; nums [2; 0]], [], 1).
Proof.
  apply (sweep_twice [nums [0; 1]; nums [1; 1]; nums [2; 0]; nums [3; 3]]
           9 _ [1; 2] 4).
  - repeat constructor; discriminate.
  - simpl. lia.
  - reflexivity.
Defined.

Lemma delete_replicate {A} (x : A) (n i : nat) :
  (i < n)%nat → delete i (replicate n x) = replicate (n - 1) x.
Proof.
  revert i. induction n as [|n IH]; intros i Hi; [lia|].
  destruct i as [|i]; simpl; [by rewrite Nat.sub_0_r|].
  rewrite IH by lia. destruct n; [lia|]. simpl. by rewrite Nat.sub_0_r.
Qed.

Lemma sweep_loop_width_zero (n : nat) fuel : ∀ rc,
  (2 ≤ n)%nat →
  sweep_loop fuel (replicate n []) (Z.of_nat n - 1) rc = inl OutOfFuel.
Proof.
  induction fuel as [|fuel IH]; intros rc Hn; [done|].
  rewrite sweep_loop_S, decide_True by lia.
  replace (Z.of_nat n - 1) with (Z.of_nat (n - 1)) by lia.
  rewrite idx_nat, lookup_replicate_2 by lia. simpl isFull. cbv iota.
  unfold clearRow, zeroed. simpl length. simpl replicate at 1.
  rewrite Nat2Z.id, delete_replicate by lia.
  replace (@nil cell :: replicate (n - 1) []) with (replicate n (@nil cell))
    by (destruct n; [lia | simpl; by rewrite Nat.sub_0_r]).
  replace (Z.of_nat (n - 1) + 1 - 1) with (Z.of_nat n - 1) by lia.
  by rewrite IH.
Qed.

(** On a board of two or more rows of width zero the pass never ends: an
    empty row counts as full and the row that replaces it is empty
    again. *)
Theorem sweep_never_ends_at_width_zero (n fuel : nat) :
  (2 ≤ n)%nat → sweepRows fuel (replicate n []) = inl OutOfFuel.
Proof.
  intros Hn. unfold sweepRows. rewrite length_replicate.
  by apply sweep_loop_width_zero.
Qed.

Lemma sweep_never_ends_at_width_zero_witness :
  sweepRows 1000 (replicate 3 []) = inl OutOfFuel.
Proof. apply sweep_never_ends_at_width_zero. lia. Defined.

(** ** rotate on any matrix *)

(** [rotate] on a matrix with a first row of [w] cells, ragged matrices
    included: the result has [w] rows, each as long as the input is high,
    and its cell [(i, j)] is the cell [(j, w - 1 - i)] of the input, or
    [undefined] where row [j] of the input is too short to have one. Cells
    of the input beyond column [w] are dropped. *)
Theorem rotate_quarter_turn row0 rest :
  ∃ m', rotate (row0 :: rest) = inr m' ∧
    length m' = length row0 ∧
    rectangular (S (length rest)) m' ∧
    ∀ i j, (i < length row0)%nat → (j < S (length rest))%nat →
      look m' i j =
      Some (default Undef (look (row0 :: rest) j (length row0 - 1 - i))).
Proof.
  set (m := row0 :: rest). eexists. split; [done|].
  split; [by rewrite length_reverse, length_imap|]. split.
  - unfold rectangular. apply Forall_lookup. intros i row Hi.
    apply reverse_lookup_Some in Hi as [Hi _].
    rewrite list_lookup_imap in Hi.
    apply fmap_Some in Hi as (? & _ & ->). by rewrite length_fmap.
  - intros i j Hi Hj. unfold look.
    rewrite reverse_lookup by (rewrite length_imap; lia).
    rewrite length_imap, list_lookup_imap.
    destruct (lookup_lt_is_Some_2 row0 (length row0 - S i)) as [v0 Hv0]; [lia|].
    assert (j < length m)%nat as Hjm by (simpl; lia). clearbody m.
    rewrite Hv0. simpl. rewrite list_lookup_fmap.
    destruct (lookup_lt_is_Some_2 m j Hjm) as [row Hrow]. rewrite Hrow. simpl.
    by replace (length row0 - 1 - i)%nat with (length row0 - S i)%nat by lia.
Qed.

Lemma rotate_wellShaped m :
  wellShaped m → ∃ m', rotate m = inr m' ∧ wellShaped m'.
Proof.
  intros (w & Hw & Hne & Hrect & Hnum).
  destruct (rotate_rectangular m w Hne Hrect) as (m' & Hrot & Hlen & Hrect' & Hcell).
  exists m'. split; [done|]. exists (length m).
  split; [destruct m; [done | simpl; lia]|].
  split; [intros ->; simpl in Hlen; lia|]. split; [done|].
  apply Forall_lookup. intros i row Hi. apply Forall_lookup. intros j v Hj.
  assert (i < w)%nat as Hiw by (apply lookup_lt_Some in Hi; lia).
  assert (j < length m)%nat as Hjm.
  { pose proof (Forall_lookup_1 _ _ _ _ Hrect' Hi) as Hl. simpl in Hl.
    apply lookup_lt_Some in Hj. lia. }
  specialize (Hcell i j Hiw Hjm). unfold look in Hcell at 1.
  rewrite Hi in Hcell. simpl in Hcell. rewrite Hj in Hcell.
  unfold look in Hcell. symmetry in Hcell.
  apply bind_Some in Hcell as (r & Hr & Hv).
  pose proof (Forall_lookup_1 _ _ _ _ Hnum Hr) as Hrow.
  apply (Forall_lookup_1 _ _ _ _ Hrow Hv).
Qed.

(** ** playerRotate *)

Lemma collide_no_rows a o : collide a (Piece o []) = false.
Proof. done. Qed.

Lemma kick_only_fuel fuel : ∀ offset w e,
  snd (kick fuel offset w) = inl e → e = OutOfFuel.
Proof.
  induction fuel as [|fuel IH]; intros offset w e; [by intros [= <-]|].
  destruct w as [a [[x y] m] s g st].
  simpl kick. js_run. destruct m as [|row0 rest].
  - by rewrite collide_no_rows.
  - destruct (collide a _); [|done]. simpl.
    destruct (decide (- (offset + _) > _)); [done|]. apply IH.
Qed.

(** [playerRotate] on a piece with at least one row ends within twice the
    number of rows plus four steps, at [draw()] or at the [return] in the
    loop. It changes nothing but the matrix and the column of the piece:
    the matrix is the rotated one on both ways out, and when [draw()] is
    reached the piece collides with nothing. *)
Theorem playerRotate_outcome fuel w m' :
  rotate (matrix (player w)) = inr m' →
  (2 * length (matrix (player w)) + 4 ≤ fuel)%nat →
  ∃ w' e, playerRotate fuel w = (w', inr e) ∧
    arena w' = arena w ∧ score w' = score w ∧
    gameOver w' = gameOver w ∧ started w' = started w ∧
    matrix (player w') = m' ∧ cur_y w' = cur_y w ∧
    (e = Drawn → collide (arena w') (player w') = false).
Proof.
  intros Hrot Hfuel.
  pose proof (playerRotate_ends fuel w Hfuel) as Hends.
  unfold playerRotate in *. revert Hends. js_run. rewrite Hrot. js_run.
  intros Hends.
  destruct (kick_frame fuel 1 (set_matrix m' w))
    as (Ha & Hs & Hg & Hst & Hm & Hy & Hfree).
  pose proof (kick_only_fuel fuel 1 (set_matrix m' w)) as Honly.
  destruct (kick fuel 1 (set_matrix m' w)) as [w' [e|e]] eqn:Hk; simpl in *.
  - specialize (Honly e eq_refl). by subst e.
  - exists w', e. repeat (split; [done|]). intros ->. by apply Hfree.
Qed.

Lemma playerRotate_outcome_witness :
  ∃ w' e, playerRotate 6 barOnFloor = (w', inr e) ∧
    arena w' = emptyArena ∧ score w' = 0 ∧
    gameOver w' = false ∧ started w' = true ∧
    matrix (player w') = [nums [1]; nums [1]; nums [1]; nums [1]] ∧
    cur_y w' = 19 ∧
    (e = Drawn → collide (arena w') (player w') = false).
Proof.
  apply (playerRotate_outcome 6 barOnFloor
           [nums [1]; nums [1]; nums [1]; nums [1]]).
  - reflexivity.
  - simpl. lia.
Defined.

(** ** playerReset: when the next piece finds room *)

Lemma shapes_wellShaped rnd m : shapes !! S rnd = Some m → wellShaped m.
Proof.
  intros H.
  destruct rnd as [|[|[|[|[|[|[|?]]]]]]]; cbv in H; simplify_eq;
    [exists 4%nat | exists 3%nat | exists 3%nat | exists 2%nat
     | exists 3%nat | exists 3%nat | exists 3%nat];
    (split; [lia|]); (split; [done|]);
    (split; [by repeat constructor | repeat constructor; discriminate]).
Qed.

Lemma spawn_cells a m :
  (∀ r c, 0 ≤ r < 2 → 3 ≤ c < 7 → cellAt a r c = Num 0) →
  (length m ≤ 2)%nat →
  Forall (λ row, 3 ≤ centredX m ∧ centredX m + Z.of_nat (length row) ≤ 7) m →
  collide a (Piece (Pos (centredX m) 0) m) = false.
Proof.
  intros Hfree Hh Hw. apply collide_false.
  intros y x v (row & Hy & Hx) _. simpl in Hy.
  pose proof (Forall_lookup_1 _ _ _ _ Hw Hy) as Hrow. simpl in Hrow.
  apply lookup_lt_Some in Hy, Hx.
  apply Hfree; unfold boardRow, boardCol; simpl; lia.
Qed.

(** On a board whose cells in rows 0 and 1, columns 3 to 6, are all zero,
    [playerReset] does not end the game, whichever of the seven shapes is
    drawn: it sets the new piece centred on row 0 and touches nothing
    else. *)
Theorem playerReset_finds_room w rnd :
  (rnd < 7)%nat →
  (∀ r c, 0 ≤ r < 2 → 3 ≤ c < 7 → cellAt (arena w) r c = Num 0) →
  ∃ m, shapes !! S rnd = Some m ∧
    playerReset rnd w = (set_player (Piece (Pos (centredX m) 0) m) w, inr tt).
Proof.
  intros Hrnd Hfree.
  destruct (lookup_lt_is_Some_2 shapes (S rnd)) as [m Hm]; [simpl; lia|].
  exists m. split; [done|]. rewrite (playerReset_spec w rnd m Hm). simpl.
  rewrite (spawn_cells (arena w) m Hfree); [by destruct w| |].
  - destruct rnd as [|[|[|[|[|[|[|?]]]]]]]; cbv in Hm; simplify_eq; simpl; lia.
  - destruct rnd as [|[|[|[|[|[|[|?]]]]]]]; cbv in Hm; simplify_eq;
      repeat constructor; vm_compute; congruence.
Qed.

Lemma playerReset_finds_room_witness :
  ∃ m, shapes !! 6%nat = Some m ∧
    playerReset 5 barOnFloor =
    (set_player (Piece (Pos (centredX m) 0) m) barOnFloor, inr tt).
Proof.
  apply (playerReset_finds_room barOnFloor 5); [lia|].
  intros r c Hr Hc. apply neq0_false.
  assert (r = 0 ∨ r = 1) as [-> | ->] by lia;
    (assert (c = 3 ∨ c = 4 ∨ c = 5 ∨ c = 6) as [-> | [-> | [-> | ->]]] by lia);
    reflexivity.
Defined.

(** ** The piece along a game *)

Lemma rotate_gamePiece m :
  gamePiece m → ∃ m', rotate m = inr m' ∧ gamePiece m'.
Proof.
  intros ((w & Hw & Hne & Hrect & Hnum) & Hh & Hwd).
  destruct (rotate_wellShaped m) as (m' & Hrot & Hshape); [by exists w|].
  destruct (rotate_rectangular m w Hne Hrect) as (m'' & Hrot' & Hlen & Hrect' & _).
  rewrite Hrot in Hrot'. injection Hrot' as <-.
  exists m'. split; [done|]. split; [done|].
  assert (shapeWidth m = Z.of_nat w) as Hsw.
  { destruct m as [|row0 rest]; [done|]. simpl.
    apply Forall_cons in Hrect as [-> _]. done. }
  split; [lia|].
  pose proof (rotate_width m m' Hrot). lia.
Qed.

Lemma shapes_gamePiece rnd m : shapes !! S rnd = Some m → gamePiece m.
Proof.
  intros H. split; [by eapply shapes_wellShaped|].
  destruct rnd as [|[|[|[|[|[|[|?]]]]]]]; cbv in H; simplify_eq;
    (split; [simpl; lia | done]).
Qed.

Lemma playerReset_matrix rnd w :
  gamePiece (matrix (player w)) →
  gamePiece (matrix (player (fst (playerReset rnd w)))).
Proof.
  intros Hw. destruct (shapes !! S rnd) as [m|] eqn:Hm.
  - rewrite (playerReset_spec w rnd m Hm). simpl. by eapply shapes_gamePiece.
  - unfold playerReset, pickShape. by rewrite Hm.
Qed.

Lemma playerDrop_matrix fuel rnd idle w :
  gamePiece (matrix (player w)) →
  gamePiece (matrix (player (fst (playerDrop fuel rnd idle w)))).
Proof.
  destruct w as [a [[x y] m] s g st]. simpl. intros Hw.
  unfold playerDrop. js_run. destruct g; js_run; [done|].
  unfold cur_y, set_y, set_player. simpl.
  destruct (collide a _); js_run; [|done].
  unfold onArena, cur_y, set_y, set_player, set_arena. simpl.
  destruct (merge _ a) as [a1 [e|[]]]; simpl in *; [done|].
  set (w1 := World a1 (Piece (Pos x (y + 1 - 1)) m) s false st).
  destruct (sweep_steady idle fuel w1) as (_ & _ & Hp & _).
  destruct (sweep idle fuel w1) as [w2 [e|[]]]; simpl in *;
    [by rewrite Hp|].
  apply playerReset_matrix. by rewrite Hp.
Qed.

Lemma playerRotate_matrix fuel w :
  gamePiece (matrix (player w)) →
  gamePiece (matrix (player (fst (playerRotate fuel w)))).
Proof.
  intros Hw. destruct (rotate_gamePiece _ Hw) as (m' & Hrot & Hm').
  unfold playerRotate. js_run. rewrite Hrot. js_run.
  destruct (kick_frame fuel 1 (set_matrix m' w)) as (_ & _ & _ & _ & -> & _).
  done.
Qed.

Lemma handle_matrix fuel e w :
  gamePiece (matrix (player w)) →
  gamePiece (matrix (player (fst (handle fuel e w)))).
Proof.
  intros Hw.
  destruct e as [k rnd idle|rnd idle]; simpl; [|by apply playerDrop_matrix].
  unfold keyListener. js_run. destruct (gameOver w); [done|].
  destruct k.
  - rewrite movePlayer_run. simpl. destruct (collide _ _); [done|]. by destruct w.
  - rewrite movePlayer_run. simpl. destruct (collide _ _); [done|]. by destruct w.
  - by apply playerDrop_matrix.
  - js_run. pose proof (playerRotate_matrix fuel w Hw) as Hr.
    by destruct (playerRotate fuel w) as [w' [e|r]].
  - done.
Qed.

Lemma play_matrix fuel es : ∀ w,
  gamePiece (matrix (player w)) →
  gamePiece (matrix (player (play fuel es w))).
Proof.
  induction es as [|e es IH]; intros w Hw; [done|].
  simpl. by apply IH, handle_matrix.
Qed.

(** ** A piece that sticks out below the board *)

Lemma truthy_neq0 v : truthy v = true → neq0 v = true.
Proof. by destruct v. Qed.

Lemma playerDrop_stuck fuel rnd idle w :
  gameOver w = false →
  (∀ (y x : nat) v, shapeCell (player w) y x v → neq0 v = true →
     0 ≤ boardCol (player w) x) →
  (∃ (y x : nat) v, shapeCell (player w) y x v ∧ truthy v = true ∧
     Z.of_nat (length (arena w)) ≤ boardRow (player w) y) →
  ∃ a', playerDrop fuel rnd idle w = (set_arena a' w, inl TypeError) ∧
    length a' = length (arena w).
Proof.
  destruct w as [a [[x y] m] s g st]. simpl.
  intros -> Hcol (j & i & v & (row & Hj & Hi) & Ht & Hout).
  unfold boardRow, boardCol in *. simpl in *.
  unfold playerDrop. js_run. unfold cur_y, set_y, set_player. simpl.
  assert (collide a (Piece (Pos x (y + 1)) m) = true) as ->.
  { apply collide_true. exists j, i, v. split; [by exists row|].
    split; [done|]. unfold boardRow. simpl.
    rewrite cellAt_row_outside; [done | lia]. }
  js_run. unfold onArena, cur_y, set_y, set_player, set_arena. simpl.
  replace (y + 1 - 1) with y by lia.
  pose proof (merge_rows_length_at (Piece (Pos x y) m) a) as Hlen.
  assert (snd (merge (Piece (Pos x y) m) a) = inl TypeError) as Hthrow.
  { apply merge_rows_throws.
    - intros j' i' r' v' Hj' Hi' Hv'. apply (Hcol j' i' v'); [by exists r' | done].
    - exists j, i, row, v. repeat (split; [done|]).
      split; [by apply truthy_neq0 | simpl; lia]. }
  destruct (merge _ a) as [a1 r]. simpl in *. subst r. by exists a1.
Qed.

(** A piece with a non-zero cell below the last row of the board (and no
    written cell at a negative column) is never locked: every call of
    [playerDrop], from the timer or the down key, throws a [TypeError] out
    of [merge] before [sweep] and [playerReset] run. The piece, the score
    and the flags stay as they are, so the next call throws again. *)
Theorem playerDrop_wedged fuel w es :
  gameOver w = false →
  (∀ (y x : nat) v, shapeCell (player w) y x v → neq0 v = true →
     0 ≤ boardCol (player w) x) →
  (∃ (y x : nat) v, shapeCell (player w) y x v ∧ truthy v = true ∧
     Z.of_nat (length (arena w)) ≤ boardRow (player w) y) →
  Forall drops es →
  player (play fuel es w) = player w ∧
  score (play fuel es w) = score w ∧
  gameOver (play fuel es w) = false ∧
  started (play fuel es w) = started w ∧
  ∀ rnd idle, snd (playerDrop fuel rnd idle (play fuel es w)) = inl TypeError.
Proof.
  intros Hrun Hcol Hout Hes. revert w Hrun Hcol Hout.
  induction Hes as [|e es He _ IH]; intros w Hrun Hcol Hout.
  - simpl. repeat (split; [done|]). intros rnd idle.
    by destruct (playerDrop_stuck fuel rnd idle w Hrun Hcol Hout) as (a' & -> & _).
  - simpl.
    assert (∃ a', handle fuel e w = (set_arena a' w, inl TypeError) ∧
              length a' = length (arena w)) as (a' & -> & Hlen).
    { destruct e as [[] rnd idle|rnd idle]; try done; simpl.
      - unfold keyListener. js_run. rewrite Hrun.
        by apply playerDrop_stuck.
      - by apply playerDrop_stuck. }
    simpl. destruct (IH (set_arena a' w)) as (Hp & Hs & Hg & Hst & Hthrow).
    + done.
    + done.
    + simpl. by rewrite Hlen.
    + by rewrite Hp, Hs, Hg, Hst.
Qed.

Lemma playerDrop_wedged_witness :
  player (play 41 floorTurn barOnFloor) =
    Piece (Pos 2 19) [nums [1]; nums [1]; nums [1]; nums [1]] ∧
  player (play 41 (replicate 5 (Tick 0 true)) (play 41 floorTurn barOnFloor)) =
    player (play 41 floorTurn barOnFloor) ∧
  score (play 41 (replicate 5 (Tick 0 true)) (play 41 floorTurn barOnFloor)) =
    score (play 41 floorTurn barOnFloor) ∧
  gameOver (play 41 (replicate 5 (Tick 0 true)) (play 41 floorTurn barOnFloor)) =
    false ∧
  started (play 41 (replicate 5 (Tick 0 true)) (play 41 floorTurn barOnFloor)) =
    started (play 41 floorTurn barOnFloor) ∧
  ∀ rnd idle,
    snd (playerDrop 41 rnd idle
           (play 41 (replicate 5 (Tick 0 true)) (play 41 floorTurn barOnFloor)))
    = inl TypeError.
Proof.
  split; [by vm_compute|].
  apply (playerDrop_wedged 41 (play 41 floorTurn barOnFloor)
           (replicate 5 (Tick 0 true))).
  - by vm_compute.
  - intros y x v _ _. unfold boardCol.
    change (pos_x (pos (player (play 41 floorTurn barOnFloor)))) with 2. lia.
  - exists 1%nat, 0%nat, (Num 1). split; [|by vm_compute].
    exists (nums [1]). by vm_compute.
  - repeat constructor.
Defined.

(** A game does not keep the board ten cells wide: a rotation at the right
    wall that no kick resolves leaves the bar with a cell beyond column 9,
    and the tick that follows merges it there, which lengthens the row. *)
Theorem play_can_widen_a_row :
  ¬ ∀ fuel rnd es w0,
      startGame rnd = inr w0 → rectangular 10 (arena (play fuel es w0)).
Proof.
  intros Hall.
  set (w0 := World emptyArena (initialPlayer [nums [1; 1; 1; 1]]) 0 false true).
  assert (arena (play 41 wallTurn w0) !! 0%nat =
          Some (nums [0; 0; 0; 0; 0; 0; 0; 1; 1; 1; 1])) as Hrow
    by (by vm_compute).
  pose proof (Forall_lookup_1 _ _ _ _
                (Hall 41%nat 0%nat wallTurn w0 eq_refl) Hrow) as Hlen.
  by vm_compute in Hlen.
Qed.

(** ** The score of a pass, in general *)

(** On a board without zero-width rows, a pass that clears [k] rows ends
    and adds nothing for [k = 0]; for [k ≥ 1] it adds [k * 15 * 2^k], or
    [15 + (k - 1) * 15 * 2^k] when React runs the first updater at its call.
    One cleared row therefore gives 15 or 30, and from two rows on the sum
    is above [15 * (2^k - 1)], the total of awards doubling from 15. The
    piece and the flags are not touched. *)
Theorem sweep_adds idle w fuel :
  Forall (λ row, row ≠ []) (arena w) →
  (2 * length (arena w) + 1 ≤ fuel)%nat →
  let k := Z.of_nat (length (clearedRows (arena w))) in
  ∃ w', sweep idle fuel w = (w', inr tt) ∧
    player w' = player w ∧ gameOver w' = gameOver w ∧
    started w' = started w ∧
    score w' - score w =
      (if decide (k = 0) then 0
       else (if idle then 15 else 15 * 2 ^ k) + (k - 1) * (15 * 2 ^ k)) ∧
    (2 ≤ k → 15 * (2 ^ k - 1) < score w' - score w).
Proof.
  intros Hne Hfuel k. rewrite sweep_spec by done.
  eexists. split; [done|]. simpl. repeat (split; [done|]).
  unfold k. destruct (length (clearedRows (arena w))) as [|n] eqn:Hn.
  - simpl. split; lia.
  - rewrite decide_False by lia. unfold passScore.
    replace (Z.of_nat (S n) - 1) with (Z.of_nat n) by lia.
    split; [destruct idle; lia|]. intros Hk.
    pose proof (passScore_above_cascade idle (S n) ltac:(lia)) as Habove.
    rewrite cascadeTotal_closed in Habove. unfold passScore in Habove.
    destruct idle; lia.
Qed.

Lemma sweep_adds_witness :
  ∃ w', sweep true 9
          (World [nums [0; 1]; nums [1; 1]; nums [2; 2]; nums [3; 3]]
             (Piece (Pos 0 0) []) 7 false true) = (w', inr tt) ∧
    player w' = Piece (Pos 0 0) [] ∧ gameOver w' = false ∧
    started w' = true ∧
    score w' - 7 = 255 ∧
    (2 ≤ 3 → 15 * (2 ^ 3 - 1) < score w' - 7).
Proof.
  apply (sweep_adds true
           (World [nums [0; 1]; nums [1; 1]; nums [2; 2]; nums [3; 3]]
              (Piece (Pos 0 0) []) 7 false true) 9).
  - repeat constructor; discriminate.
  - simpl. lia.
Defined.

(** ** playerDrop at a piece that can go no further *)

Lemma emptyArena_nonempty : Forall (λ row : list cell, row ≠ []) emptyArena.
Proof.
  apply Forall_forall. intros row [-> _]%elem_of_replicate. discriminate.
Qed.

(** While the game runs with a piece of numbers that collides with nothing,
    on a board without zero-width rows, [playerDrop] (from the timer or
    the down key) moves the piece one row down when it is free there.
    Otherwise it merges the piece where it is, sweeps, which adds the score
    of the pass, and sets the drawn shape centred on row 0; [gameOver] is
    raised and [started] cleared exactly when that new piece collides. *)
Theorem playerDrop_falls_or_locks w fuel rnd idle m :
  gameOver w = false →
  collide (arena w) (player w) = false →
  numeric (matrix (player w)) →
  Forall (λ row, row ≠ []) (arena w) →
  (2 * length (arena w) + 1 ≤ fuel)%nat →
  shapes !! S rnd = Some m →
  handle fuel (Tick rnd idle) w = playerDrop fuel rnd idle w ∧
  handle fuel (Key ArrowDown rnd idle) w = playerDrop fuel rnd idle w ∧
  let moved := Piece (Pos (cur_x w) (cur_y w + 1)) (matrix (player w)) in
  if collide (arena w) moved then
    ∃ locked w1,
      merge (player w) (arena w) = (locked, inr tt) ∧
      sweep idle fuel (set_arena locked w) = (w1, inr tt) ∧
      let swept := (zeroed <$> clearedRows locked) ++ keptRows locked in
      let fresh := Piece (Pos (centredX m) 0) m in
      arena w1 = swept ∧
      score w1 = score w + passScore idle (length (clearedRows locked)) ∧
      playerDrop fuel rnd idle w =
      (World swept fresh (score w1)
         (collide swept fresh)
         (if collide swept fresh then false else started w), inr tt)
  else playerDrop fuel rnd idle w = (set_player moved w, inr tt).
Proof. apply playerDrop_spec. Qed.

Lemma playerDrop_falls_or_locks_witness :
  handle 41 (Tick 0 true) barOnFloor = playerDrop 41 0 true barOnFloor ∧
  handle 41 (Key ArrowDown 0 true) barOnFloor = playerDrop 41 0 true barOnFloor ∧
  let moved := Piece (Pos (cur_x barOnFloor) (cur_y barOnFloor + 1))
                 (matrix (player barOnFloor)) in
  if collide (arena barOnFloor) moved then
    ∃ locked w1,
      merge (player barOnFloor) (arena barOnFloor) = (locked, inr tt) ∧
      sweep true 41 (set_arena locked barOnFloor) = (w1, inr tt) ∧
      let swept := (zeroed <$> clearedRows locked) ++ keptRows locked in
      let fresh := Piece (Pos (centredX [nums [1; 1; 1; 1]]) 0)
                     [nums [1; 1; 1; 1]] in
      arena w1 = swept ∧
      score w1 = score barOnFloor + passScore true (length (clearedRows locked)) ∧
      playerDrop 41 0 true barOnFloor =
      (World swept fresh (score w1)
         (collide swept fresh)
         (if collide swept fresh then false else started barOnFloor), inr tt)
  else playerDrop 41 0 true barOnFloor = (set_player moved barOnFloor, inr tt).
Proof.
  apply (playerDrop_falls_or_locks barOnFloor 41 0 true [nums [1; 1; 1; 1]]).
  - reflexivity.
  - reflexivity.
  - repeat constructor; discriminate.
  - apply emptyArena_nonempty.
  - simpl. lia.
  - reflexivity.
Defined.

(** ** Who may decrypt: the access list of the contract *)

Section access.
Context `{FHE}.
Variable this : address.

Lemma exec_allowed st c h a :
  (h, a) ∈ allowed (exec this st c) ↔
  (h, a) ∈ allowed st ∨
  (fromExternal (call_sender c) (call_score c) (call_proof c) = Some h ∧
   (a = this ∨ a = call_sender c)).
Proof.
  unfold exec, uploadScore.
  destruct (fromExternal (call_sender c) (call_score c) (call_proof c))
    as [h'|]; simpl.
  - rewrite !elem_of_union, !elem_of_singleton. split.
    + intros [Heq|[Heq|?]]; [injection Heq as -> -> ..| |by left].
      * right. split; [done | by right].
      * injection Heq as -> ->. right. split; [done | by left].
    + intros [?|[Heq [-> | ->]]]; [by right; right | |];
        injection Heq as ->; [right|]; by left.
  - split; [by left|]. by intros [?|[? _]].
Qed.

Lemma execAll_allowed cs : ∀ st h a,
  (h, a) ∈ allowed (execAll this st cs) ↔
  (h, a) ∈ allowed st ∨
  ∃ c, c ∈ cs ∧
    fromExternal (call_sender c) (call_score c) (call_proof c) = Some h ∧
    (a = this ∨ a = call_sender c).
Proof.
  induction cs as [|c cs IH]; intros st h a.
  - simpl. split; [by left|]. intros [?|(c & Hc & _)]; [done|].
    by apply elem_of_nil in Hc.
  - unfold execAll in *. simpl. rewrite IH, exec_allowed. split.
    + intros [[?|?]|(c' & ? & ?)].
      * by left.
      * right. exists c. split; [by left | done].
      * right. exists c'. split; [by right | done].
    + intros [?|(c' & Hin & ?)]; [by left; left|].
      apply elem_of_cons in Hin as [->|?].
      * left. by right.
      * right. by exists c'.
Qed.

(** After any sequence of [uploadScore] transactions, a party has access
    to a handle only if it had it before, or if some accepted upload
    produced this handle and the party is the contract itself or the sender
    of that upload; and each of these does give access. No entry of the
    list is ever removed. *)
Theorem access_only_by_upload cs : ∀ st h a,
  (h, a) ∈ allowed (execAll this st cs) ↔
  (h, a) ∈ allowed st ∨
  ∃ c, c ∈ cs ∧
    fromExternal (call_sender c) (call_score c) (call_proof c) = Some h ∧
    (a = this ∨ a = call_sender c).
Proof. apply execAll_allowed. Qed.

(** If every stored handle can be read by the player it is stored for and
    by the contract, this is still so after any sequence of [uploadScore]
    transactions: whatever [fetchScores] returns for a player, that player
    has access to. *)
Theorem stored_scores_accessible cs st :
  (∀ p h, h ∈ fetchScores st p →
     (h, p) ∈ allowed st ∧ (h, this) ∈ allowed st) →
  ∀ p h, h ∈ fetchScores (execAll this st cs) p →
    (h, p) ∈ allowed (execAll this st cs) ∧
    (h, this) ∈ allowed (execAll this st cs).
Proof.
  intros Hinv p h. rewrite execAll_fetch, elem_of_app.
  intros [Hold|Hnew].
  - destruct (Hinv p h Hold).
    split; apply execAll_allowed; by left.
  - apply list_elem_of_omap in Hnew as (c & Hc & Hst). unfold stored in Hst.
    case_decide as Hp; [|done]. subst p.
    split; apply execAll_allowed; right; exists c; eauto.
Qed.
End access.

Lemma stored_scores_accessible_witness :
  (100%N, 7%N) ∈ allowed
        (@execAll (Build_FHE (λ _ e _, Some e)) 1%N (Chain ∅ ∅)
           [Call 7%N 100%N []; Call 8%N 50%N []; Call 7%N 120%N []]) ∧
  (100%N, 1%N) ∈ allowed
        (@execAll (Build_FHE (λ _ e _, Some e)) 1%N (Chain ∅ ∅)
           [Call 7%N 100%N []; Call 8%N 50%N []; Call 7%N 120%N []]).
Proof.
  apply (@stored_scores_accessible (Build_FHE (λ _ e _, Some e)) 1%N).
  - intros p h Hin. unfold fetchScores, scoresOf in Hin. simpl in Hin.
    rewrite lookup_empty in Hin. simpl in Hin. by apply elem_of_nil in Hin.
  - assert (fetchScores
              (@execAll (Build_FHE (λ _ e _, Some e)) 1%N (Chain ∅ ∅)
                 [Call 7%N 100%N []; Call 8%N 50%N []; Call 7%N 120%N []]) 7%N
            = [100%N; 120%N]) as -> by (by vm_compute).
    by left.
Defined.

(** ** The hook and the Submit button *)

(** Unfold the callbacks of the hook and run them on their state. *)
Ltac hook_run :=
  unfold Hook.uploadScore, Hook.handleSubmitScore, Hook.onHook,
    Hook.tryFinally, Hook.tryCatch, Hook.call, Hook.setStatus,
    Hook.setIsWorking, Hook.setFeedbackMsg, mbind, Hook.act_bind, mret,
    Hook.act_ret;
  simpl.

(** The same for the page, leaving the call into the hook folded. *)
Ltac page_run :=
  unfold Hook.handleSubmitScore, Hook.onHook, Hook.tryCatch, Hook.call,
    Hook.setFeedbackMsg, mbind, Hook.act_bind, mret, Hook.act_ret;
  cbn -[Hook.uploadScore].

Lemma canUpload_true h :
  Hook.canUpload h = true →
  Hook.isWorking h = false ∧ Hook.instance h = true ∧
  Hook.ethersSigner h = true ∧ ∃ abi, Hook.tetrisContract h = Some abi.
Proof.
  unfold Hook.canUpload, Hook.contractReady, Hook.signerReady.
  destruct h as [[abi|] [] [] ? [] ? ?]; simpl; try done. eauto.
Qed.

Lemma canUpload_false h :
  Hook.canUpload h = false →
  Hook.isWorking h || negb (Hook.canUpload h) = true.
Proof. intros ->. by destruct (Hook.isWorking h). Qed.

Lemma getContract_write h :
  Hook.canUpload h = true → Hook.getContract Hook.Write h = Hook.tetrisContract h.
Proof.
  intros (_ & _ & Hs & abi & Hc)%canUpload_true.
  unfold Hook.getContract, Hook.contractReady. by rewrite Hc, Hs.
Qed.

(** The state and the outcome of [uploadScore] once the guard is passed, by
    what the services answer. *)
Lemma uploadScore_run io points h :
  Hook.canUpload h = true →
  let put t l :=
    Hook.HookState (Hook.tetrisContract h) (Hook.instance h)
      (Hook.ethersSigner h) (Hook.ethersReadonlyProvider h) false t
      (Hook.log h ++ l) in
  Hook.uploadScore io points h =
  (match Hook.getEncryptionType io h "uploadScore" with
   | Hook.Throws e => put (Hook.Failed e) []
   | Hook.Returns (method0, error) =>
     match Hook.named method0 with
     | None =>
         put (match error with
              | Some e => Hook.AbiProblem e
              | None => Hook.TypeNotFound
              end) []
     | Some method =>
       let l1 := [Hook.EncryptWith method points] in
       match Hook.encryptWith io method points with
       | Hook.Throws e => put (Hook.Failed e) l1
       | Hook.Returns None => put Hook.EncryptionFailed l1
       | Hook.Returns (Some enc) =>
         let l2 := l1 ++ [Hook.BuildParams] in
         match Hook.buildParamsFromAbi io enc with
         | Hook.Throws e => put (Hook.Failed e) l2
         | Hook.Returns params =>
           let l3 := l2 ++ [Hook.SendUploadScore] in
           match Hook.sendUploadScore io params with
           | Hook.Throws e => put (Hook.Failed e) l3
           | Hook.Returns tx =>
             let l4 := l3 ++ [Hook.WaitTx] in
             match Hook.waitTx io tx with
             | Hook.Throws e => put (Hook.Failed e) l4
             | Hook.Returns _ =>
               match Hook.reloadScores io (Hook.log h ++ l4) with
               | Hook.Throws e => put (Hook.Failed e) (l4 ++ [Hook.ReloadScores])
               | Hook.Returns _ =>
                   put (Hook.Submitted points) (l4 ++ [Hook.ReloadScores])
               end
             end
           end
         end
       end
     end
   end, Hook.Returns tt).
Proof.
  intros Hcan put. pose proof (getContract_write h Hcan) as Hwrite.
  destruct (canUpload_true h Hcan) as (Hw & _ & _ & abi & Hc).
  unfold Hook.uploadScore. rewrite Hcan, Hw, Hwrite, Hc. hook_run.
  unfold put. rewrite Hc.
  destruct (Hook.getEncryptionType io h "uploadScore") as [[method0 error]|e];
    simpl; [|by rewrite app_nil_r].
  destruct (Hook.named method0) as [method|]; simpl; [|by rewrite app_nil_r].
  destruct (Hook.encryptWith io method points) as [[enc|]|e]; simpl; try done.
  destruct (Hook.buildParamsFromAbi io enc) as [params|e]; simpl;
    [|by rewrite <- !app_assoc].
  destruct (Hook.sendUploadScore io params) as [tx|e]; simpl;
    [|by rewrite <- !app_assoc].
  destruct (Hook.waitTx io tx) as [[]|e]; simpl; [|by rewrite <- !app_assoc].
  rewrite <- !app_assoc. simpl.
  by destruct (Hook.reloadScores io _) as [[]|e].
Qed.

Lemma uploadScore_put io points h :
  Hook.canUpload h = true →
  ∃ t l,
    Hook.uploadScore io points h =
    (Hook.HookState (Hook.tetrisContract h) (Hook.instance h)
       (Hook.ethersSigner h) (Hook.ethersReadonlyProvider h) false t
       (Hook.log h ++ l), Hook.Returns tt).
Proof.
  intros Hcan. rewrite uploadScore_run by done. simpl.
  repeat case_match; eauto.
Qed.

Lemma hook_uploadScore_settles_lemma io points h :
  ∃ h', Hook.uploadScore io points h = (h', Hook.Returns tt) ∧
    (Hook.canUpload h = false → h' = h) ∧
    (Hook.canUpload h = true →
     Hook.isWorking h' = false ∧ Hook.canUpload h' = true).
Proof.
  destruct (Hook.canUpload h) eqn:Hcan.
  - destruct (uploadScore_put io points h Hcan) as (t & l & ->).
    eexists. split; [done|]. split; [done|]. intros _.
    destruct (canUpload_true h Hcan) as (_ & Hi & Hs & abi & Hc).
    unfold Hook.canUpload, Hook.contractReady, Hook.signerReady. simpl.
    by rewrite Hc, Hi, Hs.
  - exists h. unfold Hook.uploadScore. rewrite canUpload_false by done.
    by repeat split.
Qed.

(** [uploadScore] of the hook never throws. When the guard holds it back it
    changes nothing; otherwise, on every way out, [isWorking] is false
    again and the hook can upload once more. *)
Theorem hook_uploadScore_settles io points h :
  ∃ h', Hook.uploadScore io points h = (h', Hook.Returns tt) ∧
    (Hook.canUpload h = false → h' = h) ∧
    (Hook.canUpload h = true →
     Hook.isWorking h' = false ∧ Hook.canUpload h' = true).
Proof. apply hook_uploadScore_settles_lemma. Qed.

(** The text [No signer or contract instance] is never set: past the
    guard, [getContract("write")] always returns a contract. *)
Theorem hook_no_signer_branch_dead io points h :
  Hook.status (fst (Hook.uploadScore io points h)) = Hook.NoSignerOrContract →
  Hook.canUpload h = false ∧ Hook.status h = Hook.NoSignerOrContract.
Proof.
  destruct (Hook.canUpload h) eqn:Hcan.
  - rewrite uploadScore_run by done. simpl. repeat case_match; done.
  - unfold Hook.uploadScore. rewrite canUpload_false by done. simpl. by split.
Qed.

Lemma hook_no_signer_branch_dead_witness :
  Hook.canUpload
    (Hook.HookState None false false false false Hook.NoSignerOrContract [])
    = false ∧
  Hook.status
    (Hook.HookState None false false false false Hook.NoSignerOrContract [])
    = Hook.NoSignerOrContract.
Proof.
  apply (hook_no_signer_branch_dead
           (Hook.Services (λ _, Hook.Returns None) (λ _ _, Hook.Returns None)
              Hook.Returns Hook.Returns (λ _, Hook.Returns tt)
              (λ _, Hook.Returns tt)) 0).
  reflexivity.
Defined.

(** Past the guard, the status ends as [Score (points) successfully
    submitted!] exactly when the method was found, the encryption gave a
    ciphertext, the transaction was sent and confirmed, and the reload of
    the scores did not throw. When the transaction is confirmed and the
    reload throws, the status ends as [uploadScore() failed: ...]. *)
Theorem hook_submitted_iff io points h :
  Hook.canUpload h = true →
  (Hook.status (fst (Hook.uploadScore io points h)) = Hook.Submitted points ↔
   ∃ method0 error method enc params tx,
     Hook.getEncryptionType io h "uploadScore" = Hook.Returns (method0, error) ∧
     Hook.named method0 = Some method ∧
     Hook.encryptWith io method points = Hook.Returns (Some enc) ∧
     Hook.buildParamsFromAbi io enc = Hook.Returns params ∧
     Hook.sendUploadScore io params = Hook.Returns tx ∧
     Hook.waitTx io tx = Hook.Returns tt ∧
     Hook.reloadScores io
       (Hook.log h ++ [Hook.EncryptWith method points; Hook.BuildParams;
                       Hook.SendUploadScore; Hook.WaitTx]) = Hook.Returns tt) ∧
  (∀ method0 error method enc params tx e,
     Hook.getEncryptionType io h "uploadScore" = Hook.Returns (method0, error) →
     Hook.named method0 = Some method →
     Hook.encryptWith io method points = Hook.Returns (Some enc) →
     Hook.buildParamsFromAbi io enc = Hook.Returns params →
     Hook.sendUploadScore io params = Hook.Returns tx →
     Hook.waitTx io tx = Hook.Returns tt →
     Hook.reloadScores io
       (Hook.log h ++ [Hook.EncryptWith method points; Hook.BuildParams;
                       Hook.SendUploadScore; Hook.WaitTx]) = Hook.Throws e →
     Hook.status (fst (Hook.uploadScore io points h)) = Hook.Failed e).
Proof.
  intros Hcan. rewrite uploadScore_run by done. simpl. split; [split|].
  - destruct (Hook.getEncryptionType io h "uploadScore")
      as [[method0 error]|e]; [|done].
    destruct (Hook.named method0) as [method|] eqn:Hn; [|by destruct error].
    destruct (Hook.encryptWith io method points) as [[enc|]|e] eqn:He; try done.
    destruct (Hook.buildParamsFromAbi io enc) as [params|e] eqn:Hb; [|done].
    destruct (Hook.sendUploadScore io params) as [tx|e] eqn:Hs; [|done].
    destruct (Hook.waitTx io tx) as [[]|e] eqn:Hwt; [|done].
    destruct (Hook.reloadScores io _) as [[]|e] eqn:Hr; [|done].
    intros _. exists method0, error, method, enc, params, tx.
    by repeat split.
  - intros (method0 & error & method & enc & params & tx
            & -> & -> & -> & -> & -> & -> & Hr).
    simpl in *. by rewrite Hr.
  - intros method0 error method enc params tx e -> -> -> -> -> -> Hr.
    simpl in *. by rewrite Hr.
Qed.

Lemma hook_submitted_iff_witness :
  Hook.status
    (fst (Hook.uploadScore
            (Hook.Services (λ _, Hook.Returns (Some "add32"))
               (λ _ _, Hook.Returns (Some 5%N)) Hook.Returns Hook.Returns
               (λ _, Hook.Returns tt) (λ _, Hook.Throws "offline"))
            120
            (Hook.HookState
               (Some [Hook.AbiItem "function" "uploadScore"
                        (Some ["externalEuint32"; "bytes"])])
               true true true false Hook.Blank [])))
  = Hook.Failed "offline".
Proof.
  eapply (proj2 (hook_submitted_iff
           (Hook.Services (λ _, Hook.Returns (Some "add32"))
              (λ _ _, Hook.Returns (Some 5%N)) Hook.Returns Hook.Returns
              (λ _, Hook.Returns tt) (λ _, Hook.Throws "offline"))
           120
           (Hook.HookState
              (Some [Hook.AbiItem "function" "uploadScore"
                       (Some ["externalEuint32"; "bytes"])])
              true true true false Hook.Blank []) eq_refl));
    reflexivity.
Defined.

(** With the button enabled, [handleSubmitScore] never throws, and the
    message it ends with depends on one thing only, whether its own reload
    of the scores throws: if not, it is [Score uploaded successfully!],
    whatever became of the upload inside the hook, and the line under the
    board shows it in place of the status of the hook. *)
Theorem handleSubmitScore_message io p :
  Hook.canUpload (Hook.hookState p) = true →
  ∃ p', Hook.handleSubmitScore io p = (p', Hook.Returns tt) ∧
    Hook.score p' = Hook.score p ∧
    Hook.isWorking (Hook.hookState p') = false ∧
    Hook.shown p' = inl (Hook.feedbackMsg p') ∧
    Hook.feedbackMsg p' =
      match Hook.reloadScores io
              (Hook.log (fst (Hook.uploadScore io (Hook.score p)
                                (Hook.hookState p)))) with
      | Hook.Returns _ => Hook.Uploaded
      | Hook.Throws _ => Hook.FailedToSubmit
      end.
Proof.
  intros Hcan.
  destruct (hook_uploadScore_settles_lemma io (Hook.score p) (Hook.hookState p))
    as (h' & Hrun & _ & Hfree).
  destruct (Hfree Hcan) as [Hw _].
  page_run. rewrite Hcan. cbn -[Hook.uploadScore]. rewrite Hrun. simpl.
  destruct (Hook.reloadScores io (Hook.log h')) as [[]|e]; simpl;
    eexists; (split; [done|]); by repeat split.
Qed.

Lemma handleSubmitScore_message_witness :
  ∃ p', Hook.handleSubmitScore
          (Hook.Services (λ _, Hook.Returns (Some "add32"))
             (λ _ _, Hook.Throws "no key") Hook.Returns Hook.Returns
             (λ _, Hook.Returns tt) (λ _, Hook.Returns tt))
          (Hook.Page
             (Hook.HookState
                (Some [Hook.AbiItem "function" "uploadScore"
                         (Some ["externalEuint32"; "bytes"])])
                true true true false Hook.Blank [])
             Hook.NoFeedback 120) = (p', Hook.Returns tt) ∧
    Hook.score p' = 120 ∧
    Hook.isWorking (Hook.hookState p') = false ∧
    Hook.shown p' = inl (Hook.feedbackMsg p') ∧
    Hook.feedbackMsg p' = Hook.Uploaded.
Proof.
  apply (handleSubmitScore_message
           (Hook.Services (λ _, Hook.Returns (Some "add32"))
              (λ _ _, Hook.Throws "no key") Hook.Returns Hook.Returns
              (λ _, Hook.Returns tt) (λ _, Hook.Returns tt))
           (Hook.Page
              (Hook.HookState
                 (Some [Hook.AbiItem "function" "uploadScore"
                          (Some ["externalEuint32"; "bytes"])])
                 true true true false Hook.Blank [])
              Hook.NoFeedback 120)).
  reflexivity.
Defined.

(** When the encryption throws, no transaction is sent and the hook's
    status says that the upload failed, yet the page ends on [Score
    uploaded successfully!] as long as its reload of the scores returns. *)
Theorem handleSubmitScore_success_without_upload io p method0 error method e :
  Hook.canUpload (Hook.hookState p) = true →
  Hook.getEncryptionType io (Hook.hookState p) "uploadScore"
    = Hook.Returns (method0, error) →
  Hook.named method0 = Some method →
  Hook.encryptWith io method (Hook.score p) = Hook.Throws e →
  Hook.reloadScores io
    (Hook.log (Hook.hookState p) ++ [Hook.EncryptWith method (Hook.score p)])
    = Hook.Returns tt →
  ∃ p', Hook.handleSubmitScore io p = (p', Hook.Returns tt) ∧
    Hook.shown p' = inl Hook.Uploaded ∧
    Hook.status (Hook.hookState p') = Hook.Failed e ∧
    Hook.log (Hook.hookState p') =
      Hook.log (Hook.hookState p)
      ++ [Hook.EncryptWith method (Hook.score p); Hook.ReloadScores].
Proof.
  intros Hcan Htype Hnamed Henc Hreload.
  page_run. rewrite Hcan. cbn -[Hook.uploadScore].
  rewrite uploadScore_run by done. rewrite Htype, Hnamed, Henc. simpl.
  rewrite Hreload. simpl. eexists. split; [done|]. split; [done|].
  split; [done|]. by rewrite <- app_assoc.
Qed.

Lemma handleSubmitScore_success_without_upload_witness :
  ∃ p', Hook.handleSubmitScore
          (Hook.Services (λ _, Hook.Returns (Some "add32"))
             (λ _ _, Hook.Throws "no key") Hook.Returns Hook.Returns
             (λ _, Hook.Returns tt) (λ _, Hook.Returns tt))
          (Hook.Page
             (Hook.HookState
                (Some [Hook.AbiItem "function" "uploadScore"
                         (Some ["externalEuint32"; "bytes"])])
                true true true false Hook.Blank [])
             Hook.NoFeedback 120) = (p', Hook.Returns tt) ∧
    Hook.shown p' = inl Hook.Uploaded ∧
    Hook.status (Hook.hookState p') = Hook.Failed "no key" ∧
    Hook.log (Hook.hookState p') =
      [] ++ [Hook.EncryptWith "add32" 120; Hook.ReloadScores].
Proof.
  apply (handleSubmitScore_success_without_upload
           (Hook.Services (λ _, Hook.Returns (Some "add32"))
              (λ _ _, Hook.Throws "no key") Hook.Returns Hook.Returns
              (λ _, Hook.Returns tt) (λ _, Hook.Returns tt))
           (Hook.Page
              (Hook.HookState
                 (Some [Hook.AbiItem "function" "uploadScore"
                          (Some ["externalEuint32"; "bytes"])])
                 true true true false Hook.Blank [])
              Hook.NoFeedback 120)
           (Some "add32") None "add32" "no key"); reflexivity.
Defined.

(** ** A game without the up key *)

Lemma rectangular_dims a a' w :
  dims a' = dims a → rectangular w a → rectangular w a'.
Proof.
  unfold dims, rectangular. intros Hd Hrect.
  apply Forall_lookup. intros i row Hi.
  assert ((length <$> a) !! i = Some (length row)) as H
    by (by rewrite <- Hd, list_lookup_fmap, Hi).
  rewrite list_lookup_fmap in H.
  apply fmap_Some in H as (row0 & Hrow0 & ->).
  apply (Forall_lookup_1 _ _ _ _ Hrect Hrow0).
Qed.

Lemma rectangular_nonempty a :
  rectangular 10 a → Forall (λ row : list cell, row ≠ []) a.
Proof.
  intros Hrect. eapply Forall_impl; [exact Hrect|].
  intros row Hlen ->. simpl in Hlen. lia.
Qed.

Lemma playerDrop_inOrder fuel rnd idle w :
  inOrder w → gameOver w = false → (41 ≤ fuel)%nat → (rnd < 7)%nat →
  inOrder (fst (playerDrop fuel rnd idle w)) ∧
  snd (playerDrop fuel rnd idle w) = inr tt.
Proof.
  intros (Hlen & Hrect & Hnum & Hfree) Hrun Hfuel Hrnd.
  specialize (Hfree Hrun).
  destruct (lookup_lt_is_Some_2 shapes (S rnd)) as [m Hm]; [simpl; lia|].
  pose proof (rectangular_nonempty _ Hrect) as Hne.
  destruct (playerDrop_spec w fuel rnd idle m Hrun Hfree Hnum Hne
              ltac:(lia) Hm) as (_ & _ & Hres).
  cbv zeta in Hres.
  destruct (collide (arena w) (Piece (Pos (cur_x w) (cur_y w + 1)) _))
    eqn:Hhit.
  - destruct Hres as (locked & w1 & Hmerge & _ & _ & _ & ->). simpl.
    split; [|done].
    destruct (merge_inside (arena w) (player w)
                (valid_piece_inside _ _ Hfree Hnum)) as (a' & Hrun' & Hd & _).
    rewrite Hmerge in Hrun'. injection Hrun' as <-.
    pose proof (rectangular_dims _ _ _ Hd Hrect) as Hrect'.
    pose proof (dims_length _ _ Hd) as Hlen'.
    pose proof (sweepRows_spec locked fuel (rectangular_nonempty _ Hrect')
                  ltac:(lia)) as Hsweep.
    apply sweep_loop_shape in Hsweep as (Hl & Hr & _).
    destruct (shapes_wellShaped rnd m Hm) as (? & _ & _ & _ & Hnm).
    split; [simpl; lia|]. split; [by apply Hr|]. split; [done|].
    simpl. by destruct (collide _ _).
  - rewrite Hres. simpl. split; [|done].
    destruct w as [a [[x y] mat] s g st]. by repeat split.
Qed.

Lemma handle_inOrder fuel e w :
  inOrder w → (41 ≤ fuel)%nat → noTurn e →
  inOrder (fst (handle fuel e w)) ∧ snd (handle fuel e w) = inr tt.
Proof.
  intros Hw Hfuel He.
  destruct (gameOver w) eqn:Hrun; [by rewrite handle_over|].
  destruct e as [k rnd idle|rnd idle]; simpl;
    [|by apply playerDrop_inOrder].
  unfold keyListener. js_run. rewrite Hrun.
  assert (∀ dir, inOrder (fst (movePlayer dir w)) ∧
                 snd (movePlayer dir w) = inr tt) as Hmove.
  { intros dir. rewrite movePlayer_run. simpl. split; [|done].
    destruct (collide (arena w) _) eqn:Hhit; [done|].
    destruct Hw as (? & ? & ? & _).
    destruct w as [a [[x y] mat] s g st]. by repeat split. }
  destruct k; simpl in He; try done.
  - by apply playerDrop_inOrder.
Qed.

(** A game begun with Start in which the up key is never pressed stays in
    order: after any such keys and ticks the board is twenty rows of ten
    cells, the piece collides with nothing unless the game is over, and the
    next key or tick is handled without an exception. The faults above all
    need a rotation. *)
Theorem play_without_turns fuel rnd es w0 :
  startGame rnd = inr w0 →
  (41 ≤ fuel)%nat →
  Forall noTurn es →
  inOrder (play fuel es w0) ∧
  ∀ e, noTurn e → snd (handle fuel e (play fuel es w0)) = inr tt.
Proof.
  intros Hstart Hfuel Hes.
  assert (inOrder w0) as Hw0.
  { unfold startGame in Hstart.
    destruct (shapes !! S rnd) as [m|] eqn:Hm; [|done].
    injection Hstart as <-.
    destruct (shapes_wellShaped rnd m Hm) as (? & _ & _ & _ & Hnm).
    split; [done|]. split; [exact emptyArena_rectangular|].
    split; [done|]. intros _. simpl.
    destruct rnd as [|[|[|[|[|[|[|?]]]]]]]; cbv in Hm; simplify_eq;
      by vm_compute. }
  assert (inOrder (play fuel es w0)) as Hinv.
  { clear Hstart. revert w0 Hw0.
    induction Hes as [|e es He _ IH]; intros w0 Hw0; [done|].
    simpl. apply IH. by apply handle_inOrder. }
  split; [done|]. intros e He. by apply handle_inOrder.
Qed.

Lemma play_without_turns_witness :
  inOrder (play 41 twoRowGame
    (World emptyArena (initialPlayer [nums [4; 4]; nums [4; 4]]) 0 false true)) ∧
  ∀ e, noTurn e →
    snd (handle 41 e (play 41 twoRowGame
      (World emptyArena (initialPlayer [nums [4; 4]; nums [4; 4]]) 0 false true)))
    = inr tt.
Proof.
  apply (play_without_turns 41 3 twoRowGame); [reflexivity | lia |].
  unfold twoRowGame, ticks, press.
  repeat (apply Forall_app; split);
    try (apply Forall_forall; intros e [-> _]%elem_of_replicate);
    repeat constructor; simpl; lia.
Defined.

(** ** A game followed from Start, rotations included *)

Lemma merge_widened p a :
  widened a (fst (merge p a)) ∧
  (snd (merge p a) = inr tt ∨ snd (merge p a) = inl TypeError).
Proof. apply merge_rows_widened. Qed.

Lemma swept_length a fuel :
  Forall (λ row, row ≠ []) a → (2 * length a + 1 ≤ fuel)%nat →
  length ((zeroed <$> clearedRows a) ++ keptRows a) = length a.
Proof.
  intros Hne Hfuel. pose proof (sweepRows_spec a fuel Hne Hfuel) as Hrun.
  by apply sweep_loop_shape in Hrun as (Hl & _).
Qed.

Lemma playerRotate_completes fuel w :
  gamePiece (matrix (player w)) → (12 ≤ fuel)%nat →
  ∃ w' e, playerRotate fuel w = (w', inr e).
Proof.
  intros Hinv Hfuel.
  destruct (rotate_gamePiece _ Hinv) as (m' & Hrot & _).
  pose proof (playerRotate_ends fuel w) as Hends.
  pose proof (kick_only_fuel fuel 1 (set_matrix m' w)) as Honly.
  destruct Hinv as (_ & Hh & _).
  specialize (Hends ltac:(lia)).
  unfold playerRotate in *. revert Hends. js_run. rewrite Hrot. js_run.
  destruct (kick fuel 1 _) as [w' [e|e]]; simpl in *; [|by eauto].
  intros Hends. specialize (Honly e eq_refl). by subst e.
Qed.

Lemma startGame_gameShaped rnd w0 : startGame rnd = inr w0 → gameShaped w0.
Proof.
  unfold startGame. intros Hstart.
  destruct (shapes !! S rnd) as [m|] eqn:Hm; [|done].
  injection Hstart as <-.
  split; [done|]. split; [exact emptyArena_nonempty|].
  split; [by eapply shapes_gamePiece | done].
Qed.

Lemma playerDrop_gameShaped fuel rnd idle w :
  gameShaped w → (41 ≤ fuel)%nat → (rnd < 7)%nat →
  gameShaped (fst (playerDrop fuel rnd idle w)) ∧
  (snd (playerDrop fuel rnd idle w) = inr tt ∨
   snd (playerDrop fuel rnd idle w) = inl TypeError).
Proof.
  destruct w as [a [[x y] m] s g st].
  intros (Hlen & Hne & Hpiece & Hflags) Hfuel Hrnd. simpl in *.
  unfold playerDrop. js_run. destruct g; js_run; [by split; [|left]|].
  unfold cur_y, set_y, set_player. simpl.
  destruct (collide a _); js_run; [|by split; [|left]].
  unfold onArena, cur_y, set_y, set_player, set_arena. simpl.
  destruct (merge_widened (Piece (Pos x (y + 1 - 1)) m) a) as [Hw Ho].
  pose proof (Forall2_length _ _ _ Hw) as Hlen1.
  pose proof (widened_nonempty _ _ Hw Hne) as Hne1.
  destruct (merge _ a) as [a1 [e|[]]]; simpl in *.
  - split; [|done]. split; [simpl; congruence|]. by split.
  - set (w1 := World a1 (Piece (Pos x (y + 1 - 1)) m) s false st).
    rewrite (sweep_spec idle w1 fuel) by (simpl; done || lia).
    cbn -[collide COLS Z.div Z.add Z.sub].
    destruct (lookup_lt_is_Some_2 shapes (S rnd)) as [m' Hm']; [simpl; lia|].
    rewrite (playerReset_spec _ rnd m' Hm').
    cbn -[collide COLS Z.div Z.add Z.sub clearedRows keptRows].
    split; [|by left]. split; [|split; [|split]]; simpl.
    + rewrite (swept_length a1 fuel) by (done || lia). congruence.
    + by apply swept_rows.
    + by eapply shapes_gamePiece.
    + by destruct (collide _ _).
Qed.

Lemma handle_gameShaped fuel e w :
  gameShaped w → (41 ≤ fuel)%nat → drawn e →
  gameShaped (fst (handle fuel e w)) ∧
  (snd (handle fuel e w) = inr tt ∨ snd (handle fuel e w) = inl TypeError).
Proof.
  intros Hw Hfuel He.
  destruct (gameOver w) eqn:Hrun; [rewrite handle_over by done; by split; [|left]|].
  destruct e as [k rnd idle|rnd idle]; simpl in *;
    [|by apply playerDrop_gameShaped].
  unfold keyListener. js_run. rewrite Hrun.
  assert (∀ dir, gameShaped (fst (movePlayer dir w)) ∧
                 (snd (movePlayer dir w) = inr tt ∨
                  snd (movePlayer dir w) = inl TypeError)) as Hmove.
  { intros dir. rewrite movePlayer_run. simpl. split; [|by left].
    destruct (collide (arena w) _); [done|].
    destruct w as [a [[x y] mat] s g st]. exact Hw. }
  destruct k.
  - apply Hmove.
  - apply Hmove.
  - by apply playerDrop_gameShaped.
  - js_run. destruct Hw as (Hlen & Hne & Hpiece & Hflags).
    destruct (playerRotate_completes fuel w Hpiece ltac:(lia)) as (w' & r & Hrot).
    pose proof (playerRotate_matrix fuel w Hpiece) as Hm.
    destruct (playerRotate_frame fuel w) as (Ha & _ & Hg & Hst & _).
    rewrite Hrot in *. simpl in *. split; [|by left].
    unfold gameShaped. rewrite Ha, Hg, Hst.
    split; [done|]. split; [done|]. by split.
  - by split; [|left].
Qed.

Lemma play_app fuel es1 es2 : ∀ w,
  play fuel (es1 ++ es2) w = play fuel es2 (play fuel es1 w).
Proof. induction es1 as [|e es1 IH]; intros w; [done|]. simpl. apply IH. Qed.

Lemma play_gameShaped fuel es : ∀ w,
  gameShaped w → (41 ≤ fuel)%nat → Forall drawn es →
  followed fuel es w ∧ gameShaped (play fuel es w).
Proof.
  induction es as [|e es IH]; intros w Hw Hfuel Hes; [done|].
  apply Forall_cons in Hes as [He Hes].
  destruct (handle_gameShaped fuel e w Hw Hfuel He) as [Hw' Ho].
  destruct (IH _ Hw' Hfuel Hes) as [Hf Hinv].
  simpl. split; [by split | done].
Qed.

(** In a game begun with Start, with the up key allowed, the model follows
    the program through any keys and ticks: every callback returns or
    throws a [TypeError]. The board keeps its twenty rows, and the score at
    any point of the game is at least the score at any earlier point. *)
Theorem play_steady fuel rnd es1 es2 w0 :
  startGame rnd = inr w0 →
  (41 ≤ fuel)%nat →
  Forall drawn (es1 ++ es2) →
  followed fuel (es1 ++ es2) w0 ∧
  length (arena (play fuel (es1 ++ es2) w0)) = 20%nat ∧
  score (play fuel es1 w0) ≤ score (play fuel (es1 ++ es2) w0).
Proof.
  intros Hstart Hfuel Hes.
  destruct (play_gameShaped fuel (es1 ++ es2) w0
              (startGame_gameShaped _ _ Hstart) Hfuel Hes)
    as (Hf & Hlen & _).
  split; [done|]. split; [done|].
  rewrite play_app. apply play_score_grows.
Qed.

Lemma play_steady_witness :
  followed 41 ((replicate 19 (Tick 0 true) ++ floorTurn)
               ++ [Tick 0 true; Tick 0 true])
    (World emptyArena (initialPlayer [nums [1; 1; 1; 1]]) 0 false true) ∧
  length (arena (play 41 ((replicate 19 (Tick 0 true) ++ floorTurn)
                          ++ [Tick 0 true; Tick 0 true])
    (World emptyArena (initialPlayer [nums [1; 1; 1; 1]]) 0 false true)))
    = 20%nat ∧
  score (play 41 (replicate 19 (Tick 0 true) ++ floorTurn)
    (World emptyArena (initialPlayer [nums [1; 1; 1; 1]]) 0 false true)) ≤
  score (play 41 ((replicate 19 (Tick 0 true) ++ floorTurn)
                  ++ [Tick 0 true; Tick 0 true])
    (World emptyArena (initialPlayer [nums [1; 1; 1; 1]]) 0 false true)).
Proof.
  apply (play_steady 41 0 (replicate 19 (Tick 0 true) ++ floorTurn)
           [Tick 0 true; Tick 0 true]); [reflexivity | lia |].
  unfold floorTurn, press.
  repeat (apply Forall_app; split);
    try (apply Forall_forall; intros e [-> _]%elem_of_replicate);
    repeat constructor; simpl; lia.
Defined.



(** In a game begun with Start, the model following the program through any
    keys and ticks, the piece is at every point a non-empty rectangle of
    numbers at most four rows high and four columns wide, and
    [playerRotate] ends on it without an exception. *)
Theorem play_piece_shape fuel rnd es w0 :
  startGame rnd = inr w0 →
  (41 ≤ fuel)%nat →
  Forall drawn es →
  followed fuel es w0 ∧
  gamePiece (matrix (player (play fuel es w0))) ∧
  ∃ w' e, playerRotate fuel (play fuel es w0) = (w', inr e).
Proof.
  intros Hstart Hfuel Hes.
  destruct (play_gameShaped fuel es w0
              (startGame_gameShaped _ _ Hstart) Hfuel Hes)
    as (Hf & _ & _ & Hpiece & _).
  split; [done|]. split; [done|].
  apply playerRotate_completes; [done | lia].
Qed.

Lemma play_piece_shape_witness :
  followed 41 wallTurn
    (World emptyArena (initialPlayer [nums [1; 1; 1; 1]]) 0 false true) ∧
  gamePiece (matrix (player (play 41 wallTurn
    (World emptyArena (initialPlayer [nums [1; 1; 1; 1]]) 0 false true)))) ∧
  ∃ w' e, playerRotate 41 (play 41 wallTurn
    (World emptyArena (initialPlayer [nums [1; 1; 1; 1]]) 0 false true))
    = (w', inr e).
Proof.
  apply (play_piece_shape 41 0 wallTurn); [reflexivity | lia |].
  unfold wallTurn, press.
  repeat (apply Forall_app; split || apply Forall_cons; split);
    try (apply Forall_forall; intros e [-> _]%elem_of_replicate);
    repeat constructor; simpl; lia.
Defined.
